(** * Shade generator of uniweb/theming: a shallow embedding and its properties

    The embedded module is [shade-generator.js]: colour parsing, the
    sRGB / OKLab / OKLCH conversions, the binary-search gamut mapper, the two
    shade algorithms, the formatters and the palette builder.  Of
    [theme-processor.js] the part that works on plain values is embedded as
    well: palette references, the validators of colours, contexts, code
    themes and foundation variables, and the readers of foundation
    variables; of [css-generator.js], the default colours.

    JavaScript numbers are IEEE 754 binary64 values; they are modelled by
    Rocq's primitive [float], which is the same format with the same
    round-to-nearest-even arithmetic.  The functions that ECMAScript leaves
    implementation-approximated ([Math.cos], [Math.sin], [Math.atan2],
    [Math.cbrt], [Math.pow]) are a record [MathImpl] the program is
    parametrised by.  Strings are sequences of code units below 256.

    The definitions come first: the runtime ([JS]), the module itself
    ([ShadeGenerator]), a concrete [MathImpl] to run examples with
    ([Reference]), the reals a binary64 number stands for ([IEEE]) and the
    predicates the statements use ([Statements]), then [ThemeProcessor],
    [CssGenerator] and the predicates of their statements
    ([FurtherStatements]).  The lemmas follow: [Rounding] relates [+], [*]
    and [/] on non-negative floats to the reals, [Properties] holds the
    results about the module, [ExactResults] the operations that are exact
    on small integers, [Behaviour] further results about the shade
    generator and [ProcessorBehaviour] those about the theme processor. *)

From Stdlib Require Import Floats ZArith String Ascii List Bool Lia Reals Lra.
Import ListNotations.

Set Warnings "-inexact-float,-register-all".

Local Open Scope string_scope.
Local Open Scope Z_scope.

(** ** The JavaScript runtime the module relies on *)
Module JS.

(** *** Code units and strings *)

Definition code (c : ascii) : Z := Z.of_N (N_of_ascii c).

Definition chr (n : Z) : ascii := ascii_of_N (Z.to_N n).

(** [WhiteSpace] and [LineTerminator] code units below 256: what [trim]
    strips and what the class [\s] accepts. *)
Definition isSpace (c : ascii) : bool :=
  let n := code c in
  ((9 <=? n) && (n <=? 13)) || (n =? 32) || (n =? 160).

Definition isDigit (c : ascii) : bool :=
  let n := code c in (48 <=? n) && (n <=? 57).

Definition isDigitOrDot (c : ascii) : bool := isDigit c || (code c =? 46).

Definition isSpaceOrComma (c : ascii) : bool := isSpace c || (code c =? 44).

(** Value of a digit in a radix up to 36, as [parseInt] reads it. *)
Definition digitValue (c : ascii) : option Z :=
  let n := code c in
  if (48 <=? n) && (n <=? 57) then Some (n - 48)
  else if (97 <=? n) && (n <=? 122) then Some (n - 87)
  else if (65 <=? n) && (n <=? 90) then Some (n - 55)
  else None.

Definition isHexDigit (c : ascii) : bool :=
  match digitValue c with Some v => v <? 16 | None => false end.

Definition lowerChar (c : ascii) : ascii :=
  let n := code c in
  if ((65 <=? n) && (n <=? 90))
     || ((192 <=? n) && (n <=? 222) && negb (n =? 215))
  then chr (n + 32) else c.

Fixpoint toLowerCase (s : string) : string :=
  match s with
  | EmptyString => EmptyString
  | String c r => String (lowerChar c) (toLowerCase r)
  end.

Fixpoint trimStart (s : string) : string :=
  match s with
  | String c r => if isSpace c then trimStart r else s
  | EmptyString => EmptyString
  end.

Fixpoint trimEnd (s : string) : string :=
  match s with
  | EmptyString => EmptyString
  | String c r =>
      match trimEnd r with
      | EmptyString => if isSpace c then EmptyString else String c EmptyString
      | r' => String c r'
      end
  end.

Definition trim (s : string) : string := trimEnd (trimStart s).

Definition startsWith (s p : string) : bool := String.prefix p s.

Fixpoint drop (n : nat) (s : string) : string :=
  match n, s with
  | O, _ => s
  | S n', String _ r => drop n' r
  | S _, EmptyString => EmptyString
  end.

Fixpoint take (n : nat) (s : string) : string :=
  match n, s with
  | O, _ => EmptyString
  | S n', String c r => String c (take n' r)
  | S _, EmptyString => EmptyString
  end.

(** [s.replace(c, '')] with a one-character pattern: only the first
    occurrence goes. *)
Fixpoint removeFirst (c : ascii) (s : string) : string :=
  match s with
  | EmptyString => EmptyString
  | String d r => if Ascii.eqb c d then r else String d (removeFirst c r)
  end.

Fixpoint repeatChar (c : ascii) (n : nat) : string :=
  match n with
  | O => EmptyString
  | S n' => String c (repeatChar c n')
  end.

Definition padStart (n : nat) (c : ascii) (s : string) : string :=
  repeatChar c (n - String.length s) ++ s.

Fixpoint forallb_str (p : ascii -> bool) (s : string) : bool :=
  match s with
  | EmptyString => true
  | String c r => p c && forallb_str p r
  end.

(** *** Numbers: exact helpers over binary64 *)

Definition NaN : float := PrimFloat.nan.

Definition isNaN (x : float) : bool := PrimFloat.is_nan x.

(** The float nearest to an integer of magnitude below [2^63]; exact below
    [2^53]. *)
Definition ofInt (n : Z) : float :=
  if n <? 0 then PrimFloat.opp (PrimFloat.of_uint63 (Uint63.of_Z (- n)))
  else PrimFloat.of_uint63 (Uint63.of_Z n).

Definition withSign (neg : bool) (x : float) : float :=
  if neg then PrimFloat.opp x else x.

(** The binary64 value nearest to the positive rational [N / D], ties to
    even: the rounding ECMAScript prescribes for numeric literals and
    [parseFloat]. *)
Definition roundRational (N D : Z) : float :=
  if N <=? 0 then PrimFloat.zero
  else
    let e0 := Z.log2 N - Z.log2 D - 52 in
    let quo (e : Z) := if 0 <=? e then N / (D * 2 ^ e) else (N * 2 ^ (- e)) / D in
    let e1 := if quo e0 <? 2 ^ 52 then e0 - 1 else e0 in
    let e := Z.max e1 (-1074) in
    let num := if 0 <=? e then N else N * 2 ^ (- e) in
    let den := if 0 <=? e then D * 2 ^ e else D in
    let q := num / den in
    let r := num mod den in
    let q' := match 2 * r ?= den with
              | Lt => q
              | Gt => q + 1
              | Eq => if Z.even q then q else q + 1
              end in
    Z.ldexp (ofInt q') e.

(** [digits * 10^exp10], rounded once. *)
Definition ofDecimal (neg : bool) (digits exp10 : Z) : float :=
  withSign neg
    (if 0 <=? exp10 then roundRational (digits * 10 ^ exp10) 1
     else roundRational digits (10 ^ (- exp10))).

Fixpoint digitsValue (radix : Z) (s : string) (acc : Z) : Z :=
  match s with
  | EmptyString => acc
  | String c r =>
      match digitValue c with
      | Some v => digitsValue radix r (acc * radix + v)
      | None => acc
      end
  end.

(** Longest prefix of [s] whose characters satisfy [p], and the rest. *)
Fixpoint span (p : ascii -> bool) (s : string) : string * string :=
  match s with
  | String c r =>
      if p c then let (a, b) := span p r in (String c a, b) else (EmptyString, s)
  | EmptyString => (EmptyString, EmptyString)
  end.

Definition readSign (s : string) : bool * string :=
  match s with
  | String "-" r => (true, r)
  | String "+" r => (false, r)
  | _ => (false, s)
  end.

(** [parseFloat]: leading white space is skipped and the longest prefix that
    is a decimal literal is read; [NaN] when there is none. *)
Definition parseFloat (s : string) : float :=
  let (neg, s0) := readSign (trimStart s) in
  if startsWith s0 "Infinity" then withSign neg PrimFloat.infinity
  else
    let (ip, s1) := span isDigit s0 in
    let (fp, s2) :=
      match s1 with
      | String "." r => span isDigit r
      | _ => (EmptyString, s1)
      end in
    if (String.length ip + String.length fp =? 0)%nat then NaN
    else
      let ex :=
        match s2 with
        | String c r =>
            if (code c =? 101) || (code c =? 69) then
              let (eneg, r') := readSign r in
              let (ed, _) := span isDigit r' in
              if (String.length ed =? 0)%nat then 0
              else if eneg then - digitsValue 10 ed 0 else digitsValue 10 ed 0
            else 0
        | EmptyString => 0
        end in
      ofDecimal neg (digitsValue 10 (ip ++ fp) 0) (ex - Z.of_nat (String.length fp)).

Definition digitChar (v : Z) : ascii :=
  if v <? 10 then chr (48 + v) else chr (87 + v).

Fixpoint digitsOfFuel (fuel : nat) (radix n : Z) (acc : string) : string :=
  match fuel with
  | O => acc
  | S f =>
      let acc' := String (digitChar (n mod radix)) acc in
      if n / radix =? 0 then acc' else digitsOfFuel f radix (n / radix) acc'
  end.

(** The digits of a natural number in a radix, most significant first;
    ["0"] for zero. *)
Definition digitsOf (radix n : Z) : string :=
  digitsOfFuel (S (Z.to_nat (Z.log2 n))) radix n EmptyString.

(** [Math.round]: the nearest integer, ties towards [+Infinity]; a negative
    argument that rounds to zero gives [-0]. *)
Definition Math_round (x : float) : float :=
  match Prim2SF x with
  | S754_finite s m e =>
      if 0 <=? e then x
      else
        let d := 2 ^ (- e) in
        let n := if s then (d - 2 * Zpos m) / (2 * d) else (2 * Zpos m + d) / (2 * d) in
        if n =? 0 then withSign s PrimFloat.zero else ofInt n
  | _ => x
  end.

Definition Math_max (a b : float) : float :=
  if isNaN a || isNaN b then NaN
  else if PrimFloat.ltb a b then b
  else if PrimFloat.ltb b a then a
  else if PrimFloat.get_sign a then b else a.

Definition Math_min (a b : float) : float :=
  if isNaN a || isNaN b then NaN
  else if PrimFloat.ltb a b then a
  else if PrimFloat.ltb b a then b
  else if PrimFloat.get_sign a then a else b.

(** The JavaScript remainder [x % y]: exact, with the sign of the dividend. *)
Definition rem (x y : float) : float :=
  match Prim2SF x, Prim2SF y with
  | S754_nan, _ | _, S754_nan => NaN
  | S754_infinity _, _ => NaN
  | _, S754_zero _ => NaN
  | S754_zero _, _ => x
  | _, S754_infinity _ => x
  | S754_finite sx mx ex, S754_finite _ my ey =>
      let e0 := Z.min ex ey in
      let r := (Zpos mx * 2 ^ (ex - e0)) mod (Zpos my * 2 ^ (ey - e0)) in
      withSign sx (Z.ldexp (ofInt r) e0)
  end.

(** [Number::toString] for a finite [x >= 1e21] given as the integer [X]:
    the shortest digit string that reads back as [x], in exponent
    notation. *)
Fixpoint shortestFrom (fuel : nat) (k : Z) (x : float) (X n : Z) : Z :=
  match fuel with
  | O => X
  | S f =>
      let p := 10 ^ (n - k) in
      let lo := (X / p) * p in
      let hi := lo + p in
      let okLo := PrimFloat.Leibniz.eqb (roundRational lo 1) x in
      let okHi := PrimFloat.Leibniz.eqb (roundRational hi 1) x in
      if okLo && okHi then (if X - lo <=? hi - X then lo else hi)
      else if okLo then lo
      else if okHi then hi
      else shortestFrom f (k + 1) x X n
  end.

Fixpoint stripZeros (s : string) : string :=
  match s with
  | EmptyString => EmptyString
  | String c r =>
      match stripZeros r with
      | EmptyString => if code c =? 48 then EmptyString else String c EmptyString
      | r' => String c r'
      end
  end.

Definition toStringLarge (x : float) (X : Z) : string :=
  let n := Z.of_nat (String.length (digitsOf 10 X)) in
  let v := digitsOf 10 (shortestFrom 17 1 x X n) in
  let e := digitsOf 10 (Z.of_nat (String.length v) - 1) in
  match stripZeros v with
  | String d EmptyString => String d ("e+" ++ e)
  | String d r => String d ("." ++ r ++ "e+" ++ e)
  | EmptyString => "0"
  end.

(** [x.toFixed(f)]: the integer [n] with [n / 10^f] nearest to [x], the
    larger one on a tie, printed with [f] decimals. *)
Definition toFixed (x : float) (f : nat) : string :=
  match Prim2SF x with
  | S754_nan => "NaN"
  | S754_infinity s => if s then "-Infinity" else "Infinity"
  | S754_zero _ =>
      if (f =? 0)%nat then "0" else "0." ++ repeatChar "0" f
  | S754_finite s m e =>
      let sign := if s then "-" else "" in
      if PrimFloat.leb 1e21 (PrimFloat.abs x) then
        sign ++ toStringLarge (PrimFloat.abs x) (Zpos m * 2 ^ e)
      else
        let p := 10 ^ Z.of_nat f in
        let n := if 0 <=? e then Zpos m * 2 ^ e * p
                 else (2 * Zpos m * p + 2 ^ (- e)) / (2 * 2 ^ (- e)) in
        let ds := padStart (S f) "0" (digitsOf 10 n) in
        let k := (String.length ds - f)%nat in
        sign ++ (if (f =? 0)%nat then ds else take k ds ++ "." ++ drop k ds)
  end.

Fixpoint hexFraction (fuel : nat) (r d : Z) : string :=
  match fuel with
  | O => EmptyString
  | S f =>
      if r =? 0 then EmptyString
      else String (digitChar ((16 * r) / d)) (hexFraction f ((16 * r) mod d) d)
  end.

(** [n.toString(16)].  Integers print as lowercase hexadecimal digits.  For
    other finite values ECMAScript leaves the digits to the
    implementation; the exact expansion is used here. *)
Definition toString16 (x : float) : string :=
  match Prim2SF x with
  | S754_nan => "NaN"
  | S754_infinity s => if s then "-Infinity" else "Infinity"
  | S754_zero _ => "0"
  | S754_finite s m e =>
      (if s then "-" else "") ++
      (if 0 <=? e then digitsOf 16 (Zpos m * 2 ^ e)
       else
         let d := 2 ^ (- e) in
         digitsOf 16 (Zpos m / d) ++
         (if Zpos m mod d =? 0 then ""
          else "." ++ hexFraction (Z.to_nat (- e)) (Zpos m mod d) d))
  end.

(** [parseInt(s, radix)]; [None] for the radix stands for an absent
    argument (10, or 16 after a [0x] prefix). *)
Definition parseInt (s : string) (radix : option Z) : float :=
  let (neg, s0) := readSign (trimStart s) in
  let hexPrefix :=
    match s0 with
    | String "0" (String c _) => (code c =? 120) || (code c =? 88)
    | _ => false
    end in
  let strip := hexPrefix && match radix with Some r => r =? 16 | None => true end in
  let r := match radix with Some r => r | None => if strip then 16 else 10 end in
  let s1 := if strip then drop 2 s0 else s0 in
  let (ds, _) := span (fun c => match digitValue c with
                                | Some v => v <? r
                                | None => false
                                end) s1 in
  if (String.length ds =? 0)%nat then NaN
  else withSign neg (roundRational (digitsValue r ds 0) 1).

(** [ToInt32]: truncate, wrap modulo [2^32], read as a signed word. *)
Definition toInt32 (x : float) : Z :=
  match Prim2SF x with
  | S754_finite s m e =>
      let t := if 0 <=? e then Zpos m * 2 ^ e else Zpos m / 2 ^ (- e) in
      let w := (if s then - t else t) mod 2 ^ 32 in
      if w <? 2 ^ 31 then w else w - 2 ^ 32
  | _ => 0
  end.

(** *** Regular expressions

    The four patterns of the module are sequences of literals, optional
    literals and greedy runs over a character class, some of them inside a
    capture group.  [choices] lists what an item may consume in the order a
    backtracking matcher tries it; [search] is the unanchored
    [String.prototype.match]. *)

Inductive piece :=
| Lit (s : string)
| Opt (s : string)
| Star (p : ascii -> bool)
| Plus (p : ascii -> bool).

Inductive item :=
| Plain (x : piece)
| Group (x : piece)
| GroupOpt (s : string).

Definition pattern := list item.

Definition captures := list (option string).

Fixpoint runs (p : ascii -> bool) (s : string) : list (string * string) :=
  match s with
  | String c r =>
      if p c
      then (List.map (fun ab => (String c (fst ab), snd ab)) (runs p r)
              ++ [(EmptyString, s)])%list
      else [(EmptyString, s)]
  | EmptyString => [(EmptyString, EmptyString)]
  end.

Definition pieceChoices (x : piece) (s : string) : list (string * string) :=
  match x with
  | Lit l => if startsWith s l then [(l, drop (String.length l) s)] else []
  | Opt l =>
      ((if startsWith s l then [(l, drop (String.length l) s)] else [])
         ++ [(EmptyString, s)])%list
  | Star p => runs p s
  | Plus p =>
      match s with
      | String c r =>
          if p c then List.map (fun ab => (String c (fst ab), snd ab)) (runs p r)
          else []
      | EmptyString => []
      end
  end.

Definition choices (it : item) (s : string) : list (captures * string) :=
  match it with
  | Plain x => List.map (fun ab => ([], snd ab)) (pieceChoices x s)
  | Group x => List.map (fun ab => ([Some (fst ab)], snd ab)) (pieceChoices x s)
  | GroupOpt l =>
      ((if startsWith s l then [([Some l], drop (String.length l) s)] else [])
         ++ [([None], s)])%list
  end.

Fixpoint firstSome {A B : Type} (f : A -> option B) (l : list A) : option B :=
  match l with
  | [] => None
  | a :: r => match f a with Some b => Some b | None => firstSome f r end
  end.

Fixpoint matchHere (pat : pattern) (s : string) (caps : captures) : option captures :=
  match pat with
  | [] => Some caps
  | it :: pat' =>
      firstSome (fun alt => matchHere pat' (snd alt) (caps ++ fst alt)%list) (choices it s)
  end.

Fixpoint search (pat : pattern) (s : string) : option captures :=
  match matchHere pat s [] with
  | Some caps => Some caps
  | None =>
      match s with
      | String _ r => search pat r
      | EmptyString => None
      end
  end.

(** [match[i]] for [i >= 1]; an absent group reads as the empty text. *)
Definition group (caps : captures) (i : nat) : string :=
  match nth_error caps (i - 1) with
  | Some (Some t) => t
  | _ => EmptyString
  end.

(** *** Values, objects and exceptions *)

Inductive value :=
| VUndefined
| VNull
| VBool (b : bool)
| VNum (x : float)
| VStr (s : string)
| VObj (props : list (string * value)).

(** A plain object: its own enumerable properties in creation order. *)
Definition object := list (string * value).

Fixpoint getProp (o : object) (k : string) : value :=
  match o with
  | [] => VUndefined
  | (k', v) :: r => if String.eqb k k' then v else getProp r k
  end.

Fixpoint setProp (o : object) (k : string) (v : value) : object :=
  match o with
  | [] => [(k, v)]
  | (k', v') :: r =>
      if String.eqb k k' then (k', v) :: r else (k', v') :: setProp r k v
  end.

Definition keys {A : Type} (o : list (string * A)) : list string := List.map fst o.

(** [{ ...a, ...b }] *)
Definition spread (a b : object) : object :=
  fold_left (fun o kv => setProp o (fst kv) (snd kv)) b a.

(** [const { k, ...rest } = o]: the rest. *)
Definition without (o : object) (k : string) : object :=
  filter (fun kv => negb (String.eqb k (fst kv))) o.

Definition truthy (v : value) : bool :=
  match v with
  | VUndefined | VNull => false
  | VBool b => b
  | VNum x => negb (isNaN x || PrimFloat.is_zero x)
  | VStr s => negb (String.eqb s "")
  | VObj _ => true
  end.

Definition isString (v : value) : bool :=
  match v with VStr _ => true | _ => false end.

(** [typeof v === 'object' && v !== null] *)
Definition isObject (v : value) : bool :=
  match v with VObj _ => true | _ => false end.

(** [v === 'text'] *)
Definition isText (v : value) (t : string) : bool :=
  match v with VStr s => String.eqb s t | _ => false end.

(** [v !== false] *)
Definition notFalse (v : value) : bool :=
  match v with VBool false => false | _ => true end.

(** A destructuring default: used when the property is [undefined]. *)
Definition orDefault (v d : value) : value :=
  match v with VUndefined => d | _ => v end.

(** The names every plain object inherits from [Object.prototype]; each
    is bound to a function or an object, hence truthy. *)
Definition objectPrototypeKeys : list string :=
  [ "constructor"; "hasOwnProperty"; "isPrototypeOf"; "propertyIsEnumerable";
    "toLocaleString"; "toString"; "valueOf"; "__proto__";
    "__defineGetter__"; "__defineSetter__"; "__lookupGetter__";
    "__lookupSetter__" ].

Inductive error :=
| InvalidColor (v : value)
| UnsupportedFormat (s : string)
| InvalidOklch (s : string)
| InvalidRgb (s : string)
| InvalidHsl (s : string)
| TypeError (msg : string).

Inductive result (A : Type) :=
| Ok (a : A)
| Throw (e : error).

Arguments Ok {A} a.
Arguments Throw {A} e.

Definition bind {A B : Type} (r : result A) (f : A -> result B) : result B :=
  match r with
  | Ok a => f a
  | Throw e => Throw e
  end.

Definition isOk {A : Type} (r : result A) : bool :=
  match r with Ok _ => true | Throw _ => false end.

(** *** The implementation-approximated part of [Math] *)

Record MathImpl := {
  cos : float -> float;
  sin : float -> float;
  atan2 : float -> float -> float;
  cbrt : float -> float;
  sqrt : float -> float;
  pow : float -> float -> float
}.

Definition Math_PI : float := 3.141592653589793%float.

(** The results ECMAScript fixes exactly are kept out of the record. *)
Section MathObject.

Variable M : MathImpl.

Local Open Scope float_scope.

Definition Math_cos (x : float) : float :=
  if isNaN x || PrimFloat.is_infinity x then NaN
  else if x =? 0 then 1
  else cos M x.

Definition Math_sin (x : float) : float :=
  if isNaN x || PrimFloat.is_infinity x then NaN
  else if x =? 0 then x
  else sin M x.

Definition Math_atan2 (y x : float) : float :=
  if isNaN y || isNaN x then NaN else atan2 M y x.

Definition Math_cbrt (x : float) : float :=
  if isNaN x || PrimFloat.is_infinity x || (x =? 0) then x else cbrt M x.

Definition Math_sqrt (x : float) : float :=
  if isNaN x then NaN
  else if x =? 0 then x
  else if x <? 0 then NaN
  else if PrimFloat.is_infinity x then x
  else sqrt M x.

Definition Math_pow (x y : float) : float :=
  if isNaN y then NaN
  else if y =? 0 then 1
  else if isNaN x then NaN
  else pow M x y.

End MathObject.

End JS.

(** ** shade-generator.js *)
Module ShadeGenerator.
Import JS.

Local Open Scope float_scope.

(** [{ l, c, h }] *)
Record Oklch := { l : float; c : float; h : float }.

(** [{ r, g, b }] *)
Record Rgb := { r : float; g : float; b : float }.

Definition SHADE_LEVELS : list Z := [50; 100; 200; 300; 400; 500; 600; 700; 800; 900; 950]%Z.

(** A table indexed by shade level; reading an absent key gives
    [undefined], which arithmetic turns into [NaN]. *)
Definition table := list (Z * float).

Fixpoint at_level (t : table) (level : Z) : float :=
  match t with
  | [] => NaN
  | (k, v) :: r => if (k =? level)%Z then v else at_level r level
  end.

Definition LIGHTNESS_MAP : table :=
  [ (50%Z, 0.97); (100%Z, 0.93); (200%Z, 0.87); (300%Z, 0.78); (400%Z, 0.68);
    (500%Z, 0.55); (600%Z, 0.48); (700%Z, 0.40); (800%Z, 0.32); (900%Z, 0.24);
    (950%Z, 0.14) ].

Definition CHROMA_SCALE : table :=
  [ (50%Z, 0.15); (100%Z, 0.25); (200%Z, 0.40); (300%Z, 0.65); (400%Z, 0.85);
    (500%Z, 1.0); (600%Z, 0.95); (700%Z, 0.85); (800%Z, 0.75); (900%Z, 0.60);
    (950%Z, 0.45) ].

Definition LIGHT_HALF_RANGE : float :=
  at_level LIGHTNESS_MAP 50%Z - at_level LIGHTNESS_MAP 500%Z.

Definition DARK_HALF_RANGE : float :=
  at_level LIGHTNESS_MAP 500%Z - at_level LIGHTNESS_MAP 950%Z.

Definition RELATIVE_POSITION : table :=
  fold_left
    (fun (t : table) (level : Z) =>
       if (level <? 500)%Z then
         (t ++ [(level, (at_level LIGHTNESS_MAP level - at_level LIGHTNESS_MAP 500%Z) / LIGHT_HALF_RANGE)])%list
       else if (500 <? level)%Z then
         (t ++ [(level, (at_level LIGHTNESS_MAP 500%Z - at_level LIGHTNESS_MAP level) / DARK_HALF_RANGE)])%list
       else t)
    SHADE_LEVELS [].

Record HueShift := { light : float; dark : float }.

Record ModeConfig := {
  hueShift : HueShift;
  chromaBoost : float;
  lightEndChroma : float;
  darkEndChroma : float
}.

Definition MODE_CONFIG_fixed : ModeConfig :=
  {| hueShift := {| light := 0; dark := 0 |};
     chromaBoost := 1.0; lightEndChroma := 0.15; darkEndChroma := 0.45 |}.

Definition MODE_CONFIG_natural : ModeConfig :=
  {| hueShift := {| light := 5; dark := -15 |};
     chromaBoost := 1.1; lightEndChroma := 0.20; darkEndChroma := 0.40 |}.

Definition MODE_CONFIG_vivid : ModeConfig :=
  {| hueShift := {| light := 3; dark := -10 |};
     chromaBoost := 1.4; lightEndChroma := 0.35; darkEndChroma := 0.55 |}.

Definition MODE_CONFIG : list (string * ModeConfig) :=
  [ ("fixed", MODE_CONFIG_fixed);
    ("natural", MODE_CONFIG_natural);
    ("vivid", MODE_CONFIG_vivid) ].

(** What [MODE_CONFIG[mode]] evaluates to: one of the three records, a
    member inherited from [Object.prototype], or [undefined]. *)
Inductive configRef :=
| Config (cfg : ModeConfig)
| Inherited (name : string)
| Undefined.

Fixpoint ownConfig (t : list (string * ModeConfig)) (k : string) : option ModeConfig :=
  match t with
  | [] => None
  | (k', v) :: r => if String.eqb k k' then Some v else ownConfig r k
  end.

(** A key that is not a string is converted to one first; no boolean,
    [null], number or plain object converts to a name found in
    [MODE_CONFIG] or in [Object.prototype]. *)
Definition MODE_CONFIG_at (mode : value) : configRef :=
  match mode with
  | VStr k =>
      match ownConfig MODE_CONFIG k with
      | Some cfg => Config cfg
      | None =>
          if existsb (String.eqb k) objectPrototypeKeys then Inherited k else Undefined
      end
  | _ => Undefined
  end.

Section Engine.

Variable M : MathImpl.

Definition srgbToLinear (c : float) : float :=
  if c <=? 0.04045 then c / 12.92 else Math_pow M ((c + 0.055) / 1.055) 2.4.

Definition linearToSrgb (c : float) : float :=
  if c <=? 0.0031308 then 12.92 * c else 1.055 * Math_pow M c (1 / 2.4) - 0.055.

Definition rgbValuesToOklch (r g b : float) : Oklch :=
  let r := r / 255 in
  let g := g / 255 in
  let b := b / 255 in
  let r := srgbToLinear r in
  let g := srgbToLinear g in
  let b := srgbToLinear b in
  let l_ := 0.4122214708 * r + 0.5363325363 * g + 0.0514459929 * b in
  let m_ := 0.2119034982 * r + 0.6806995451 * g + 0.1073969566 * b in
  let s_ := 0.0883024619 * r + 0.2817188376 * g + 0.6299787005 * b in
  let l := Math_cbrt M l_ in
  let m := Math_cbrt M m_ in
  let s := Math_cbrt M s_ in
  let L := 0.2104542553 * l + 0.7936177850 * m - 0.0040720468 * s in
  let a := 1.9779984951 * l - 2.4285922050 * m + 0.4505937099 * s in
  let bLab := 0.0259040371 * l + 0.7827717662 * m - 0.8086757660 * s in
  let C := Math_sqrt M (a * a + bLab * bLab) in
  let H := Math_atan2 M bLab a * (180 / Math_PI) in
  let H := if H <? 0 then H + 360 else H in
  {| l := L; c := C; h := H |}.

(** [h[i] + h[i]] *)
Definition twice (h : string) (i : nat) : string :=
  let d := take 1 (drop i h) in (d ++ d)%string.

Definition hexToRgb (hex : string) : Rgb :=
  let h := removeFirst "#" hex in
  let h := if (String.length h =? 3)%nat
           then (twice h 0 ++ twice h 1 ++ twice h 2)%string else h in
  let h := if (String.length h =? 4)%nat
           then (twice h 0 ++ twice h 1 ++ twice h 2 ++ twice h 3)%string else h in
  let num := toInt32 (parseInt (take 6 h) (Some 16%Z)) in
  {| r := ofInt (Z.land (Z.shiftr num 16) 255);
     g := ofInt (Z.land (Z.shiftr num 8) 255);
     b := ofInt (Z.land num 255) |}.

Definition hexToOklch (hex : string) : Oklch :=
  let rgb := hexToRgb hex in
  rgbValuesToOklch (r rgb) (g rgb) (b rgb).

Definition numberText : piece := Plus isDigitOrDot.

(** [/oklch\(\s*([0-9.]+)(%?)\s+([0-9.]+)\s+([0-9.]+)(deg)?\s*\)/] *)
Definition oklchPattern : pattern :=
  [ Plain (Lit "oklch("); Plain (Star isSpace); Group numberText; Group (Opt "%");
    Plain (Plus isSpace); Group numberText; Plain (Plus isSpace); Group numberText;
    GroupOpt "deg"; Plain (Star isSpace); Plain (Lit ")") ].

(** [/rgba?\(\s*([0-9.]+)[\s,]+([0-9.]+)[\s,]+([0-9.]+)/] *)
Definition rgbPattern : pattern :=
  [ Plain (Lit "rgb"); Plain (Opt "a"); Plain (Lit "("); Plain (Star isSpace);
    Group numberText; Plain (Plus isSpaceOrComma); Group numberText;
    Plain (Plus isSpaceOrComma); Group numberText ].

(** [/hsla?\(\s*([0-9.]+)(deg)?[\s,]+([0-9.]+)%[\s,]+([0-9.]+)%/] *)
Definition hslPattern : pattern :=
  [ Plain (Lit "hsl"); Plain (Opt "a"); Plain (Lit "("); Plain (Star isSpace);
    Group numberText; GroupOpt "deg"; Plain (Plus isSpaceOrComma); Group numberText;
    Plain (Lit "%"); Plain (Plus isSpaceOrComma); Group numberText; Plain (Lit "%") ].

(** [/^[0-9a-f]{3,8}$/i.test(s)] *)
Definition bareHexPattern (s : string) : bool :=
  forallb_str isHexDigit s && (3 <=? String.length s)%nat && (String.length s <=? 8)%nat.

Definition parseOklch (str : string) : result Oklch :=
  match search oklchPattern str with
  | None => Throw (InvalidOklch str)
  | Some m =>
      let l := parseFloat (group m 1) in
      let l := if String.eqb (group m 2) "%" then l / 100 else l in
      let c := parseFloat (group m 3) in
      let h := parseFloat (group m 4) in
      Ok {| l := l; c := c; h := h |}
  end.

Definition rgbToOklch (str : string) : result Oklch :=
  match search rgbPattern str with
  | None => Throw (InvalidRgb str)
  | Some m =>
      let r := parseFloat (group m 1) in
      let g := parseFloat (group m 2) in
      let b := parseFloat (group m 3) in
      Ok (rgbValuesToOklch r g b)
  end.

Definition hueToRgb (p q t : float) : float :=
  let t := if t <? 0 then t + 1 else t in
  let t := if 1 <? t then t - 1 else t in
  if t <? 1 / 6 then p + (q - p) * 6 * t
  else if t <? 1 / 2 then q
  else if t <? 2 / 3 then p + (q - p) * (2 / 3 - t) * 6
  else p.

Definition hslToRgb (h s l : float) : Rgb :=
  let hue := h / 360 in
  if s =? 0 then {| r := l; g := l; b := l |}
  else
    let q := if l <? 0.5 then l * (1 + s) else l + s - l * s in
    let p := 2 * l - q in
    {| r := hueToRgb p q (hue + 1 / 3);
       g := hueToRgb p q hue;
       b := hueToRgb p q (hue - 1 / 3) |}.

Definition hslToOklch (str : string) : result Oklch :=
  match search hslPattern str with
  | None => Throw (InvalidHsl str)
  | Some m =>
      let h := parseFloat (group m 1) in
      let s := parseFloat (group m 3) / 100 in
      let l := parseFloat (group m 4) / 100 in
      let rgb := hslToRgb h s l in
      Ok (rgbValuesToOklch (r rgb * 255) (g rgb * 255) (b rgb * 255))
  end.

Definition parseColor (color : value) : result Oklch :=
  match color with
  | VStr text =>
      if String.eqb text "" then Throw (InvalidColor color)
      else
        let trimmed := toLowerCase (trim text) in
        if startsWith trimmed "oklch(" then parseOklch trimmed
        else if startsWith trimmed "#" then Ok (hexToOklch trimmed)
        else if startsWith trimmed "rgb" then rgbToOklch trimmed
        else if startsWith trimmed "hsl" then hslToOklch trimmed
        else if bareHexPattern trimmed then Ok (hexToOklch ("#" ++ trimmed))
        else Throw (UnsupportedFormat text)
  | _ => Throw (InvalidColor color)
  end.

Definition oklchToRgb (l c h : float) : Rgb :=
  let hRad := h * (Math_PI / 180) in
  let a := c * Math_cos M hRad in
  let bLab := c * Math_sin M hRad in
  let l_ := l + 0.3963377774 * a + 0.2158037573 * bLab in
  let m_ := l - 0.1055613458 * a - 0.0638541728 * bLab in
  let s_ := l - 0.0894841775 * a - 1.2914855480 * bLab in
  let lCubed := l_ * l_ * l_ in
  let mCubed := m_ * m_ * m_ in
  let sCubed := s_ * s_ * s_ in
  let r := 4.0767416621 * lCubed - 3.3077115913 * mCubed + 0.2309699292 * sCubed in
  let g := -1.2684380046 * lCubed + 2.6097574011 * mCubed - 0.3413193965 * sCubed in
  let b := -0.0041960863 * lCubed - 0.7034186147 * mCubed + 1.7076147010 * sCubed in
  {| r := Math_round (Math_max 0 (Math_min 1 (linearToSrgb r)) * 255);
     g := Math_round (Math_max 0 (Math_min 1 (linearToSrgb g)) * 255);
     b := Math_round (Math_max 0 (Math_min 1 (linearToSrgb b)) * 255) |}.

Definition inGamut (r g b : float) : bool :=
  (-0.5 <=? r) && (r <=? 255.5) && (-0.5 <=? g) && (g <=? 255.5)
  && (-0.5 <=? b) && (b <=? 255.5).

(** The loop state of [findMaxChroma]: [minC], [maxC], [bestC]. *)
Record Search := { minC : float; maxC : float; bestC : float }.

Definition searchStep (l h : float) (st : Search) : Search :=
  let midC := (minC st + maxC st) / 2 in
  let rgb := oklchToRgb l midC h in
  if inGamut (r rgb) (g rgb) (b rgb)
  then {| minC := midC; maxC := maxC st; bestC := midC |}
  else {| minC := minC st; maxC := midC; bestC := bestC st |}.

Definition findMaxChroma (l h idealC : float) : float :=
  bestC (Nat.iter 8 (searchStep l h) {| minC := 0; maxC := idealC; bestC := 0 |}).

Definition quadBezier (a control b t : float) : float :=
  let mt := 1 - t in
  mt * mt * a + 2 * mt * t * control + t * t * b.

Definition lerp (a b t : float) : float := a + (b - a) * t.

Definition normalizeHue (h : float) : float :=
  let h := rem h 360 in
  if h <? 0 then h + 360 else h.

Definition isWarmColor (h : float) : bool :=
  ((0 <=? h) && (h <? 120)) || (300 <? h).

Definition formatOklch (l c h : float) : string :=
  let lStr := toFixed (l * 100) 1 in
  let cStr := toFixed c 4 in
  let hStr := toFixed h 1 in
  ("oklch(" ++ lStr ++ "% " ++ cStr ++ " " ++ hStr ++ ")")%string.

Definition toHex (n : float) : string := padStart 2 "0" (toString16 n).

Definition formatHex (r g b : float) : string :=
  ("#" ++ toHex r ++ toHex g ++ toHex b)%string.

Definition formatHexFromOklch (oklch : Oklch) : string :=
  let rgb := oklchToRgb (l oklch) (c oklch) (h oklch) in
  formatHex (r rgb) (g rgb) (b rgb).

(** The object [shades]: level keys in creation order. *)
Definition ramp := list (Z * string).

Fixpoint setLevel (shades : ramp) (level : Z) (v : string) : ramp :=
  match shades with
  | [] => [(level, v)]
  | (k, v') :: rest =>
      if (k =? level)%Z then (k, v) :: rest else (k, v') :: setLevel rest level v
  end.

Fixpoint getLevel (shades : ramp) (level : Z) : option string :=
  match shades with
  | [] => None
  | (k, v) :: rest => if (k =? level)%Z then Some v else getLevel rest level
  end.

Definition levels (shades : ramp) : list Z := List.map fst shades.

(** What both loops store at level 500 when exact matching is on. *)
Definition exactShade (base : Oklch) (originalColor : string) (format : value) : string :=
  if isText format "hex" then
    if startsWith originalColor "#" then originalColor else formatHexFromOklch base
  else formatOklch (l base) (c base) (h base).

(** The tail common to both loops: gamut-map and format one shade. *)
Definition emitShade (format : value) (targetL targetC targetH : float) : string :=
  let safeC := findMaxChroma targetL targetH targetC in
  if isText format "hex" then
    let rgb := oklchToRgb targetL safeC targetH in
    formatHex (r rgb) (g rgb) (b rgb)
  else formatOklch targetL safeC targetH.

Definition fixedTargetL (base : Oklch) (smart : bool) (level : Z) : float :=
  if smart then
    if (level <? 500)%Z
    then l base + at_level RELATIVE_POSITION level * (at_level LIGHTNESS_MAP 50%Z - l base)
    else l base - at_level RELATIVE_POSITION level * (l base - at_level LIGHTNESS_MAP 950%Z)
  else at_level LIGHTNESS_MAP level.

(** One iteration of the loop of [generateFixedShades]. *)
Definition fixedShade (base : Oklch) (originalColor : string) (format : value)
    (smart : bool) (level : Z) : string :=
  if smart && (level =? 500)%Z then exactShade base originalColor format
  else
    let targetL := fixedTargetL base smart level in
    let chromaScale := at_level CHROMA_SCALE level in
    let targetC := c base * chromaScale in
    emitShade format targetL targetC (h base).

Definition generateFixedShades (base : Oklch) (originalColor : string)
    (format exactMatch : value) : ramp :=
  let smart := notFalse exactMatch in
  fold_left
    (fun shades level => setLevel shades level (fixedShade base originalColor format smart level))
    SHADE_LEVELS [].

(** Target lightness, chroma and hue of the curve at index [i], before the
    hue is normalised. *)
Definition enhancedTarget (base lightEnd darkEnd : Oklch) (peakChroma : float) (i : Z)
    : float * float * float :=
  if (i <=? 5)%Z then
    let t := ofInt i / 5 in
    let controlC := (c lightEnd + peakChroma) / 2 in
    (lerp (l lightEnd) (l base) t,
     quadBezier (c lightEnd) controlC peakChroma t,
     lerp (h lightEnd) (h base) t)
  else
    let t := (ofInt i - 5) / 5 in
    let controlC := (peakChroma + c darkEnd) / 2 in
    (lerp (l base) (l darkEnd) t,
     quadBezier peakChroma controlC (c darkEnd) t,
     lerp (h base) (h darkEnd) t).

(** One iteration of the loop of [generateEnhancedShades], at index [i]. *)
Definition enhancedShade (base : Oklch) (originalColor : string) (format : value)
    (exactMatch : value) (lightEnd darkEnd : Oklch)
    (peakChroma : float) (i : Z) (level : Z) : string :=
  if notFalse exactMatch && (level =? 500)%Z then exactShade base originalColor format
  else
    let '(targetL, targetC, targetH) := enhancedTarget base lightEnd darkEnd peakChroma i in
    let targetH := normalizeHue targetH in
    emitShade format targetL targetC targetH.

Fixpoint enhancedLoop (body : Z -> Z -> string) (i : Z) (ls : list Z) (shades : ramp) : ramp :=
  match ls with
  | [] => shades
  | level :: rest => enhancedLoop body (i + 1)%Z rest (setLevel shades level (body i level))
  end.

Definition generateEnhancedShades (base : Oklch) (originalColor : string)
    (format : value) (config : configRef) (exactMatch : value) : result ramp :=
  let isWarm := isWarmColor (h base) in
  match config with
  | Config config =>
      let hueShiftLight := if isWarm then light (hueShift config) else - light (hueShift config) in
      let hueShiftDark := if isWarm then dark (hueShift config) else - dark (hueShift config) in
      let lightEnd :=
        {| l := at_level LIGHTNESS_MAP 50%Z;
           c := c base * lightEndChroma config;
           h := normalizeHue (h base + hueShiftLight) |} in
      let darkEnd :=
        {| l := at_level LIGHTNESS_MAP 950%Z;
           c := c base * darkEndChroma config;
           h := normalizeHue (h base + hueShiftDark) |} in
      let peakChroma := c base * chromaBoost config in
      Ok (enhancedLoop
            (enhancedShade base originalColor format exactMatch lightEnd darkEnd peakChroma)
            0%Z SHADE_LEVELS [])
  | Inherited _ | Undefined =>
      (* [config.hueShift] is [undefined]; reading [.light] of it throws *)
      Throw (TypeError "Cannot read properties of undefined (reading 'light')")
  end.

Definition generateShades (color : value) (options : object) : result ramp :=
  let format := orDefault (getProp options "format") (VStr "oklch") in
  let mode := orDefault (getProp options "mode") (VStr "fixed") in
  let exactMatch := getProp options "exactMatch" in
  bind (parseColor color) (fun base =>
    let originalColor := match color with VStr text => text | _ => EmptyString end in
    let config :=
      match MODE_CONFIG_at mode with
      | Undefined => Config MODE_CONFIG_fixed
      | found => found
      end in
    if isText mode "fixed" then Ok (generateFixedShades base originalColor format exactMatch)
    else generateEnhancedShades base originalColor format config exactMatch).

(** What [palettes[name]] holds: a generated ramp or the caller's own
    object, passed through. *)
Inductive palette :=
| Generated (shades : ramp)
| Verbatim (colorConfig : value).

Fixpoint setPalette (palettes : list (string * palette)) (name : string) (p : palette)
    : list (string * palette) :=
  match palettes with
  | [] => [(name, p)]
  | (k, p') :: rest =>
      if String.eqb name k then (k, p) :: rest else (k, p') :: setPalette rest name p
  end.

(** [!isNaN(parseInt(k))] *)
Definition numericKey (k : string) : bool := negb (isNaN (parseInt k None)).

(** One iteration of the loop of [generatePalettes]. *)
Definition paletteStep (options : object) (palettes : list (string * palette))
    (entry : string * value) : result (list (string * palette)) :=
  let (name, colorConfig) := entry in
  match colorConfig with
  | VObj props =>
      if negb (truthy (getProp props "base")) && existsb numericKey (keys props)
      then Ok (setPalette palettes name (Verbatim colorConfig))
      else if truthy (getProp props "base") then
        let base := getProp props "base" in
        let colorOptions := without props "base" in
        bind (generateShades base (spread options colorOptions))
             (fun shades => Ok (setPalette palettes name (Generated shades)))
      else Ok palettes
  | VStr _ =>
      bind (generateShades colorConfig options)
           (fun shades => Ok (setPalette palettes name (Generated shades)))
  | _ => Ok palettes
  end.

Fixpoint paletteLoop (options : object) (entries : list (string * value))
    (palettes : list (string * palette)) : result (list (string * palette)) :=
  match entries with
  | [] => Ok palettes
  | entry :: rest =>
      bind (paletteStep options palettes entry) (paletteLoop options rest)
  end.

Definition generatePalettes (colors options : object) : result (list (string * palette)) :=
  paletteLoop options colors [].

Definition getAvailableModes : list string := keys MODE_CONFIG.

Definition isValidColor (color : value) : bool := isOk (parseColor color).


End Engine.

End ShadeGenerator.

(** ** A reference instance of the approximated functions

    Argument reduction followed by a truncated series, accurate to about
    [1e-15]; used to run the generator on concrete colours. *)
Module Reference.
Import JS.

Local Open Scope float_scope.

Definition LN2 : float := 0.6931471805599453.

(** [sum_{k < n} x^k * term k], by Horner's rule from the last term. *)
Fixpoint horner (coeff : nat -> float) (x : float) (n : nat) (acc : float) : float :=
  match n with
  | O => acc
  | S k => horner coeff x k (coeff k + x * acc)
  end.

Definition natF (n : nat) : float := ofInt (Z.of_nat n).

(** Natural logarithm of a positive finite number. *)
Definition ln (x : float) : float :=
  let (m, e) := Z.frexp x in
  let '(m, e) := if m <? 0.7071067811865476 then (2 * m, (e - 1)%Z) else (m, e) in
  let s := (m - 1) / (m + 1) in
  ofInt e * LN2 + 2 * s * horner (fun k => 1 / natF (2 * k + 1)) (s * s) 16 0.

Fixpoint factorialF (n : nat) : float :=
  match n with
  | O => 1
  | S k => natF n * factorialF k
  end.

Definition exp (z : float) : float :=
  if isNaN z then NaN
  else if 709.79 <? z then infinity
  else if z <? -745.14 then 0
  else
    let k := Math_round (z / LN2) in
    let r := z - k * 0.693147180369123816490 - k * 1.90821492927058770002e-10 in
    Z.ldexp (horner (fun n => 1 / factorialF n) r 22 0) (toInt32 k).

Definition ref_pow (x y : float) : float :=
  if isNaN x || isNaN y then NaN
  else if y =? 0 then 1
  else if x =? 0 then (if 0 <? y then 0 else infinity)
  else if x <? 0 then NaN
  else if x =? infinity then (if 0 <? y then infinity else 0)
  else exp (y * ln x).

Definition ref_cbrt (x : float) : float :=
  if isNaN x || (x =? 0) || is_infinity x then x
  else
    let a := abs x in
    let y := exp (ln a / 3) in
    let y := y - (y * y * y - a) / (3 * y * y) in
    let y := y - (y * y * y - a) / (3 * y * y) in
    if x <? 0 then - y else y.

Definition halfAngle (t : float) : float := t / (1 + PrimFloat.sqrt (1 + t * t)).

(** Arctangent on [[0, 1]]. *)
Definition atanUnit (t : float) : float :=
  let u := halfAngle (halfAngle (halfAngle t)) in
  8 * u * horner (fun k => (if Nat.even k then 1 else -1) / natF (2 * k + 1)) (u * u) 14 0.

Definition atanPos (t : float) : float :=
  if t <=? 1 then atanUnit t else Math_PI / 2 - atanUnit (1 / t).

Definition ref_atan2 (y x : float) : float :=
  if isNaN x || isNaN y then NaN
  else if y =? 0 then
    (if get_sign x then (if get_sign y then - Math_PI else Math_PI) else y)
  else if x =? 0 then (if y <? 0 then - (Math_PI / 2) else Math_PI / 2)
  else
    let t := if is_infinity x && is_infinity y then 1 else abs (y / x) in
    let a := atanPos t in
    let a := if x <? 0 then Math_PI - a else a in
    if y <? 0 then - a else a.

(** Reduction of an angle to [[-pi, pi]]. *)
Definition reduceAngle (x : float) : float :=
  let r := rem x (2 * Math_PI) in
  if Math_PI <? r then r - 2 * Math_PI
  else if r <? - Math_PI then r + 2 * Math_PI
  else r.

Definition ref_cos (x : float) : float :=
  if isNaN x || is_infinity x then NaN
  else
    let r := reduceAngle x in
    horner (fun k => (if Nat.even k then 1 else -1) / factorialF (2 * k)) (r * r) 16 0.

Definition ref_sin (x : float) : float :=
  if isNaN x || is_infinity x then NaN
  else if x =? 0 then x
  else
    let r := reduceAngle x in
    r * horner (fun k => (if Nat.even k then 1 else -1) / factorialF (2 * k + 1)) (r * r) 16 0.

Definition math : MathImpl :=
  {| cos := ref_cos; sin := ref_sin; atan2 := ref_atan2;
     cbrt := ref_cbrt; sqrt := PrimFloat.sqrt; pow := ref_pow |}.

End Reference.

(** ** Binary64 numbers as reals *)
Module IEEE.

Local Open Scope R_scope.

(** The real [2^e]. *)
Definition pow2 (e : Z) : R := powerRZ 2 e.

(** The real [m * 2^e]. *)
Definition F2R (m e : Z) : R := IZR m * pow2 e.

(** The real a finite [spec_float] stands for; 0 for the others. *)
Definition SF2R (x : spec_float) : R :=
  match x with
  | S754_finite s m e => F2R (cond_Zopp s (Zpos m)) e
  | _ => 0
  end.

(** Values of binary64: a mantissa below [2^53] at an exponent from
    [-1074] to [971]. *)
Definition representable (g : R) : Prop :=
  exists m e, (0 <= m < 2 ^ 53)%Z /\ (-1074 <= e <= 971)%Z /\ g = F2R m e.

Definition inexact (mrs : shr_record) : bool := shr_r mrs || shr_s mrs.

Definition sandwich (v zv : R) : Prop :=
  forall g, representable g -> (g <= v -> g <= zv) /\ (v <= g -> zv <= g).

(** The largest finite binary64 number. *)
Definition MAX : R := F2R (2 ^ 53 - 1) 971.

(** What a correctly rounded positive result [z] of the exact value [v]
    satisfies: it is the neighbour of [v] below or above, or an overflow. *)
Definition rounds_to (v : R) (z : spec_float) : Prop :=
  match z with
  | S754_nan => False
  | S754_infinity s => s = false /\ MAX < v
  | S754_zero s => s = false /\ v < pow2 1024 /\ sandwich v 0
  | S754_finite s m e =>
      s = false /\ (Zpos m < 2 ^ 53)%Z /\ (-1074 <= e <= 971)%Z
      /\ v < pow2 1024 /\ sandwich v (F2R (Zpos m) e)
  end.

(** Zero or a positive finite number in canonical form. *)
Definition nonnegF (x : spec_float) : Prop :=
  match x with
  | S754_zero _ => True
  | S754_finite false m e => SpecFloat.bounded prec emax m e = true
  | _ => False
  end.

Definition B2R (x : float) : R := SF2R (Prim2SF x).

(** A non-negative float [x] is a correct rounding of the real [v]. *)
Definition rounds (v : R) (x : float) : Prop :=
  (x = infinity /\ MAX < v)
  \/ (nonnegF (Prim2SF x) /\ v < pow2 1024 /\ sandwich v (B2R x)).

(** Zero or a positive finite number in canonical form, of positive sign. *)
Definition positiveF (x : spec_float) : Prop :=
  match x with
  | S754_zero false => True
  | S754_finite false m e => SpecFloat.bounded prec emax m e = true
  | _ => False
  end.

End IEEE.

(** ** Predicates of the specification *)
Module Statements.
Import JS ShadeGenerator.

Local Open Scope float_scope.

(** The entries the loop skips: the test of the code, as a boolean. *)
Definition skipped (colorConfig : value) : bool :=
  match colorConfig with
  | VStr _ => false
  | VObj props => negb (truthy (getProp props "base")) && negb (existsb numericKey (keys props))
  | _ => true
  end.

(** The lightness an [oklch(...)] value prints, as the tests of the
    repository read it: [parseFloat(s.match(/oklch\(([0-9.]+)%/)[1])]. *)
Definition shadeLightness (v : string) : float :=
  match search [Plain (Lit "oklch("); Group numberText; Plain (Lit "%")] v with
  | Some m => parseFloat (group m 1)
  | None => NaN
  end.

Fixpoint nonIncreasing (xs : list float) : bool :=
  match xs with
  | x :: ((y :: _) as rest) => (y <=? x) && nonIncreasing rest
  | _ => true
  end.

Definition rampLightness (shades : ramp) : list float :=
  List.map (fun kv => shadeLightness (snd kv)) shades.

Definition hueNormalized (x : float) : bool := (0 <=? x) && (x <? 360).

(** An unusable entry as the specification describes it: not a string, and, when an
    object, one with no [base] key and no key that [parseInt] reads as a
    number. *)
Definition unusableEntry (colorConfig : value) : Prop :=
  isString colorConfig = false
  /\ forall props, colorConfig = VObj props ->
       ~ In "base" (keys props) /\ forall k, In k (keys props) -> numericKey k = false.

Definition isLowerHexDigit (ch : ascii) : bool :=
  let n := code ch in
  ((48 <=? n)%Z && (n <=? 57)%Z) || ((97 <=? n)%Z && (n <=? 102)%Z).

(** [#] followed by exactly six lowercase hexadecimal digits. *)
Definition hexColorText (v : string) : bool :=
  match v with
  | String "#" d => (String.length d =? 6)%nat && forallb_str isLowerHexDigit d
  | _ => false
  end.

Definition allHexColorText (shades : ramp) : bool :=
  forallb (fun kv => hexColorText (snd kv)) shades.

(** A channel that is an integer from 0 to 255. *)
Definition byteValued (x : float) : Prop := exists n, (0 <= n <= 255)%Z /\ x = ofInt n.

(** The two ways a value of a hex ramp is produced. *)
Definition hexShadeOrigin (M : MathImpl) (originalColor : string) (exact : bool)
    (level : Z) (v : string) : Prop :=
  (level = 500%Z /\ exact = true /\ startsWith originalColor "#" = true /\ v = originalColor)
  \/ exists L C H,
       v = formatHex (r (oklchToRgb M L C H)) (g (oklchToRgb M L C H)) (b (oklchToRgb M L C H)).

Definition found (m : option captures) : bool :=
  match m with Some _ => true | None => false end.






(** The linear-light channels [oklchToRgb] computes, before the gamma curve
    is applied. *)
Definition oklchToLinearRgb (M : MathImpl) (l c h : float) : Rgb :=
  let hRad := h * (Math_PI / 180) in
  let a := c * Math_cos M hRad in
  let bLab := c * Math_sin M hRad in
  let l_ := l + 0.3963377774 * a + 0.2158037573 * bLab in
  let m_ := l - 0.1055613458 * a - 0.0638541728 * bLab in
  let s_ := l - 0.0894841775 * a - 1.2914855480 * bLab in
  let lCubed := l_ * l_ * l_ in
  let mCubed := m_ * m_ * m_ in
  let sCubed := s_ * s_ * s_ in
  {| r := 4.0767416621 * lCubed - 3.3077115913 * mCubed + 0.2309699292 * sCubed;
     g := -1.2684380046 * lCubed + 2.6097574011 * mCubed - 0.3413193965 * sCubed;
     b := -0.0041960863 * lCubed - 0.7034186147 * mCubed + 1.7076147010 * sCubed |}.

(** A channel as [oklchToRgb] hands it to [Math.round]: gamma-encoded,
    clamped to [0 .. 1] and scaled by 255. *)
Definition scaledChannel (M : MathImpl) (v : float) : float :=
  Math_max 0 (Math_min 1 (linearToSrgb M v)) * 255.

(** The interval [inGamut] tests a channel against. *)
Definition withinTolerance (u : float) : bool := (-0.5 <=? u) && (u <=? 255.5).


End Statements.

(** ** theme-processor.js *)
Module ThemeProcessor.
Import JS ShadeGenerator.

(** *** The regular expressions of the module

    The three expressions of the module (leading dashes, a palette
    reference, a variable name) are sequences of single characters and greedy bounded runs of a
    character class, with capture groups around some of them.  [matchFrom]
    is the backtracking matcher at one position: a run tries its longest
    length first, and what follows the expression is the continuation [k]. *)

Inductive regex :=
| Chr (p : ascii -> bool)
| Rep (p : ascii -> bool) (lo : nat) (hi : option nat)
| Seq (a b : regex)
| Cap (a : regex).

Fixpoint matchFrom {A : Type} (a : regex) (s : string) (caps : captures)
    (k : string -> captures -> option A) : option A :=
  match a with
  | Chr p =>
      match s with
      | String c r => if p c then k r caps else None
      | EmptyString => None
      end
  | Rep p lo hi =>
      firstSome
        (fun alt =>
           let n := String.length (fst alt) in
           if (lo <=? n)%nat && match hi with Some h => (n <=? h)%nat | None => true end
           then k (snd alt) caps else None)
        (runs p s)
  | Seq a b => matchFrom a s caps (fun s' caps' => matchFrom b s' caps' k)
  | Cap a =>
      matchFrom a s caps
        (fun s' caps' =>
           k s' (caps' ++ [Some (take (String.length s - String.length s') s)])%list)
  end.

(** [s.match(/^a$/)] *)
Definition matchWhole (a : regex) (s : string) : option captures :=
  matchFrom a s [] (fun rest caps => if String.eqb rest EmptyString then Some caps else None).

(** [s.replace(/^a/, '')] *)
Definition removePrefix (a : regex) (s : string) : string :=
  match matchFrom a s [] (fun rest _ => Some rest) with
  | Some rest => rest
  | None => s
  end.

Definition isLower (c : ascii) : bool := (97 <=? code c) && (code c <=? 122).

Definition isUpper (c : ascii) : bool := (65 <=? code c) && (code c <=? 90).

Definition isLowerOrDigit (c : ascii) : bool := isLower c || isDigit c.

Definition isDash (c : ascii) : bool := code c =? 45.

(** [/^-{0,2}/] *)
Definition leadingDashes : regex := Rep isDash 0 (Some 2%nat).

(** [/^( [a-z][a-z0-9]* )-( \d+ )$/], written here with spaces inside the
    groups *)
Definition paletteRefPattern : regex :=
  Seq (Cap (Seq (Chr isLower) (Rep isLowerOrDigit 0 None)))
      (Seq (Chr isDash) (Cap (Rep isDigit 1 None))).

(** [/^[a-z][a-z0-9-]*$/i]: a letter, then letters, digits and dashes *)
Definition variableNamePattern : regex :=
  Seq (Chr (fun c => isLower c || isUpper c))
      (Rep (fun c => isLower c || isUpper c || isDigit c || isDash c) 0 None).

(** *** Constants *)

Definition NEUTRAL_PRESETS : list (string * string) :=
  [ ("stone", "#78716c"); ("zinc", "#71717a"); ("gray", "#6b7280");
    ("slate", "#64748b"); ("neutral", "#737373") ].

Definition DEFAULT_CODE_THEME : object :=
  [ ("background", VStr "#1e1e2e"); ("foreground", VStr "#cdd6f4");
    ("keyword", VStr "#cba6f7"); ("string", VStr "#a6e3a1"); ("number", VStr "#fab387");
    ("comment", VStr "#6c7086"); ("function", VStr "#89b4fa"); ("variable", VStr "#f5e0dc");
    ("operator", VStr "#89dceb"); ("punctuation", VStr "#9399b2"); ("type", VStr "#f9e2af");
    ("constant", VStr "#f38ba8"); ("property", VStr "#94e2d5"); ("tag", VStr "#89b4fa");
    ("attribute", VStr "#f9e2af"); ("lineNumber", VStr "#6c7086");
    ("selection", VStr "#45475a") ].

(** [NEUTRAL_PRESETS[value]] read as a condition: an own key, all bound to
    non-empty strings, or a name inherited from [Object.prototype]. *)
Definition presetIsTruthy (value : string) : bool :=
  existsb (String.eqb value) (keys NEUTRAL_PRESETS)
  || existsb (String.eqb value) objectPrototypeKeys.

(** [new Set([50, ..., 950])] of this module, and [SHADE_LEVELS.has(x)]. *)
Definition SHADE_LEVELS : list Z := [50; 100; 200; 300; 400; 500; 600; 700; 800; 900; 950]%Z.

Definition hasShadeLevel (x : float) : bool :=
  existsb (fun level => PrimFloat.eqb x (ofInt level)) SHADE_LEVELS.

(** *** Helpers of the language *)

(** [typeof v] *)
Definition typeOf (v : value) : string :=
  match v with
  | VUndefined => "undefined"
  | VNull => "object"
  | VBool _ => "boolean"
  | VNum _ => "number"
  | VStr _ => "string"
  | VObj _ => "object"
  end.

(** [s.includes(c)] for a one-character [c] *)
Fixpoint includesChar (s : string) (c : ascii) : bool :=
  match s with
  | EmptyString => false
  | String d r => Ascii.eqb c d || includesChar r c
  end.

(** The double quote, for the messages. *)
Definition quote : string := String "034"%char EmptyString.

(** [{ valid, errors }] *)
Record Validation := { valid : bool; errors : list string }.

(** [return { valid: errors.length === 0, errors }] *)
Definition report (errors : list string) : Validation :=
  {| valid := match errors with [] => true | _ => false end; errors := errors |}.

(** [!x || typeof x !== 'object']: the guard each validator starts with;
    what passes it is an object, whose entries are returned. *)
Definition entriesToValidate (x : value) : option object :=
  match x with
  | VObj props => Some props
  | _ => None
  end.

(** *** The functions *)

Definition normalizePaletteRef (value : JS.value) : JS.value :=
  match value with
  | VStr text =>
      if includesChar text "("%char then value
      else if startsWith text "#" then value
      else
        let bare := removePrefix leadingDashes text in
        match matchWhole paletteRefPattern bare with
        | Some m =>
            let shade := parseInt (group m 2) (Some 10%Z) in
            if hasShadeLevel shade then VStr ("var(--" ++ bare ++ ")") else value
        | None => value
        end
  | _ => value
  end.

Section Validators.

Variable M : MathImpl.

(** One iteration of the loop of [validateColors]. *)
Definition colorErrors (errors : list string) (entry : string * value) : list string :=
  let (name, value) := entry in
  match value with
  | VObj _ => errors
  | VStr text =>
      if String.eqb name "neutral" && presetIsTruthy text then errors
      else if negb (isValidColor M value)
      then (errors ++ [("Color " ++ quote ++ name ++ quote ++ " has invalid value: " ++ text)%string])%list
      else errors
  | _ =>
      (errors ++ [("Color " ++ quote ++ name ++ quote
                    ++ " must be a string or shade object, got " ++ typeOf value)%string])%list
  end.

Definition validateColors (colors : value) : Validation :=
  match entriesToValidate colors with
  | None => report []
  | Some props => report (fold_left colorErrors props [])
  end.

(** One iteration of the loop of [validateCodeTheme]. *)
Definition codeErrors (errors : list string) (entry : string * value) : list string :=
  let (name, value) := entry in
  match value with
  | VStr text =>
      if negb (isValidColor M value)
      then (errors ++ [("code." ++ name ++ " has invalid color value: " ++ text)%string])%list
      else errors
  | _ => (errors ++ [("code." ++ name ++ " must be a string, got " ++ typeOf value)%string])%list
  end.

Definition validateCodeTheme (code : value) : Validation :=
  match entriesToValidate code with
  | None => report []
  | Some props => report (fold_left codeErrors props [])
  end.

End Validators.

(** One iteration of the loop of [validateContexts]. *)
Definition contextErrors (errors : list string) (entry : string * value) : list string :=
  let (context, tokens) := entry in
  if negb (existsb (String.eqb context) ["light"; "medium"; "dark"])
  then (errors ++ [("Unknown context " ++ quote ++ context ++ quote
                     ++ ". Valid contexts: light, medium, dark")%string])%list
  else
    match tokens with
    | VObj _ => errors
    | _ => (errors ++ [("Context " ++ quote ++ context ++ quote ++ " must be an object")%string])%list
    end.

Definition validateContexts (contexts : value) : Validation :=
  match entriesToValidate contexts with
  | None => report []
  | Some props => report (fold_left contextErrors props [])
  end.

(** One iteration of the loop of [validateFoundationVars]: up to two
    messages for a name. *)
Definition foundationVarErrors (errors : list string) (entry : string * value) : list string :=
  let (name, config) := entry in
  let errors :=
    match matchWhole variableNamePattern name with
    | Some _ => errors
    | None =>
        (errors ++ [("Invalid variable name " ++ quote ++ name ++ quote
                      ++ ". Use lowercase letters, numbers, and hyphens.")%string])%list
    end in
  match config with
  | VObj _ | VNull | VStr _ | VNum _ => errors
  | _ =>
      (errors ++ [("Variable " ++ quote ++ name ++ quote
                    ++ " must have a string, number, or config object value")%string])%list
  end.

Definition validateFoundationVars (vars : value) : Validation :=
  match entriesToValidate vars with
  | None => report []
  | Some props => report (fold_left foundationVarErrors props [])
  end.

(** [x.k] and [x?.k] for the names the module reads ([default], [vars],
    [themeVars], [_self]): none of them is a member of a primitive or of
    [Object.prototype], and [?.] gives [undefined] on [null] and
    [undefined]. *)
Definition member (x : value) (k : string) : value :=
  match x with
  | VObj props => getProp props k
  | _ => VUndefined
  end.

(** [a || b] *)
Definition orElse (a b : value) : value := if truthy a then a else b.

(** [a != null] *)
Definition notNullish (a : value) : bool :=
  match a with VUndefined | VNull => false | _ => true end.

Definition extractFoundationVars (varsModule : value) : value :=
  if negb (truthy varsModule) then VObj []
  else
    let module := orElse (member varsModule "default") varsModule in
    orElse (member module "vars") module.

Definition foundationHasVars (foundationSchema : value) : bool :=
  notNullish (member (member foundationSchema "_self") "vars")
  || notNullish (member (member foundationSchema "_self") "themeVars")
  || notNullish (member foundationSchema "themeVars").

Definition getFoundationVars (foundationSchema : value) : value :=
  orElse (member (member foundationSchema "_self") "vars")
    (orElse (member (member foundationSchema "_self") "themeVars")
       (orElse (member foundationSchema "themeVars") (VObj []))).

End ThemeProcessor.

(** ** css-generator.js: the default colours *)
Module CssGenerator.
Import JS.

Definition DEFAULT_COLORS : object :=
  [ ("primary", VStr "#3b82f6"); ("secondary", VStr "#64748b");
    ("accent", VStr "#8b5cf6"); ("neutral", VStr "#78716c") ].

(** [{ ...DEFAULT_COLORS }] *)
Definition getDefaultColors : object := spread [] DEFAULT_COLORS.

End CssGenerator.

(** ** Predicates of the further properties *)
Module FurtherStatements.
Import JS ShadeGenerator.

Local Open Scope float_scope.

(** The three channels are numbers. *)
Definition numericRgb (rgb : Rgb) : bool :=
  negb (isNaN (r rgb)) && negb (isNaN (g rgb)) && negb (isNaN (b rgb)).

(** The midpoints [findMaxChroma] probes when every one of them is
    accepted: the lower bound follows the midpoint, the upper bound stays
    at the desired chroma. *)
Definition probe (idealC : float) (k : nat) : float :=
  Nat.iter k (fun minC => (minC + idealC) / 2) 0.

(** The lightness text a fixed ramp prints at a level when exact matching
    is off. *)
Definition tableLightnessText (level : Z) : string :=
  toFixed (at_level LIGHTNESS_MAP level * 100) 1.

Local Close Scope float_scope.

Import ThemeProcessor.

(** What [validateColors] lets through: a shade object, the name of a
    neutral preset under the key [neutral], or a colour [isValidColor]
    accepts. *)
Definition colorAccepted (M : MathImpl) (entry : string * value) : bool :=
  match snd entry with
  | VObj _ => true
  | VStr text =>
      (String.eqb (fst entry) "neutral" && presetIsTruthy text) || isValidColor M (VStr text)
  | _ => false
  end.

(** What [validateCodeTheme] lets through. *)
Definition codeAccepted (M : MathImpl) (entry : string * value) : bool :=
  match snd entry with
  | VStr text => isValidColor M (VStr text)
  | _ => false
  end.

(** A name as [validateFoundationVars] wants it: an ASCII letter followed
    by ASCII letters, digits and dashes. *)
Definition variableName (name : string) : bool :=
  match name with
  | String c r =>
      (isLower c || isUpper c)
      && forallb_str (fun c => isLower c || isUpper c || isDigit c || isDash c) r
  | EmptyString => false
  end.

(** A palette name as a reference spells it: a lowercase letter followed by
    lowercase letters and digits. *)
Definition paletteName (name : string) : bool :=
  match name with
  | String c r => isLower c && forallb_str isLowerOrDigit r
  | EmptyString => false
  end.

(** A value [validateFoundationVars] takes for a variable: an object (or
    [null]), a string or a number. *)
Definition variableConfig (config : value) : bool :=
  match config with
  | VObj _ | VNull | VStr _ | VNum _ => true
  | _ => false
  end.

(** What [validateContexts] lets through. *)
Definition contextAccepted (entry : string * value) : bool :=
  existsb (String.eqb (fst entry)) ["light"; "medium"; "dark"] && isObject (snd entry).

End FurtherStatements.

(** ** Rounding of binary64 operations *)
Module Rounding.
Import IEEE.

Local Open Scope R_scope.

Lemma pow2_pos e : 0 < pow2 e.
Proof. unfold pow2. apply powerRZ_lt. lra. Qed.

Lemma pow2_add a b : pow2 (a + b) = pow2 a * pow2 b.
Proof. unfold pow2. apply powerRZ_add. lra. Qed.

Lemma pow2_IZR k : (0 <= k)%Z -> pow2 k = IZR (2 ^ k).
Proof.
  intros Hk. unfold pow2. rewrite <- (Z2Nat.id k Hk).
  rewrite <- pow_powerRZ, <- Zpower_nat_Z.
  induction (Z.to_nat k) as [|n IH].
  - reflexivity.
  - rewrite Zpower_nat_succ_r, mult_IZR, <- IH. reflexivity.
Qed.

Lemma pow2_ge_1 k : (0 <= k)%Z -> 1 <= pow2 k.
Proof.
  intros Hk. rewrite pow2_IZR by assumption. apply IZR_le.
  assert (0 < 2 ^ k)%Z by (apply Z.pow_pos_nonneg; lia). lia.
Qed.

Lemma pow2_le a b : (a <= b)%Z -> pow2 a <= pow2 b.
Proof.
  intros H. replace b with (a + (b - a))%Z by ring. rewrite pow2_add.
  pose proof (pow2_pos a). pose proof (pow2_ge_1 (b - a) ltac:(lia)). nra.
Qed.

Lemma F2R_shift m e k : (0 <= k)%Z -> F2R (m * 2 ^ k) e = F2R m (e + k).
Proof.
  intros Hk. unfold F2R. rewrite mult_IZR, <- pow2_IZR by assumption.
  rewrite (Z.add_comm e k), pow2_add. ring.
Qed.

Lemma F2R_le m m' e : (m <= m')%Z -> F2R m e <= F2R m' e.
Proof.
  intros H. unfold F2R. apply IZR_le in H. pose proof (pow2_pos e). nra.
Qed.

Lemma F2R_lt m m' e : (m < m')%Z -> F2R m e < F2R m' e.
Proof.
  intros H. unfold F2R. apply IZR_lt in H. pose proof (pow2_pos e). nra.
Qed.

Lemma F2R_le_inv m m' e : F2R m e <= F2R m' e -> (m <= m')%Z.
Proof.
  intros H. apply le_IZR. unfold F2R in H. pose proof (pow2_pos e). nra.
Qed.

Lemma F2R_lt_inv m m' e : F2R m e < F2R m' e -> (m < m')%Z.
Proof.
  intros H. apply lt_IZR. unfold F2R in H. pose proof (pow2_pos e). nra.
Qed.

Lemma F2R_0 e : F2R 0 e = 0.
Proof. unfold F2R. ring. Qed.

(** Number of binary digits. *)
Lemma digits2_pos_bounds m :
  (2 ^ (Zpos (digits2_pos m) - 1) <= Zpos m < 2 ^ Zpos (digits2_pos m))%Z.
Proof.
  induction m as [m IH|m IH|]; cbn [digits2_pos].
  - rewrite Pos2Z.inj_succ.
    replace (Z.succ (Zpos (digits2_pos m)) - 1)%Z with (Zpos (digits2_pos m) - 1 + 1)%Z by lia.
    rewrite Z.pow_succ_r by lia. rewrite Z.pow_add_r by lia. lia.
  - rewrite Pos2Z.inj_succ.
    replace (Z.succ (Zpos (digits2_pos m)) - 1)%Z with (Zpos (digits2_pos m) - 1 + 1)%Z by lia.
    rewrite Z.pow_succ_r by lia. rewrite Z.pow_add_r by lia. lia.
  - cbn. lia.
Qed.

Lemma Zdigits2_bounds m :
  (0 < m)%Z -> (2 ^ (Zdigits2 m - 1) <= m < 2 ^ Zdigits2 m)%Z.
Proof. destruct m as [|p|p]; try lia. intros _. apply digits2_pos_bounds. Qed.

Lemma Zdigits2_nonneg m : (0 <= Zdigits2 m)%Z.
Proof. destruct m; cbn; lia. Qed.

(** Digits are determined by the two bounds. *)
Lemma Zdigits2_unique m d :
  (0 < m)%Z -> (2 ^ (d - 1) <= m < 2 ^ d)%Z -> (0 < d)%Z -> Zdigits2 m = d.
Proof.
  intros Hm [Hlo Hhi] Hd. destruct (Zdigits2_bounds m Hm) as [Hlo' Hhi'].
  pose proof (Zdigits2_nonneg m).
  assert (Hd' : (0 < Zdigits2 m)%Z).
  { destruct m; cbn in *; lia. }
  destruct (Z.lt_trichotomy (Zdigits2 m) d) as [Hlt|[Heq|Hgt]]; [|exact Heq|].
  - assert (2 ^ Zdigits2 m <= 2 ^ (d - 1))%Z by (apply Z.pow_le_mono_r; lia). lia.
  - assert (2 ^ d <= 2 ^ (Zdigits2 m - 1))%Z by (apply Z.pow_le_mono_r; lia). lia.
Qed.

(** *** Shifting a mantissa right *)

Lemma shr_1_spec mrs :
  (0 <= shr_m mrs)%Z ->
  shr_m (shr_1 mrs) = (shr_m mrs / 2)%Z
  /\ inexact (shr_1 mrs) = Z.odd (shr_m mrs) || inexact mrs.
Proof.
  destruct mrs as [m r s]. unfold inexact. cbn [shr_m shr_r shr_s shr_1]. intros Hm.
  destruct m as [|[p|p|]|p]; cbn [shr_m shr_r shr_s Z.odd]; try lia.
  - split; reflexivity.
  - split; [|reflexivity]. rewrite Pos2Z.inj_xI. apply Z.div_unique with 1%Z; lia.
  - split; [|reflexivity]. rewrite Pos2Z.inj_xO. apply Z.div_unique with 0%Z; lia.
  - split; reflexivity.
Qed.

Lemma iter_pos_nat {A} (f : A -> A) p :
  forall x, SpecFloat.iter_pos f p x = Nat.iter (Pos.to_nat p) f x.
Proof.
  induction p as [p IH|p IH|]; intros x; cbn [SpecFloat.iter_pos].
  - rewrite !IH, Pos2Nat.inj_xI.
    replace (S (2 * Pos.to_nat p)) with (Pos.to_nat p + (Pos.to_nat p + 1))%nat by lia.
    rewrite !Nat.iter_add. reflexivity.
  - rewrite !IH, Pos2Nat.inj_xO.
    replace (2 * Pos.to_nat p)%nat with (Pos.to_nat p + Pos.to_nat p)%nat by lia.
    rewrite Nat.iter_add. reflexivity.
  - reflexivity.
Qed.

Lemma mod_pow2_succ m n :
  (0 <= m)%Z -> (0 <= n)%Z ->
  ((m mod 2 ^ (n + 1) =? 0) = (m mod 2 ^ n =? 0) && negb (Z.odd (m / 2 ^ n)))%Z.
Proof.
  intros Hm Hn. assert (Hp : (0 < 2 ^ n)%Z) by (apply Z.pow_pos_nonneg; lia).
  rewrite Z.pow_add_r, Z.pow_1_r by lia.
  rewrite Z.rem_mul_r by lia.
  pose proof (Z.mod_pos_bound m (2 ^ n) Hp) as Hb.
  rewrite (Zmod_odd (m / 2 ^ n)).
  destruct (Z.odd (m / 2 ^ n)); cbn [negb].
  - rewrite andb_false_r. apply Z.eqb_neq. lia.
  - rewrite andb_true_r. f_equal. lia.
Qed.

Lemma iter_shr_1_spec n : forall mrs,
  (0 <= shr_m mrs)%Z ->
  let res := Nat.iter n shr_1 mrs in
  shr_m res = (shr_m mrs / 2 ^ Z.of_nat n)%Z
  /\ inexact res = negb (shr_m mrs mod 2 ^ Z.of_nat n =? 0)%Z || inexact mrs.
Proof.
  induction n as [|n IH]; intros mrs Hm; cbv zeta.
  - cbn [Nat.iter nat_rect Z.of_nat]. rewrite Z.pow_0_r, Z.div_1_r, Z.mod_1_r. auto.
  - destruct (IH mrs Hm) as [H1 H2].
    change (Nat.iter (S n) shr_1 mrs) with (shr_1 (Nat.iter n shr_1 mrs)).
    assert (Hp : (0 < 2 ^ Z.of_nat n)%Z) by (apply Z.pow_pos_nonneg; lia).
    assert (Hq : (0 <= shr_m (Nat.iter n shr_1 mrs))%Z)
      by (rewrite H1; apply Z.div_pos; lia).
    destruct (shr_1_spec _ Hq) as [H3 H4]. rewrite H3, H4, H1, H2.
    rewrite Nat2Z.inj_succ, <- Z.add_1_r.
    split.
    + rewrite Z.pow_add_r, Z.pow_1_r by lia. rewrite Z.div_div by lia. reflexivity.
    + rewrite (mod_pow2_succ (shr_m mrs) (Z.of_nat n)) by lia.
      destruct (shr_m mrs mod 2 ^ Z.of_nat n =? 0)%Z, (Z.odd (shr_m mrs / 2 ^ Z.of_nat n)),
        (inexact mrs); reflexivity.
Qed.

Lemma loc_exact_iff mrs : loc_of_shr_record mrs = loc_Exact <-> inexact mrs = false.
Proof. destruct mrs as [m [|] [|]]; cbn; intuition discriminate. Qed.

Lemma record_of_loc_spec m l :
  shr_m (shr_record_of_loc m l) = m
  /\ (inexact (shr_record_of_loc m l) = false <-> l = loc_Exact).
Proof. destruct l as [|[| |]]; cbn; intuition discriminate. Qed.

(** [shr_fexp] divides by [2^n] for [n] the distance (if positive) to the
    exponent the format prescribes, and reports whether anything was
    lost. *)
Lemma shr_fexp_spec m e l :
  (0 <= m)%Z ->
  let n := Z.max 0 (fexp prec emax (Zdigits2 m + e) - e) in
  shr_m (fst (shr_fexp prec emax m e l)) = (m / 2 ^ n)%Z
  /\ snd (shr_fexp prec emax m e l) = (e + n)%Z
  /\ (loc_of_shr_record (fst (shr_fexp prec emax m e l)) = loc_Exact
      <-> l = loc_Exact /\ (m mod 2 ^ n = 0)%Z).
Proof.
  intros Hm n. unfold shr_fexp, shr. subst n.
  destruct (record_of_loc_spec m l) as [Hrm Hrl].
  destruct (fexp prec emax (Zdigits2 m + e) - e)%Z as [|p|p] eqn:Hn; cbn [fst snd].
  - rewrite Z.max_id. rewrite Z.pow_0_r, Z.div_1_r, Z.mod_1_r, Z.add_0_r, Hrm.
    rewrite loc_exact_iff, Hrl. intuition.
  - rewrite Z.max_r by lia. rewrite iter_pos_nat.
    assert (H0 : (0 <= shr_m (shr_record_of_loc m l))%Z) by (rewrite Hrm; exact Hm).
    destruct (iter_shr_1_spec (Pos.to_nat p) _ H0) as [H1 H2].
    rewrite positive_nat_Z, Hrm in H1, H2. rewrite H1.
    split; [reflexivity|]. split; [reflexivity|].
    rewrite loc_exact_iff, H2, orb_false_iff, negb_false_iff, Z.eqb_eq, Hrl. tauto.
  - rewrite Z.max_l by lia. rewrite Z.pow_0_r, Z.div_1_r, Z.mod_1_r, Z.add_0_r, Hrm.
    rewrite loc_exact_iff, Hrl. intuition.
Qed.

(** *** The grid of representable numbers *)

Lemma fexp_eq e : fexp prec emax e = Z.max (e - 53) (-1074).
Proof. reflexivity. Qed.

Lemma F2R_1 e : F2R 1 e = pow2 e.
Proof. unfold F2R. ring. Qed.

Lemma F2R_pow2 k e : (0 <= k)%Z -> F2R (2 ^ k) e = pow2 (e + k).
Proof. intros Hk. rewrite <- (Z.mul_1_l (2 ^ k)), F2R_shift, F2R_1 by assumption. reflexivity. Qed.

(** No representable number lies strictly inside a cell of the grid at
    exponent [e], once that grid is at least as fine as the format's. *)
Lemma grid q e g :
  (0 <= q)%Z -> (e <= -1074 \/ 2 ^ 52 <= q)%Z -> representable g ->
  g <= F2R q e \/ F2R (q + 1) e <= g.
Proof.
  intros Hq Hfine (mg & eg & Hmg & Heg & ->).
  destruct (Z_le_gt_dec e eg) as [Hle|Hgt].
  - replace eg with (e + (eg - e))%Z by ring.
    rewrite <- F2R_shift by lia.
    assert (Hp : (0 < 2 ^ (eg - e))%Z) by (apply Z.pow_pos_nonneg; lia).
    destruct (Z_le_gt_dec (mg * 2 ^ (eg - e)) q) as [H|H].
    + left. now apply F2R_le.
    + right. apply F2R_le. lia.
  - left. destruct Hfine as [He|Hq52]; [lia|].
    apply Rle_trans with (F2R (2 ^ 53) eg); [apply F2R_le; lia|].
    apply Rle_trans with (F2R (2 ^ 52) e); [|now apply F2R_le].
    rewrite !F2R_pow2 by lia. apply pow2_le. lia.
Qed.

Lemma round_nearest_even_cases q l :
  (round_nearest_even q l = q \/ round_nearest_even q l = (q + 1)%Z)
  /\ (l = loc_Exact -> round_nearest_even q l = q).
Proof.
  destruct l as [|[| |]]; cbn.
  - split; auto.
  - destruct (Z.even q); split; auto; discriminate.
  - split; auto; discriminate.
  - split; auto; discriminate.
Qed.

Lemma sandwich_cell q e q' v :
  (0 <= q)%Z -> (e <= -1074 \/ 2 ^ 52 <= q)%Z ->
  F2R q e <= v < F2R (q + 1) e ->
  (q' = q \/ (q' = (q + 1)%Z /\ F2R q e < v)) ->
  sandwich v (F2R q' e).
Proof.
  intros Hq Hfine [Hlo Hhi] Hq' g Hg.
  destruct (grid q e g Hq Hfine Hg) as [Hg1|Hg1]; destruct Hq' as [->|[-> Hstrict]]; split; lra.
Qed.

Lemma Zdigits2_le m k : (0 <= m < 2 ^ k)%Z -> (0 <= k)%Z -> (Zdigits2 m <= k)%Z.
Proof.
  intros [Hlo Hhi] Hk. destruct (Z.eq_dec m 0) as [->|Hne]; [cbn; lia|].
  destruct (Zdigits2_bounds m ltac:(lia)) as [H1 _].
  destruct (Z_le_gt_dec (Zdigits2 m) k) as [H|H]; [exact H|].
  assert (2 ^ k <= 2 ^ (Zdigits2 m - 1))%Z by (apply Z.pow_le_mono_r; lia). lia.
Qed.

Lemma F2R_exp_le m e e' : (0 <= m)%Z -> (e <= e')%Z -> F2R m e <= F2R m e'.
Proof.
  intros Hm He. unfold F2R. apply IZR_le in Hm. pose proof (pow2_le e e' He).
  pose proof (pow2_pos e). nra.
Qed.

(** *** The rounding step shared by the operations *)

Lemma binary_round_aux_spec mx ex lx v :
  (0 <= mx)%Z ->
  F2R mx ex <= v < F2R (mx + 1) ex ->
  (lx = loc_Exact <-> v = F2R mx ex) ->
  (ex <= fexp prec emax (Zdigits2 mx + ex))%Z ->
  rounds_to v (binary_round_aux prec emax false mx ex lx).
Proof.
  intros Hm [Hvlo Hvhi] Hl HP. unfold binary_round_aux.
  pose proof (shr_fexp_spec mx ex lx Hm) as S1. cbv zeta in S1.
  destruct (shr_fexp prec emax mx ex lx) as [mrs1 e1]. cbn [fst snd] in S1.
  destruct S1 as (Hq & He1 & Hex1).
  rewrite Z.max_r in Hq, He1, Hex1 by lia.
  set (d := Zdigits2 mx) in *. set (n := (fexp prec emax (d + ex) - ex)%Z) in *.
  set (q := shr_m mrs1) in *.
  assert (Hn : (0 <= n)%Z) by (subst n; lia).
  assert (Hpn : (0 < 2 ^ n)%Z) by (apply Z.pow_pos_nonneg; lia).
  assert (Hq0 : (0 <= q)%Z) by (rewrite Hq; apply Z.div_pos; lia).
  assert (Hdiv : (q * 2 ^ n <= mx < (q + 1) * 2 ^ n)%Z).
  { rewrite Hq. pose proof (Z.div_mod mx (2 ^ n) ltac:(lia)).
    pose proof (Z.mod_pos_bound mx (2 ^ n) Hpn). nia. }
  assert (Hfe : fexp prec emax (d + ex) = Z.max (d + ex - 53) (-1074)) by apply fexp_eq.
  assert (He1' : (-1074 <= e1)%Z) by lia.
  (* the cell of v on the grid of exponent e1 *)
  assert (Hcell : F2R q e1 <= v < F2R (q + 1) e1).
  { rewrite He1, <- !F2R_shift by lia. split.
    - apply Rle_trans with (F2R mx ex); [apply F2R_le; lia | exact Hvlo].
    - apply Rlt_le_trans with (F2R (mx + 1) ex); [exact Hvhi | apply F2R_le; lia]. }
  assert (Hexact : loc_of_shr_record mrs1 = loc_Exact <-> v = F2R q e1).
  { rewrite Hex1, He1, <- F2R_shift by lia. split.
    - intros [H1 H2]. apply Hl in H1. rewrite H1. f_equal.
      pose proof (Z.div_mod mx (2 ^ n) ltac:(lia)). rewrite <- Hq in *. lia.
    - intros Hv. assert (Heq : F2R mx ex = F2R (q * 2 ^ n) ex).
      { apply Rle_antisym; [lra | apply F2R_le; lia]. }
      split; [apply Hl; lra|].
      assert (Hmx : (mx = q * 2 ^ n)%Z).
      { apply Z.le_antisymm; [apply F2R_le_inv with ex; lra | lia]. }
      rewrite Hmx. apply Z_mod_mult. }
  assert (Hfine : (e1 <= -1074 \/ 2 ^ 52 <= q)%Z).
  { destruct (Z.eq_dec e1 (-1074)) as [Heq|Hne]; [left; lia|]. right.
    assert (Hd : (n = d - 53)%Z) by lia.
    assert (Hmx : (0 < mx)%Z).
    { destruct (Z.eq_dec mx 0) as [H0|H0]; [|lia]. subst d. rewrite H0 in *. cbn in *. lia. }
    destruct (Zdigits2_bounds mx Hmx) as [Hlo _]. fold d in Hlo.
    rewrite Hq. apply Z.div_le_lower_bound; [lia|].
    rewrite Z.mul_comm, <- Z.pow_add_r by lia.
    replace (52 + n)%Z with (d - 1)%Z by lia. exact Hlo. }
  assert (Hq53 : (q < 2 ^ 53)%Z).
  { rewrite Hq. apply Z.div_lt_upper_bound; [lia|].
    rewrite <- Z.pow_add_r by lia.
    destruct (Z.eq_dec mx 0) as [->|H0].
    - apply Z.pow_pos_nonneg; lia.
    - destruct (Zdigits2_bounds mx ltac:(lia)) as [_ Hhi]. fold d in Hhi.
      apply Z.lt_le_trans with (2 ^ d)%Z; [exact Hhi|]. apply Z.pow_le_mono_r; lia. }
  (* rounding the mantissa *)
  destruct (round_nearest_even_cases q (loc_of_shr_record mrs1)) as [Hq' Hq'x].
  set (q' := round_nearest_even q (loc_of_shr_record mrs1)) in *.
  assert (Hq'c : q' = q \/ (q' = (q + 1)%Z /\ F2R q e1 < v)).
  { destruct Hq' as [H|H]; [now left|]. right. split; [exact H|].
    destruct (Req_dec v (F2R q e1)) as [Hv|Hv]; [|lra].
    apply Hexact in Hv. apply Hq'x in Hv. lia. }
  assert (Hsand : sandwich v (F2R q' e1)) by (now apply sandwich_cell with q).
  assert (Hq'0 : (0 <= q' <= 2 ^ 53)%Z) by lia.
  (* renormalising after a carry *)
  pose proof (shr_fexp_spec q' e1 loc_Exact ltac:(lia)) as S2. cbv zeta in S2.
  destruct (shr_fexp prec emax q' e1 loc_Exact) as [mrs2 e2]. cbn [fst snd] in S2.
  destruct S2 as (Hq2 & He2 & _). rewrite fexp_eq in Hq2, He2.
  assert (Hbound : v < pow2 (e1 + 53)).
  { apply Rlt_le_trans with (F2R (q + 1) e1); [tauto|].
    rewrite <- F2R_pow2 by lia. apply F2R_le. lia. }
  destruct (Z.eq_dec q' (2 ^ 53)) as [Hcarry|Hnocarry].
  - (* the mantissa became 2^53 *)
    rewrite Hcarry in Hq2, He2. change (Zdigits2 (2 ^ 53)) with 54%Z in Hq2, He2.
    rewrite Z.max_r in Hq2, He2 by lia.
    replace (Z.max (54 + e1 - 53) (-1074) - e1)%Z with 1%Z in Hq2, He2 by lia.
    change (2 ^ 53 / 2 ^ 1)%Z with (2 ^ 52)%Z in Hq2. rewrite Hq2.
    change (2 ^ 52)%Z with (Zpos (2 ^ 52)).
    assert (Hval : F2R q' e1 = F2R (Zpos (2 ^ 52)) e2).
    { rewrite Hcarry, He2. change (Zpos (2 ^ 52)) with (2 ^ 52)%Z.
      rewrite !F2R_pow2 by lia. f_equal. lia. }
    destruct (Z.leb_spec e2 (emax - prec)) as [Hle|Hgt]; change (emax - prec)%Z with 971%Z in *.
    + cbn [rounds_to]. repeat split; try lia.
      * apply Rlt_le_trans with (pow2 (e1 + 53)); [exact Hbound | apply pow2_le; lia].
      * rewrite <- Hval; apply Hsand; assumption.
      * rewrite <- Hval; apply Hsand; assumption.
    + cbn [rounds_to]. split; [reflexivity|].
      destruct Hq'c as [H|[H1 H2]]; [lia|].
      apply Rle_lt_trans with (F2R q e1); [|exact H2]. unfold MAX.
      replace q with (2 ^ 53 - 1)%Z by lia. apply F2R_exp_le; lia.
  - (* no carry *)
    assert (Hd' : (Zdigits2 q' <= 53)%Z) by (apply Zdigits2_le; lia).
    rewrite Z.max_l in Hq2, He2 by lia.
    rewrite Z.pow_0_r, Z.div_1_r in Hq2. rewrite Z.add_0_r in He2. rewrite Hq2. subst e2.
    destruct q' as [|p|p] eqn:Hp; [| |lia].
    + cbn [rounds_to]. split; [reflexivity|]. split.
      * apply Rlt_le_trans with (pow2 (e1 + 53)); [exact Hbound|].
        apply pow2_le. destruct Hfine; lia.
      * now rewrite F2R_0 in Hsand.
    + destruct (Z.leb_spec e1 (emax - prec)) as [Hle|Hgt]; change (emax - prec)%Z with 971%Z in *.
      * cbn [rounds_to]. repeat split; try lia.
        -- apply Rlt_le_trans with (pow2 (e1 + 53)); [exact Hbound | apply pow2_le; lia].
        -- apply Hsand; assumption.
        -- apply Hsand; assumption.
      * cbn [rounds_to]. split; [reflexivity|].
        destruct Hfine as [H|H]; [lia|].
        apply Rlt_le_trans with (F2R (2 ^ 52) 972).
        -- unfold MAX. rewrite F2R_pow2 by lia.
           replace (972 + 52)%Z with (971 + 53)%Z by lia. rewrite <- F2R_pow2 by lia.
           apply F2R_lt. lia.
        -- apply Rle_trans with (F2R q e1); [|tauto].
           apply Rle_trans with (F2R (2 ^ 52) e1); [apply F2R_exp_le; lia | now apply F2R_le].
Qed.

(** *** Aligning mantissas *)

Lemma iter_xO m d : Zpos (Pos.iter xO m d) = (Zpos m * 2 ^ Zpos d)%Z.
Proof.
  induction d as [|d IH] using Pos.peano_ind.
  - cbn [Pos.iter]. rewrite Pos2Z.inj_xO. change (2 ^ 1)%Z with 2%Z. lia.
  - rewrite Pos.iter_succ, Pos2Z.inj_xO, IH, Pos2Z.inj_succ, Z.pow_succ_r by lia. ring.
Qed.

Lemma shl_align_spec mx ex e' :
  let k := Z.max 0 (ex - e') in
  Zpos (fst (shl_align mx ex e')) = (Zpos mx * 2 ^ k)%Z
  /\ snd (shl_align mx ex e') = (ex - k)%Z.
Proof.
  unfold shl_align. destruct (e' - ex)%Z as [|p|p] eqn:Hd; cbn [fst snd].
  - rewrite Z.max_l by lia. rewrite Z.pow_0_r. lia.
  - rewrite Z.max_l by lia. rewrite Z.pow_0_r. lia.
  - rewrite Z.max_r by lia. rewrite iter_xO.
    replace (ex - e')%Z with (Zpos p) by lia. lia.
Qed.

Lemma Zdigits2_shift m k : (0 < m)%Z -> (0 <= k)%Z -> Zdigits2 (m * 2 ^ k) = (Zdigits2 m + k)%Z.
Proof.
  intros Hm Hk. destruct (Zdigits2_bounds m Hm) as [Hlo Hhi].
  assert (Hd : (0 < Zdigits2 m)%Z) by (destruct m; cbn in *; lia).
  assert (Hp : (0 < 2 ^ k)%Z) by (apply Z.pow_pos_nonneg; lia).
  apply Zdigits2_unique; [nia| |lia].
  replace (Zdigits2 m + k - 1)%Z with (Zdigits2 m - 1 + k)%Z by lia.
  rewrite !Z.pow_add_r by lia. nia.
Qed.

Lemma Zdigits2_ge m k : (2 ^ k <= m)%Z -> (0 <= k)%Z -> (k < Zdigits2 m)%Z.
Proof.
  intros Hm Hk. assert (Hp : (0 < 2 ^ k)%Z) by (apply Z.pow_pos_nonneg; lia).
  destruct (Zdigits2_bounds m ltac:(lia)) as [_ Hhi].
  apply (Z.pow_lt_mono_r_iff 2); [lia | apply Zdigits2_nonneg | lia].
Qed.

Lemma Zdigits2_mul a b :
  (0 < a)%Z -> (0 < b)%Z -> (Zdigits2 a + Zdigits2 b - 1 <= Zdigits2 (a * b))%Z.
Proof.
  intros Ha Hb. destruct (Zdigits2_bounds a Ha) as [Ha1 _].
  destruct (Zdigits2_bounds b Hb) as [Hb1 _].
  assert (Hda : (0 < Zdigits2 a)%Z) by (destruct a; cbn in *; lia).
  assert (Hdb : (0 < Zdigits2 b)%Z) by (destruct b; cbn in *; lia).
  assert (H : (2 ^ (Zdigits2 a - 1 + (Zdigits2 b - 1)) <= a * b)%Z).
  { rewrite Z.pow_add_r by lia.
    assert (0 < 2 ^ (Zdigits2 a - 1))%Z by (apply Z.pow_pos_nonneg; lia).
    assert (0 < 2 ^ (Zdigits2 b - 1))%Z by (apply Z.pow_pos_nonneg; lia). nia. }
  apply Zdigits2_ge in H; lia.
Qed.

(** *** Multiplication, addition and division of positive numbers *)

Lemma bounded_facts m e :
  SpecFloat.bounded prec emax m e = true ->
  (Zpos m < 2 ^ 53)%Z /\ (-1074 <= e <= 971)%Z
  /\ (e = (-1074)%Z \/ Zdigits2 (Zpos m) = 53%Z).
Proof.
  unfold SpecFloat.bounded, canonical_mantissa. intros H. apply andb_prop in H. destruct H as [Hc He].
  apply Z.eqb_eq in Hc. apply Z.leb_le in He. change (emax - prec)%Z with 971%Z in He.
  rewrite fexp_eq in Hc. change (Zpos (digits2_pos m)) with (Zdigits2 (Zpos m)) in Hc.
  destruct (Zdigits2_bounds (Zpos m) ltac:(lia)) as [_ Hhi].
  assert (Hd : (Zdigits2 (Zpos m) <= 53)%Z) by lia.
  assert (2 ^ Zdigits2 (Zpos m) <= 2 ^ 53)%Z
    by (apply Z.pow_le_mono_r; [lia | exact Hd]).
  repeat split; lia.
Qed.

Lemma representable_bounded m e :
  SpecFloat.bounded prec emax m e = true -> representable (F2R (Zpos m) e).
Proof.
  intros H. destruct (bounded_facts m e H) as (H1 & H2 & _).
  exists (Zpos m), e. repeat split; lia.
Qed.

Lemma F2R_mul a ea b eb : F2R a ea * F2R b eb = F2R (a * b) (ea + eb).
Proof. unfold F2R. rewrite mult_IZR, pow2_add. ring. Qed.

Lemma exact_cell m e : F2R m e <= F2R m e < F2R (m + 1) e.
Proof. split; [lra | apply F2R_lt; lia]. Qed.

Lemma SFmul_spec mx ex my ey :
  SpecFloat.bounded prec emax mx ex = true -> SpecFloat.bounded prec emax my ey = true ->
  rounds_to (F2R (Zpos mx) ex * F2R (Zpos my) ey)
    (SFmul prec emax (S754_finite false mx ex) (S754_finite false my ey)).
Proof.
  intros Hx Hy. cbn [SFmul xorb]. rewrite F2R_mul, Pos2Z.inj_mul.
  apply binary_round_aux_spec; [lia | apply exact_cell | tauto |].
  destruct (bounded_facts _ _ Hx) as (_ & Hex & Hdx).
  destruct (bounded_facts _ _ Hy) as (_ & Hey & Hdy).
  pose proof (Zdigits2_mul (Zpos mx) (Zpos my) ltac:(lia) ltac:(lia)) as Hd.
  assert (0 < Zdigits2 (Zpos mx))%Z by (cbn; lia).
  assert (0 < Zdigits2 (Zpos my))%Z by (cbn; lia).
  rewrite fexp_eq. lia.
Qed.


Lemma binary_round_spec m e :
  rounds_to (F2R (Zpos m) e) (binary_round prec emax false m e).
Proof.
  unfold binary_round.
  destruct (shl_align_spec m e (fexp prec emax (Zpos (digits2_pos m) + e))) as [Hm He].
  cbv zeta in Hm, He.
  destruct (shl_align m e (fexp prec emax (Zpos (digits2_pos m) + e))) as [mz ez].
  cbn [fst snd] in Hm, He.
  set (k := Z.max 0 (e - fexp prec emax (Zpos (digits2_pos m) + e))) in *.
  assert (Hk : (0 <= k)%Z) by (subst k; lia).
  assert (Hval : F2R (Zpos m) e = F2R (Zpos mz) ez).
  { rewrite Hm, He, F2R_shift by lia. f_equal. lia. }
  rewrite Hval.
  apply binary_round_aux_spec; [lia | apply exact_cell | tauto |].
  rewrite Hm, Zdigits2_shift by lia.
  change (Zpos (digits2_pos m)) with (Zdigits2 (Zpos m)) in *.
  replace (Zdigits2 (Zpos m) + k + ez)%Z with (Zdigits2 (Zpos m) + e)%Z by lia.
  lia.
Qed.




(** *** Order *)

Lemma F2R_pos m e : (0 < m)%Z -> 0 < F2R m e.
Proof. intros H. rewrite <- (F2R_0 e). now apply F2R_lt. Qed.

Lemma F2R_lt_exp m1 e1 m2 e2 :
  SpecFloat.bounded prec emax m1 e1 = true -> SpecFloat.bounded prec emax m2 e2 = true ->
  (e1 < e2)%Z -> F2R (Zpos m1) e1 < F2R (Zpos m2) e2.
Proof.
  intros H1 H2 He.
  destruct (bounded_facts _ _ H1) as (Hm1 & He1 & _).
  destruct (bounded_facts _ _ H2) as (Hm2 & He2 & Hd2).
  assert (Hd : Zdigits2 (Zpos m2) = 53%Z) by lia.
  destruct (Zdigits2_bounds (Zpos m2) ltac:(lia)) as [Hlo _]. rewrite Hd in Hlo.
  apply Rlt_le_trans with (F2R (2 ^ 53) e1); [apply F2R_lt; lia|].
  apply Rle_trans with (F2R (2 ^ 52) e2); [|apply F2R_le; exact Hlo].
  rewrite !F2R_pow2 by lia. apply pow2_le. lia.
Qed.

Lemma SFcompare_positive m1 e1 m2 e2 :
  SpecFloat.bounded prec emax m1 e1 = true -> SpecFloat.bounded prec emax m2 e2 = true ->
  match SFcompare (S754_finite false m1 e1) (S754_finite false m2 e2) with
  | Some Lt => F2R (Zpos m1) e1 < F2R (Zpos m2) e2
  | Some Eq => F2R (Zpos m1) e1 = F2R (Zpos m2) e2
  | Some Gt => F2R (Zpos m2) e2 < F2R (Zpos m1) e1
  | None => False
  end.
Proof.
  intros H1 H2. cbn [SFcompare].
  destruct (Z.compare_spec e1 e2) as [->|Hlt|Hgt].
  - change (Pos.compare_cont Eq m1 m2) with (Pos.compare m1 m2).
    destruct (Pos.compare_spec m1 m2) as [->|Hlt|Hgt].
    + reflexivity.
    + apply F2R_lt. lia.
    + apply F2R_lt. lia.
  - now apply F2R_lt_exp.
  - now apply F2R_lt_exp.
Qed.

Lemma SFcompare_nonneg x y :
  nonnegF x -> nonnegF y ->
  match SFcompare x y with
  | Some Lt => SF2R x < SF2R y
  | Some Eq => SF2R x = SF2R y
  | Some Gt => SF2R y < SF2R x
  | None => False
  end.
Proof.
  destruct x as [sx|sx| |[|] mx ex], y as [sy|sy| |[|] my ey]; cbn [nonnegF]; try tauto.
  - intros _ _. reflexivity.
  - intros _ _. cbn. apply F2R_pos. lia.
  - intros _ _. cbn. apply F2R_pos. lia.
  - intros Hx Hy. now apply SFcompare_positive.
Qed.

Lemma SFleb_nonneg x y :
  nonnegF x -> nonnegF y -> (SFleb x y = true <-> SF2R x <= SF2R y).
Proof.
  intros Hx Hy. pose proof (SFcompare_nonneg x y Hx Hy) as H. unfold SFleb.
  destruct (SFcompare x y) as [[| |]|]; try tauto; split; intros; try lra; auto; discriminate.
Qed.

Lemma SFltb_nonneg x y :
  nonnegF x -> nonnegF y -> (SFltb x y = true <-> SF2R x < SF2R y).
Proof.
  intros Hx Hy. pose proof (SFcompare_nonneg x y Hx Hy) as H. unfold SFltb.
  destruct (SFcompare x y) as [[| |]|]; try tauto; split; intros; try lra; auto; discriminate.
Qed.

Lemma SF2R_nonneg x : nonnegF x -> 0 <= SF2R x.
Proof.
  destruct x as [s|s| |[|] m e]; cbn [nonnegF SF2R cond_Zopp]; try tauto; try lra.
  intros _. apply Rlt_le, F2R_pos. lia.
Qed.

Lemma representable_le_MAX g : representable g -> g <= MAX.
Proof.
  intros (m & e & Hm & He & ->). unfold MAX.
  apply Rle_trans with (F2R m 971); [apply F2R_exp_le; lia | apply F2R_le; lia].
Qed.

Lemma representable_nonnegF x : nonnegF x -> representable (SF2R x).
Proof.
  destruct x as [s|s| |[|] m e]; cbn [nonnegF SF2R cond_Zopp]; try tauto.
  - intros _. exists 0%Z, 0%Z. rewrite F2R_0. repeat split; lia.
  - apply representable_bounded.
Qed.

(** *** Primitive floats *)

Lemma finite_valid x s m e :
  Prim2SF x = S754_finite s m e -> SpecFloat.bounded prec emax m e = true.
Proof. intros H. pose proof (Prim2SF_valid x) as Hv. now rewrite H in Hv. Qed.

Lemma nonneg_cases a :
  (0 <=? a)%float = true ->
  Prim2SF a = S754_infinity false \/ nonnegF (Prim2SF a).
Proof.
  rewrite leb_spec. change (Prim2SF 0) with (S754_zero false).
  destruct (Prim2SF a) as [s|[|]| |[|] m e] eqn:Ha; cbn; try discriminate; auto.
  intros _. right. eapply finite_valid. exact Ha.
Qed.

Lemma le_cases a b :
  (0 <=? a)%float = true -> (a <=? b)%float = true ->
  Prim2SF b = S754_infinity false
  \/ (nonnegF (Prim2SF a) /\ nonnegF (Prim2SF b) /\ B2R a <= B2R b).
Proof.
  intros H0 Hab. destruct (nonneg_cases a H0) as [Ha|Ha]; rewrite leb_spec in Hab.
  - rewrite Ha in Hab. left.
    destruct (Prim2SF b) as [s|[|]| |s m e]; cbn in Hab; try discriminate; auto;
      try (destruct s; discriminate).
  - destruct (Prim2SF b) as [s|[|]| |[|] m e] eqn:Hb.
    + right. split; [exact Ha|]. split; [exact I|].
      unfold B2R. rewrite Hb. apply (SFleb_nonneg _ (S754_zero s) Ha I). exact Hab.
    + exfalso. destruct (Prim2SF a) as [sa|sa| |[|] ma ea]; cbn in Ha, Hab; try tauto; discriminate.
    + now left.
    + exfalso. destruct (Prim2SF a) as [sa|sa| |[|] ma ea]; cbn in Ha, Hab; try tauto; discriminate.
    + exfalso. destruct (Prim2SF a) as [sa|sa| |[|] ma ea]; cbn in Ha, Hab; try tauto; discriminate.
    + assert (Hvb : nonnegF (S754_finite false m e)) by (eapply finite_valid; exact Hb).
      right. split; [exact Ha|]. split; [exact Hvb|].
      unfold B2R. rewrite Hb. apply (SFleb_nonneg _ _ Ha Hvb). exact Hab.
Qed.

Lemma leb_of_R a b :
  nonnegF (Prim2SF a) -> nonnegF (Prim2SF b) -> B2R a <= B2R b -> (a <=? b)%float = true.
Proof. intros Ha Hb H. rewrite leb_spec. now apply SFleb_nonneg. Qed.

Lemma is_infinity_of_SF x : Prim2SF x = S754_infinity false -> x = infinity.
Proof. intros H. apply Prim2SF_inj. rewrite H. reflexivity. Qed.

Lemma leb_infinity a : (0 <=? a)%float = true -> (a <=? infinity)%float = true.
Proof.
  intros H. rewrite leb_spec. change (Prim2SF infinity) with (S754_infinity false).
  destruct (nonneg_cases a H) as [->|Ha]; [reflexivity|].
  destruct (Prim2SF a) as [s|s| |[|] m e]; cbn in *; tauto.
Qed.

Lemma leb_trans_nonneg a b c :
  (0 <=? a)%float = true -> (a <=? b)%float = true -> (b <=? c)%float = true ->
  (a <=? c)%float = true.
Proof.
  intros H0 Hab Hbc.
  destruct (le_cases a b H0 Hab) as [Hb|(Ha & Hb & Hab')].
  - assert (Hc : c = infinity).
    { apply is_infinity_of_SF. rewrite leb_spec, Hb in Hbc.
      destruct (Prim2SF c) as [s|[|]| |s m e]; cbn in Hbc; try discriminate; auto;
        try (destruct s; discriminate). }
    subst c. now apply leb_infinity.
  - assert (H0b : (0 <=? b)%float = true).
    { rewrite leb_spec. change (Prim2SF 0) with (S754_zero false).
      destruct (Prim2SF b) as [s|s| |[|] m e]; cbn in *; tauto. }
    destruct (le_cases b c H0b Hbc) as [Hc|(_ & Hc & Hbc')].
    + apply is_infinity_of_SF in Hc. subst c. now apply leb_infinity.
    + apply leb_of_R; [assumption..|lra].
Qed.


Lemma leb_nonneg_right a b :
  (0 <=? a)%float = true -> (a <=? b)%float = true -> (0 <=? b)%float = true.
Proof.
  intros H0 Hab. apply leb_trans_nonneg with a; [reflexivity | exact H0 | exact Hab].
Qed.


Lemma sandwich_refl v : sandwich v v.
Proof. intros g _. tauto. Qed.



Lemma rounds_of_spec v x : rounds_to v (Prim2SF x) -> rounds v x.
Proof.
  unfold rounds, B2R. destruct (Prim2SF x) as [s|s| |s m e] eqn:Hx; cbn [rounds_to].
  - intros (_ & Hv & Hs). right. cbn [nonnegF SF2R]. tauto.
  - intros (-> & Hv). left. split; [|exact Hv]. now apply is_infinity_of_SF.
  - tauto.
  - intros (-> & _ & _ & Hv & Hs). right. cbn [nonnegF SF2R cond_Zopp].
    split; [eapply finite_valid; exact Hx|]. tauto.
Qed.



Lemma mul_rounds a b :
  nonnegF (Prim2SF a) -> nonnegF (Prim2SF b) -> rounds (B2R a * B2R b) (a * b).
Proof.
  intros Ha Hb.
  destruct (Prim2SF a) as [sa|sa| |[|] ma ea] eqn:Ea; cbn [nonnegF] in Ha; try tauto;
    destruct (Prim2SF b) as [sb|sb| |[|] mb eb] eqn:Eb; cbn [nonnegF] in Hb; try tauto.
  1-3: right; unfold B2R; rewrite mul_spec, Ea, Eb; cbn;
    (split; [exact I|]); rewrite ?Rmult_0_l, ?Rmult_0_r;
    (split; [exact (pow2_pos 1024) | apply sandwich_refl]).
  apply rounds_of_spec. rewrite mul_spec, Ea, Eb. unfold B2R. rewrite Ea, Eb.
  cbn [SF2R cond_Zopp]. now apply SFmul_spec.
Qed.





Lemma positiveF_nonnegF x : positiveF x -> nonnegF x.
Proof. destruct x as [[|]|s| |[|] m e]; cbn; tauto. Qed.

Lemma mul_positive a b :
  positiveF (Prim2SF a) -> positiveF (Prim2SF b) ->
  (a * b)%float = infinity \/ positiveF (Prim2SF (a * b)).
Proof.
  intros Ha Hb. rewrite mul_spec.
  destruct (Prim2SF a) as [[|]|sa| |[|] ma ea] eqn:Ea; cbn [positiveF] in Ha; try tauto;
    destruct (Prim2SF b) as [[|]|sb| |[|] mb eb] eqn:Eb; cbn [positiveF] in Hb; try tauto;
    try (right; exact I).
  pose proof (SFmul_spec ma ea mb eb Ha Hb) as Hr.
  rewrite <- Ea, <- Eb, <- mul_spec in *.
  destruct (Prim2SF (a * b)) as [s|s| |s m e] eqn:E; cbn [rounds_to] in Hr.
  - right. destruct Hr as [-> _]. exact I.
  - left. destruct Hr as [-> _]. now apply is_infinity_of_SF.
  - tauto.
  - right. destruct Hr as [-> _]. cbn [positiveF]. eapply finite_valid. exact E.
Qed.

End Rounding.

(** ** Properties *)
Module Properties.
Import JS ShadeGenerator Statements.

Local Open Scope float_scope.

Section Generic.

Variable M : MathImpl.

(** *** Shape of the loops *)

Lemma fixed_loop_unrolled (f : Z -> string) :
  fold_left (fun shades level => setLevel shades level (f level)) SHADE_LEVELS []
  = List.map (fun level => (level, f level)) SHADE_LEVELS.
Proof. reflexivity. Qed.

Lemma enhanced_loop_unrolled (body : Z -> Z -> string) :
  enhancedLoop body 0%Z SHADE_LEVELS []
  = [ (50, body 0 50); (100, body 1 100); (200, body 2 200); (300, body 3 300);
      (400, body 4 400); (500, body 5 500); (600, body 6 600); (700, body 7 700);
      (800, body 8 800); (900, body 9 900); (950, body 10 950) ]%Z.
Proof. reflexivity. Qed.

Lemma generateFixedShades_unrolled base originalColor format exactMatch :
  generateFixedShades M base originalColor format exactMatch
  = List.map
      (fun level => (level, fixedShade M base originalColor format (notFalse exactMatch) level))
      SHADE_LEVELS.
Proof. unfold generateFixedShades. apply fixed_loop_unrolled. Qed.

Lemma generateFixedShades_levels base originalColor format exactMatch :
  levels (generateFixedShades M base originalColor format exactMatch) = SHADE_LEVELS.
Proof.
  rewrite generateFixedShades_unrolled. unfold levels.
  rewrite List.map_map. apply List.map_id.
Qed.

Lemma generateEnhancedShades_levels base originalColor format cfg exactMatch :
  exists shades,
    generateEnhancedShades M base originalColor format (Config cfg) exactMatch = Ok shades
    /\ levels shades = SHADE_LEVELS.
Proof.
  unfold generateEnhancedShades. eexists. split; [reflexivity|].
  rewrite enhanced_loop_unrolled. reflexivity.
Qed.

(** *** A search that starts from a zero chroma stays there *)

Lemma searchStep_zero l h :
  searchStep M l h {| minC := 0; maxC := 0; bestC := 0 |}
  = {| minC := 0; maxC := 0; bestC := 0 |}.
Proof.
  unfold searchStep. cbn [minC maxC bestC].
  change ((0 + 0) / 2) with 0.
  destruct (inGamut _ _ _); reflexivity.
Qed.

Lemma findMaxChroma_zero l h : findMaxChroma M l h 0 = 0.
Proof.
  unfold findMaxChroma. cbn [Nat.iter nat_rect].
  now rewrite !searchStep_zero.
Qed.

Lemma emitShade_gray format L C H :
  PrimFloat.Leibniz.eqb C 0 = true ->
  isText format "hex" = false ->
  emitShade M format L C H = formatOklch L 0 H.
Proof.
  intros HC Hf. apply FloatAxioms.Leibniz.eqb_spec in HC. subst C.
  unfold emitShade. now rewrite Hf, findMaxChroma_zero.
Qed.

Lemma exactShade_text base originalColor format :
  isText format "hex" = false ->
  exactShade M base originalColor format = formatOklch (l base) (c base) (h base).
Proof. intros Hf. unfold exactShade. now rewrite Hf. Qed.

Lemma fixedShade_gray base originalColor format smart level :
  isText format "hex" = false ->
  PrimFloat.Leibniz.eqb (c base * at_level CHROMA_SCALE level) 0 = true ->
  fixedShade M base originalColor format smart level
  = if smart && (level =? 500)%Z then formatOklch (l base) (c base) (h base)
    else formatOklch (fixedTargetL base smart level) 0 (h base).
Proof.
  intros Hf HC. unfold fixedShade.
  destruct (smart && (level =? 500)%Z).
  - now apply exactShade_text.
  - now apply emitShade_gray.
Qed.

(** The ramp of the fixed algorithm for the gray [oklch(0.99 0 0)],
    whatever the approximated functions are. *)
Lemma fixed_ramp_of_light_gray :
  generateShades M (VStr "oklch(0.99 0 0)") []
  = Ok [ (50, "oklch(97.0% 0.0000 0.0)"); (100, "oklch(97.2% 0.0000 0.0)");
         (200, "oklch(97.5% 0.0000 0.0)"); (300, "oklch(97.9% 0.0000 0.0)");
         (400, "oklch(98.4% 0.0000 0.0)"); (500, "oklch(99.0% 0.0000 0.0)");
         (600, "oklch(84.5% 0.0000 0.0)"); (700, "oklch(67.9% 0.0000 0.0)");
         (800, "oklch(51.3% 0.0000 0.0)"); (900, "oklch(34.7% 0.0000 0.0)");
         (950, "oklch(14.0% 0.0000 0.0)") ]%Z.
Proof.
  assert (Hp : parseColor M (VStr "oklch(0.99 0 0)") = Ok {| l := 0.99; c := 0; h := 0 |})
    by (vm_compute; reflexivity).
  unfold generateShades. rewrite Hp. cbn [bind getProp orDefault isText String.eqb Ascii.eqb Bool.eqb].
  rewrite generateFixedShades_unrolled. cbn [List.map SHADE_LEVELS notFalse].
  rewrite !fixedShade_gray by (vm_compute; reflexivity).
  vm_compute. reflexivity.
Qed.

Lemma enhancedShade_gray base originalColor format exactMatch lightEnd darkEnd peak i level :
  isText format "hex" = false ->
  PrimFloat.Leibniz.eqb (snd (fst (enhancedTarget base lightEnd darkEnd peak i))) 0 = true ->
  enhancedShade M base originalColor format exactMatch lightEnd darkEnd peak i level
  = if notFalse exactMatch && (level =? 500)%Z then formatOklch (l base) (c base) (h base)
    else
      let t := enhancedTarget base lightEnd darkEnd peak i in
      formatOklch (fst (fst t)) 0 (normalizeHue (snd t)).
Proof.
  intros Hf HC. unfold enhancedShade.
  destruct (notFalse exactMatch && (level =? 500)%Z).
  - now apply exactShade_text.
  - destruct (enhancedTarget base lightEnd darkEnd peak i) as [[L C] H].
    cbn [fst snd] in *. now apply emitShade_gray.
Qed.

(** The same mid gray under an unrecognised mode and under ['fixed']. *)
Lemma unknown_mode_ramp_of_mid_gray :
  generateShades M (VStr "oklch(0.5 0 0)") [("mode", VStr "foo")]
  = Ok [ (50, "oklch(97.0% 0.0000 0.0)"); (100, "oklch(87.6% 0.0000 0.0)");
         (200, "oklch(78.2% 0.0000 0.0)"); (300, "oklch(68.8% 0.0000 0.0)");
         (400, "oklch(59.4% 0.0000 0.0)"); (500, "oklch(50.0% 0.0000 0.0)");
         (600, "oklch(42.8% 0.0000 0.0)"); (700, "oklch(35.6% 0.0000 0.0)");
         (800, "oklch(28.4% 0.0000 0.0)"); (900, "oklch(21.2% 0.0000 0.0)");
         (950, "oklch(14.0% 0.0000 0.0)") ]%Z.
Proof.
  assert (Hp : parseColor M (VStr "oklch(0.5 0 0)") = Ok {| l := 0.5; c := 0; h := 0 |})
    by (vm_compute; reflexivity).
  unfold generateShades. rewrite Hp.
  cbn [bind getProp orDefault isText String.eqb Ascii.eqb Bool.eqb].
  change (MODE_CONFIG_at (VStr "foo")) with Undefined. cbv iota.
  unfold generateEnhancedShades. rewrite enhanced_loop_unrolled.
  rewrite !enhancedShade_gray by (vm_compute; reflexivity).
  vm_compute. reflexivity.
Qed.

Lemma fixed_mode_ramp_of_mid_gray :
  generateShades M (VStr "oklch(0.5 0 0)") [("mode", VStr "fixed")]
  = Ok [ (50, "oklch(97.0% 0.0000 0.0)"); (100, "oklch(92.5% 0.0000 0.0)");
         (200, "oklch(85.8% 0.0000 0.0)"); (300, "oklch(75.7% 0.0000 0.0)");
         (400, "oklch(64.5% 0.0000 0.0)"); (500, "oklch(50.0% 0.0000 0.0)");
         (600, "oklch(43.9% 0.0000 0.0)"); (700, "oklch(36.8% 0.0000 0.0)");
         (800, "oklch(29.8% 0.0000 0.0)"); (900, "oklch(22.8% 0.0000 0.0)");
         (950, "oklch(14.0% 0.0000 0.0)") ]%Z.
Proof.
  assert (Hp : parseColor M (VStr "oklch(0.5 0 0)") = Ok {| l := 0.5; c := 0; h := 0 |})
    by (vm_compute; reflexivity).
  unfold generateShades. rewrite Hp.
  cbn [bind getProp orDefault isText String.eqb Ascii.eqb Bool.eqb].
  rewrite generateFixedShades_unrolled. cbn [List.map SHADE_LEVELS notFalse].
  rewrite !fixedShade_gray by (vm_compute; reflexivity).
  vm_compute. reflexivity.
Qed.

(** *** Which calls of [generateShades] return, and with which keys *)

Lemma MODE_CONFIG_at_inherited name :
  In name objectPrototypeKeys -> MODE_CONFIG_at (VStr name) = Inherited name.
Proof.
  intros H. cbn [In objectPrototypeKeys] in H.
  repeat (destruct H as [<- | H]; [reflexivity|]). destruct H.
Qed.

Lemma inherited_not_fixed name :
  In name objectPrototypeKeys -> isText (VStr name) "fixed" = false.
Proof.
  intros H. cbn [In objectPrototypeKeys] in H.
  repeat (destruct H as [<- | H]; [reflexivity|]). destruct H.
Qed.

Lemma generateShades_levels color options shades :
  generateShades M color options = Ok shades -> levels shades = SHADE_LEVELS.
Proof.
  unfold generateShades. destruct (parseColor M color) as [base|e]; cbn [bind]; [|discriminate].
  destruct (isText _ "fixed").
  - intros [= <-]. apply generateFixedShades_levels.
  - destruct (MODE_CONFIG_at _) as [cfg|name|].
    + destruct (generateEnhancedShades_levels base
                  (match color with VStr text => text | _ => EmptyString end)
                  (orDefault (getProp options "format") (VStr "oklch")) cfg
                  (getProp options "exactMatch")) as (sh & -> & Hl).
      now intros [= <-].
    + discriminate.
    + destruct (generateEnhancedShades_levels base
                  (match color with VStr text => text | _ => EmptyString end)
                  (orDefault (getProp options "format") (VStr "oklch")) MODE_CONFIG_fixed
                  (getProp options "exactMatch")) as (sh & -> & Hl).
      now intros [= <-].
Qed.

Lemma generateShades_returns color options base :
  parseColor M color = Ok base ->
  (forall name, MODE_CONFIG_at (orDefault (getProp options "mode") (VStr "fixed"))
                <> Inherited name) ->
  exists shades, generateShades M color options = Ok shades.
Proof.
  intros Hp Hm. unfold generateShades. rewrite Hp. cbn [bind].
  destruct (isText _ "fixed"); [eauto|].
  destruct (MODE_CONFIG_at _) as [cfg|name|].
  - unfold generateEnhancedShades. eauto.
  - now destruct (Hm name).
  - unfold generateEnhancedShades. eauto.
Qed.

(** *** The palette loop *)

Lemma setPalette_keys (palettes : list (string * palette)) name p k :
  In k (keys (setPalette palettes name p)) <-> k = name \/ In k (keys palettes).
Proof.
  unfold keys. induction palettes as [|[k' p'] rest IH]; cbn [setPalette List.map In fst].
  - intuition.
  - destruct (String.eqb_spec name k') as [->|Hne]; cbn [List.map In fst].
    + intuition.
    + rewrite IH. intuition.
Qed.

Lemma paletteStep_skipped options palettes name colorConfig :
  skipped colorConfig = true ->
  paletteStep M options palettes (name, colorConfig) = Ok palettes.
Proof.
  unfold skipped, paletteStep. destruct colorConfig as [| | | | |props]; try reflexivity; try discriminate.
  intros [Hb Hk]%andb_prop. apply negb_true_iff in Hb, Hk. now rewrite Hb, Hk.
Qed.

Lemma paletteStep_keys options palettes entry palettes' k :
  paletteStep M options palettes entry = Ok palettes' ->
  In k (keys palettes') ->
  In k (keys palettes) \/ (k = fst entry /\ skipped (snd entry) = false).
Proof.
  destruct entry as [name colorConfig]. unfold paletteStep, skipped. cbn [fst snd].
  destruct colorConfig as [| | | |text|props]; try (intros [= <-]; now left).
  - destruct (generateShades M (VStr text) options); cbn [bind]; [|discriminate].
    intros [= <-] [->|H]%setPalette_keys; auto.
  - destruct (truthy (getProp props "base")); cbn [negb andb].
    + destruct (generateShades M _ _); cbn [bind]; [|discriminate].
      intros [= <-] [->|H]%setPalette_keys; auto.
    + destruct (existsb numericKey (keys props)); cbn [negb].
      * intros [= <-] [->|H]%setPalette_keys; auto.
      * intros [= <-]; now left.
Qed.

Lemma paletteLoop_keys options entries : forall palettes palettes' k,
  paletteLoop M options entries palettes = Ok palettes' ->
  In k (keys palettes') ->
  In k (keys palettes) \/ exists v, In (k, v) entries /\ skipped v = false.
Proof.
  induction entries as [|entry rest IH]; intros palettes palettes' k; cbn [paletteLoop].
  - intros [= <-]; now left.
  - destruct (paletteStep M options palettes entry) as [mid|e] eqn:Hstep; cbn [bind]; [|discriminate].
    intros Hloop Hin. destruct (IH _ _ _ Hloop Hin) as [Hmid | (v & Hv & Hs)].
    + destruct (paletteStep_keys _ _ _ _ _ Hstep Hmid) as [H | [-> Hs]]; [now left|].
      right. exists (snd entry). split; [left; now destruct entry | exact Hs].
    + right. exists v. split; [now right | exact Hs].
Qed.

End Generic.

(** *** Unrecognised modes *)

(** C1, at the failing input: for the mid gray [oklch(0.5 0 0)] an
    unrecognised mode does not give the ramp of mode ['fixed']; levels 100 to
    400 and 600 to 900 differ (87.6% against 92.5% at level 100), because the
    call runs the curved algorithm with the configuration of ['fixed']. *)
Theorem unknown_mode_is_not_fixed_mode (M : MathImpl) :
  generateShades M (VStr "oklch(0.5 0 0)") [("mode", VStr "foo")]
    <> generateShades M (VStr "oklch(0.5 0 0)") [("mode", VStr "fixed")]
  /\ (exists shades,
        generateShades M (VStr "oklch(0.5 0 0)") [("mode", VStr "foo")] = Ok shades
        /\ getLevel shades 100 = Some "oklch(87.6% 0.0000 0.0)")
  /\ (exists shades,
        generateShades M (VStr "oklch(0.5 0 0)") [("mode", VStr "fixed")] = Ok shades
        /\ getLevel shades 100 = Some "oklch(92.5% 0.0000 0.0)").
Proof.
  rewrite unknown_mode_ramp_of_mid_gray, fixed_mode_ramp_of_mid_gray.
  repeat split.
  - discriminate.
  - eexists; split; reflexivity.
  - eexists; split; reflexivity.
Qed.

(** What an unrecognised mode does run: the curved algorithm, configured
    by [MODE_CONFIG.fixed]. *)
Lemma unknown_mode_runs_enhanced (M : MathImpl) color options base :
  parseColor M color = Ok base ->
  MODE_CONFIG_at (orDefault (getProp options "mode") (VStr "fixed")) = Undefined ->
  generateShades M color options
  = generateEnhancedShades M base
      (match color with VStr text => text | _ => EmptyString end)
      (orDefault (getProp options "format") (VStr "oklch"))
      (Config MODE_CONFIG_fixed) (getProp options "exactMatch").
Proof.
  intros Hp Hm. unfold generateShades. rewrite Hp, Hm. cbn [bind].
  destruct (orDefault (getProp options "mode") (VStr "fixed")) as [| | | |k|]; try reflexivity.
  destruct (isText (VStr k) "fixed") eqn:Hk; [|reflexivity].
  cbn [isText] in Hk. apply String.eqb_eq in Hk. subst k. discriminate Hm.
Qed.

(** C7, at the failing input: a mode that names a member every object
    inherits from [Object.prototype] ("constructor", "toString", ...) is
    found by [MODE_CONFIG[mode]], so no fallback happens, and the call
    throws a [TypeError] instead of returning the 11 keys. *)
Theorem inherited_mode_name_throws (M : MathImpl) color options name :
  isValidColor M color = true ->
  In name objectPrototypeKeys ->
  getProp options "mode" = VStr name ->
  generateShades M color options
  = Throw (TypeError "Cannot read properties of undefined (reading 'light')").
Proof.
  unfold isValidColor, generateShades. intros Hv Hn ->. cbn [orDefault].
  destruct (parseColor M color) as [base|e]; [|discriminate]. cbn [bind].
  now rewrite (inherited_not_fixed _ Hn), (MODE_CONFIG_at_inherited _ Hn).
Qed.

Lemma inherited_mode_name_throws_witness :
  isValidColor Reference.math (VStr "#3b82f6") = true
  /\ generateShades Reference.math (VStr "#3b82f6") [("mode", VStr "constructor")]
     = Throw (TypeError "Cannot read properties of undefined (reading 'light')").
Proof.
  split; [reflexivity|].
  apply (inherited_mode_name_throws Reference.math (VStr "#3b82f6")
           [("mode", VStr "constructor")] "constructor").
  - reflexivity.
  - cbn; auto.
  - reflexivity.
Defined.

(** *** Lightness order *)

(** C2, at the failing input: the gray [oklch(0.99 0 0)] has a lightness
    strictly between 0 and 1, and its ramp in fixed mode grows lighter
    from level 50 (97.0%) up to level 500 (99.0%). *)
Theorem fixed_ramp_not_monotone_above_table (M : MathImpl) :
  exists base shades,
    parseColor M (VStr "oklch(0.99 0 0)") = Ok base
    /\ ((0 <? l base) && (l base <? 1)) = true
    /\ generateShades M (VStr "oklch(0.99 0 0)") [] = Ok shades
    /\ rampLightness shades = [97; 97.2; 97.5; 97.9; 98.4; 99; 84.5; 67.9; 51.3; 34.7; 14]
    /\ nonIncreasing (rampLightness shades) = false
    /\ (fixedTargetL base true 50 <? fixedTargetL base true 100) = true.
Proof.
  eexists. eexists. rewrite fixed_ramp_of_light_gray.
  repeat split; vm_compute; reflexivity.
Qed.

(** *** Hue of parsed colours *)

(** C5, at the failing input: native text keeps the hue as written;
    [oklch(0.5 0.1 400)] parses to hue 400, outside the range. *)
Theorem oklch_text_hue_not_normalized (M : MathImpl) :
  parseColor M (VStr "oklch(0.5 0.1 400)") = Ok {| l := 0.5; c := 0.1; h := 400 |}
  /\ hueNormalized 400 = false.
Proof. split; vm_compute; reflexivity. Qed.

(** *** Palette entries that are skipped *)

Lemma getProp_absent (o : object) k : ~ In k (keys o) -> getProp o k = VUndefined.
Proof.
  unfold keys. induction o as [|[k' v] rest IH]; cbn [getProp List.map In fst]; [reflexivity|].
  intros H. destruct (String.eqb_spec k k') as [->|Hne].
  - exfalso. apply H. now left.
  - apply IH. intros Hin. apply H. now right.
Qed.

Lemma unusable_is_skipped colorConfig : unusableEntry colorConfig -> skipped colorConfig = true.
Proof.
  intros [Hs Ho]. destruct colorConfig as [| | | | |props]; try reflexivity; try discriminate.
  destruct (Ho props eq_refl) as [Hb Hk]. cbn [skipped].
  rewrite (getProp_absent _ _ Hb). cbn [truthy negb andb].
  destruct (existsb numericKey (keys props)) eqn:He; [|reflexivity].
  apply existsb_exists in He. destruct He as (k & Hin & Hn).
  rewrite (Hk k Hin) in Hn. discriminate.
Qed.

(** C10: an entry that is neither a string, nor an object with a [base]
    key, nor an object with a numeric-looking key leaves the loop state
    unchanged and raises nothing; its name is absent from the palettes
    returned; and an object without [base] is passed through verbatim as soon
    as some one of its keys is numeric-looking. *)
Theorem palettes_skip_unusable_entries (M : MathImpl) (options : object) :
  (forall palettes name colorConfig,
      unusableEntry colorConfig ->
      paletteStep M options palettes (name, colorConfig) = Ok palettes)
  /\ (forall colors palettes name,
        generatePalettes M colors options = Ok palettes ->
        (forall colorConfig, In (name, colorConfig) colors -> unusableEntry colorConfig) ->
        ~ In name (keys palettes))
  /\ (forall palettes name props k,
        ~ In "base" (keys props) ->
        In k (keys props) -> numericKey k = true ->
        paletteStep M options palettes (name, VObj props)
        = Ok (setPalette palettes name (Verbatim (VObj props)))).
Proof.
  repeat split.
  - intros palettes name colorConfig H. apply paletteStep_skipped, unusable_is_skipped, H.
  - intros colors palettes name Hgen Hall Hin.
    destruct (paletteLoop_keys M options colors [] palettes name Hgen Hin) as [[] | (v & Hv & Hs)].
    rewrite (unusable_is_skipped _ (Hall v Hv)) in Hs. discriminate.
  - intros palettes name props k Hb Hin Hn. cbn [paletteStep].
    rewrite (getProp_absent _ _ Hb). cbn [truthy negb andb].
    assert (He : existsb numericKey (keys props) = true)
      by (apply existsb_exists; eauto).
    now rewrite He.
Qed.

(** A number, an object with only non-numeric keys, and a ramp with one
    numeric key among others, next to a plain colour. *)
Lemma palettes_skip_unusable_entries_witness :
  generatePalettes Reference.math
    [ ("count", VNum 5);
      ("notes", VObj [("label", VStr "x")]);
      ("custom", VObj [("500", VStr "#custom"); ("label", VStr "x")]) ] []
  = Ok [ ("custom", Verbatim (VObj [("500", VStr "#custom"); ("label", VStr "x")])) ].
Proof.
  destruct (palettes_skip_unusable_entries Reference.math []) as (Hskip & _ & Hpass).
  unfold generatePalettes. cbn [paletteLoop].
  rewrite Hskip by (split; [reflexivity | discriminate]). cbn [bind paletteLoop].
  rewrite Hskip; cbn [bind paletteLoop].
  - rewrite (Hpass _ _ _ "500"); [reflexivity | | now left | reflexivity].
    cbn. intros [H|[H|[]]]; discriminate.
  - split; [reflexivity|]. intros props [= <-]. split.
    + cbn. intros [H|[]]; discriminate.
    + cbn. intros k [<-|[]]. reflexivity.
Defined.

(** *** Hue across a fixed ramp *)

Lemma formatOklch_shape L C H :
  exists lStr cStr : string,
    formatOklch L C H = ("oklch(" ++ lStr ++ "% " ++ cStr ++ " " ++ toFixed H 1 ++ ")")%string.
Proof. unfold formatOklch. eauto. Qed.

Lemma fixedShade_text_shape (M : MathImpl) base originalColor format smart level :
  isText format "hex" = false ->
  exists lStr cStr : string,
    fixedShade M base originalColor format smart level
    = ("oklch(" ++ lStr ++ "% " ++ cStr ++ " " ++ toFixed (h base) 1 ++ ")")%string.
Proof.
  intros Hf. unfold fixedShade, exactShade, emitShade. rewrite Hf.
  destruct (smart && (level =? 500)%Z); apply formatOklch_shape.
Qed.

(** C8: in fixed mode with perceptual-text output, whatever [exactMatch]
    is, the ramp has the 11 levels and every value is
    [oklch(<L>% <C> <H>)] with one and the same hue text [<H>], the hue of
    the parsed input printed to one decimal: the hues of any two shades
    differ by 0. *)
Theorem fixed_ramp_carries_input_hue (M : MathImpl) color options base shades :
  parseColor M color = Ok base ->
  isText (orDefault (getProp options "mode") (VStr "fixed")) "fixed" = true ->
  isText (orDefault (getProp options "format") (VStr "oklch")) "hex" = false ->
  generateShades M color options = Ok shades ->
  levels shades = SHADE_LEVELS
  /\ forall level v, In (level, v) shades ->
       exists lStr cStr : string,
         v = ("oklch(" ++ lStr ++ "% " ++ cStr ++ " " ++ toFixed (h base) 1 ++ ")")%string.
Proof.
  intros Hp Hm Hf Hg. split; [eapply generateShades_levels; eassumption|].
  unfold generateShades in Hg. rewrite Hp, Hm in Hg. cbn [bind] in Hg.
  injection Hg as <-. rewrite generateFixedShades_unrolled.
  intros level v Hin. apply in_map_iff in Hin. destruct Hin as (lv & [= <- <-] & _).
  now apply fixedShade_text_shape.
Qed.

Lemma fixed_ramp_carries_input_hue_witness :
  exists base shades,
    parseColor Reference.math (VStr "#3b82f6") = Ok base
    /\ generateShades Reference.math (VStr "#3b82f6") [("exactMatch", VBool false)] = Ok shades
    /\ toFixed (h base) 1 = "259.8"
    /\ forall level v, In (level, v) shades ->
         exists lStr cStr : string,
           v = ("oklch(" ++ lStr ++ "% " ++ cStr ++ " " ++ "259.8" ++ ")")%string.
Proof.
  eexists. eexists. split; [reflexivity|]. split; [reflexivity|]. split; [reflexivity|].
  change "259.8" with (toFixed (h {| l := 0.62308302950876038;
                                     c := 0.18801471201981482;
                                     h := 259.81452667388714 |}) 1).
  apply (fixed_ramp_carries_input_hue Reference.math (VStr "#3b82f6")
           [("exactMatch", VBool false)]); reflexivity.
Defined.

(** *** Hex output *)

Lemma toHex_byte n :
  (0 <= n <= 255)%Z ->
  toHex (ofInt n) = String (digitChar (n / 16)) (String (digitChar (n mod 16)) EmptyString)
  /\ isLowerHexDigit (digitChar (n / 16)) = true
  /\ isLowerHexDigit (digitChar (n mod 16)) = true.
Proof.
  intros Hn.
  assert (Hall : forallb
            (fun k => let n := Z.of_nat k in
               String.eqb (toHex (ofInt n))
                 (String (digitChar (n / 16)) (String (digitChar (n mod 16)) EmptyString))
               && isLowerHexDigit (digitChar (n / 16))
               && isLowerHexDigit (digitChar (n mod 16)))
            (seq 0 256) = true) by (vm_compute; reflexivity).
  rewrite forallb_forall in Hall. specialize (Hall (Z.to_nat n)).
  rewrite Z2Nat.id in Hall by lia.
  assert (Hin : In (Z.to_nat n) (seq 0 256)) by (apply in_seq; lia).
  apply Hall in Hin. cbv zeta in Hin.
  apply andb_prop in Hin. destruct Hin as [Hin H2].
  apply andb_prop in Hin. destruct Hin as [H0 H1].
  apply String.eqb_eq in H0. auto.
Qed.

Lemma formatHex_bytes r g b :
  byteValued r -> byteValued g -> byteValued b -> hexColorText (formatHex r g b) = true.
Proof.
  intros (nr & Hr & ->) (ng & Hg & ->) (nb & Hb & ->). unfold formatHex.
  destruct (toHex_byte nr Hr) as (-> & R1 & R2).
  destruct (toHex_byte ng Hg) as (-> & G1 & G2).
  destruct (toHex_byte nb Hb) as (-> & B1 & B2).
  cbn. now rewrite R1, R2, G1, G2, B1, B2.
Qed.

Lemma exactShade_hex_origin M base originalColor format level exact :
  isText format "hex" = true -> level = 500%Z -> exact = true ->
  hexShadeOrigin M originalColor exact level (exactShade M base originalColor format).
Proof.
  intros Hf Hl He. unfold exactShade, hexShadeOrigin. rewrite Hf.
  destruct (startsWith originalColor "#") eqn:Hs; [left; auto|].
  right. unfold formatHexFromOklch. eauto.
Qed.

Lemma emitShade_hex_origin M originalColor format exact level L C H :
  isText format "hex" = true ->
  hexShadeOrigin M originalColor exact level (emitShade M format L C H).
Proof. intros Hf. unfold emitShade. rewrite Hf. right. eauto. Qed.

Lemma fixedShade_hex_origin M base originalColor format smart level :
  isText format "hex" = true ->
  hexShadeOrigin M originalColor smart level (fixedShade M base originalColor format smart level).
Proof.
  intros Hf. unfold fixedShade.
  destruct (smart && (level =? 500)%Z) eqn:Hc.
  - apply andb_prop in Hc. destruct Hc as [Hs Hl]. apply Z.eqb_eq in Hl.
    now apply exactShade_hex_origin.
  - now apply emitShade_hex_origin.
Qed.

Lemma enhancedShade_hex_origin M base originalColor format exactMatch lightEnd darkEnd peak i level :
  isText format "hex" = true ->
  hexShadeOrigin M originalColor (notFalse exactMatch) level
    (enhancedShade M base originalColor format exactMatch lightEnd darkEnd peak i level).
Proof.
  intros Hf. unfold enhancedShade.
  destruct (notFalse exactMatch && (level =? 500)%Z) eqn:Hc.
  - apply andb_prop in Hc. destruct Hc as [Hs Hl]. apply Z.eqb_eq in Hl.
    now apply exactShade_hex_origin.
  - destruct (enhancedTarget _ _ _ _ _) as [[L C] H]. now apply emitShade_hex_origin.
Qed.

Lemma generateEnhancedShades_hex_origin M base originalColor format cfg exactMatch shades :
  isText format "hex" = true ->
  generateEnhancedShades M base originalColor format (Config cfg) exactMatch = Ok shades ->
  forall level v, In (level, v) shades ->
    hexShadeOrigin M originalColor (notFalse exactMatch) level v.
Proof.
  intros Hf. unfold generateEnhancedShades. rewrite enhanced_loop_unrolled.
  intros [= <-] level v Hin. cbn [In] in Hin.
  repeat (destruct Hin as [[= <- <-] | Hin]; [now apply enhancedShade_hex_origin|]).
  destruct Hin.
Qed.

Lemma parseColor_ok_text M color base :
  parseColor M color = Ok base -> exists text, color = VStr text.
Proof. destruct color; try discriminate. eauto. Qed.

(** C6, counterexample: with the default exact match, level 500 of the
    hex ramp of [#FFF] is the input text itself, three uppercase digits. *)
Lemma hex_ramp_keeps_input_text :
  exists shades,
    generateShades Reference.math (VStr "#FFF") [("format", VStr "hex")] = Ok shades
    /\ getLevel shades 500 = Some "#FFF"
    /\ hexColorText "#FFF" = false
    /\ allHexColorText shades = false.
Proof. eexists. repeat split; vm_compute; reflexivity. Qed.


(** *** Which texts [parseColor] accepts *)







(** *** Reading back a formatted colour *)







(** *** The matcher on a text built like the pattern *)

Lemma runs_stop p s :
  match s with EmptyString => True | String ch _ => p ch = false end ->
  runs p s = [(EmptyString, s)].
Proof. destruct s as [|ch s]; cbn; [reflexivity|]. now intros ->. Qed.

Lemma runs_whole p a rest :
  forallb_str p a = true ->
  match rest with EmptyString => True | String ch _ => p ch = false end ->
  exists tl, runs p (a ++ rest) = (a, rest) :: tl.
Proof.
  intros Ha Hr. induction a as [|ch a IH].
  - cbn [append]. rewrite (runs_stop _ _ Hr). eauto.
  - cbn [forallb_str] in Ha. apply andb_prop in Ha. destruct Ha as [Hc Ha].
    destruct (IH Ha) as (tl & Htl). cbn [append runs]. rewrite Hc, Htl.
    cbn [List.map fst snd app]. eauto.
Qed.












Lemma append_assoc (a b c : string) : ((a ++ b) ++ c = a ++ b ++ c)%string.
Proof. induction a as [|ch a IH]; cbn [append]; [reflexivity|]. now rewrite IH. Qed.




(** *** What [toFixed] prints for an ordinary number *)

Lemma code_chr z : (0 <= z < 256)%Z -> code (chr z) = z.
Proof.
  intros Hz. unfold code, chr. rewrite N_ascii_embedding by lia. lia.
Qed.











(** *** Level 500 under exact matching *)






(** *** The gamut search *)

Import IEEE Rounding.

Section GamutSearch.
Variable M : MathImpl.

Lemma oklchToRgb_scaled l c h :
  oklchToRgb M l c h =
  {| r := Math_round (scaledChannel M (r (oklchToLinearRgb M l c h)));
     g := Math_round (scaledChannel M (g (oklchToLinearRgb M l c h)));
     b := Math_round (scaledChannel M (b (oklchToLinearRgb M l c h))) |}.
Proof. reflexivity. Qed.

Lemma SFcompare_refl x : x <> S754_nan -> SFcompare x x = Some Eq.
Proof.
  destruct x as [s|s| |s m e]; cbn; intros H.
  - reflexivity.
  - now destruct s.
  - now elim H.
  - destruct s; rewrite Z.compare_refl, ?Pos.compare_cont_refl; reflexivity.
Qed.

Lemma isNaN_spec x : isNaN x = true <-> Prim2SF x = S754_nan.
Proof.
  unfold isNaN, is_nan. rewrite FloatAxioms.eqb_spec. unfold SFeqb. split.
  - intros H. destruct (Prim2SF x) as [s|s| |s m e] eqn:E; try reflexivity;
      rewrite SFcompare_refl in H by discriminate; discriminate.
  - intros ->. reflexivity.
Qed.



Lemma linearToSrgb_nan : linearToSrgb M nan = nan.
Proof. reflexivity. Qed.

Lemma scaledChannel_nan : scaledChannel M nan = nan.
Proof. reflexivity. Qed.


(** **** The clamp *)

Lemma ltb_leb a b : (a <? b) = true -> (a <=? b) = true.
Proof.
  rewrite ltb_spec, leb_spec. unfold SFltb, SFleb.
  now destruct (SFcompare (Prim2SF a) (Prim2SF b)) as [[| |]|].
Qed.

Lemma leb_not_nan a b : (a <=? b) = true -> isNaN a = false /\ isNaN b = false.
Proof.
  rewrite leb_spec. intros H.
  split; apply not_true_is_false; rewrite isNaN_spec; intros E; rewrite E in H.
  - discriminate.
  - now destruct (Prim2SF a).
Qed.

Lemma B2R_one : B2R 1 = 1%R.
Proof.
  unfold B2R. change (Prim2SF 1) with (S754_finite false 4503599627370496 (-52)).
  cbn [SF2R cond_Zopp]. change 4503599627370496%Z with (2 ^ 52)%Z.
  rewrite F2R_pow2 by lia. change (-52 + 52)%Z with 0%Z. unfold pow2, powerRZ. lra.
Qed.

Lemma B2R_255 : B2R 255 = 255%R.
Proof.
  unfold B2R. change (Prim2SF 255) with (S754_finite false (255 * 2 ^ 45) (-45)).
  cbn [SF2R cond_Zopp]. change (Z.pos (255 * 2 ^ 45)) with (255 * 2 ^ 45)%Z.
  rewrite F2R_shift by lia. change (-45 + 45)%Z with 0%Z. unfold F2R, pow2, powerRZ. lra.
Qed.


Lemma Math_min_one x :
  isNaN (Math_min 1 x) = true \/ (Math_min 1 x <=? 1) = true.
Proof.
  unfold Math_min. change (isNaN 1) with false. cbn [orb].
  destruct (isNaN x) eqn:Hn; [now left|]. right.
  destruct (1 <? x) eqn:H1; [reflexivity|].
  destruct (x <? 1) eqn:H2; [now apply ltb_leb|].
  change (get_sign 1) with false. cbv iota.
  rewrite ltb_spec in H1, H2. rewrite leb_spec.
  assert (Hx : Prim2SF x <> S754_nan).
  { intros E. apply isNaN_spec in E. congruence. }
  change (Prim2SF 1) with (S754_finite false 4503599627370496 (-52)) in *.
  destruct (Prim2SF x) as [s|[|]| |[|] m e] eqn:E; try discriminate; try tauto.
  assert (Hv : nonnegF (S754_finite false m e)) by (eapply finite_valid; exact E).
  assert (Ho : nonnegF (S754_finite false 4503599627370496 (-52))) by reflexivity.
  apply (SFleb_nonneg _ _ Hv Ho).
  destruct (Rle_or_lt (SF2R (S754_finite false m e))
              (SF2R (S754_finite false 4503599627370496 (-52)))) as [Hle|Hlt]; [exact Hle|].
  apply (SFltb_nonneg _ _ Ho Hv) in Hlt. congruence.
Qed.




Lemma Math_round_nan u : isNaN u = true -> Math_round u = u.
Proof. intros H. apply isNaN_spec in H. unfold Math_round. now rewrite H. Qed.

Lemma mul_nan_l x y : isNaN x = true -> isNaN (x * y) = true.
Proof.
  rewrite !isNaN_spec, mul_spec. intros ->. reflexivity.
Qed.


(** **** The channels are bytes *)

Lemma ltb_zero_positive y : (0 <? y) = true -> (y <=? 1) = true -> positiveF (Prim2SF y).
Proof.
  rewrite ltb_spec, leb_spec.
  change (Prim2SF 0) with (S754_zero false).
  change (Prim2SF 1) with (S754_finite false 4503599627370496 (-52)).
  destruct (Prim2SF y) as [s|[|]| |[|] m e] eqn:E; intros H0 H1;
    try discriminate H0; try discriminate H1.
  eapply finite_valid. exact E.
Qed.

Lemma clamp_positive x :
  isNaN (Math_max 0 (Math_min 1 x)) = true
  \/ (positiveF (Prim2SF (Math_max 0 (Math_min 1 x)))
      /\ (Math_max 0 (Math_min 1 x) <=? 1) = true).
Proof.
  destruct (Math_min_one x) as [Hn|Hle].
  - left. unfold Math_max. now rewrite Hn, orb_true_r.
  - right. generalize dependent (Math_min 1 x). intros y Hy.
    unfold Math_max. change (isNaN 0) with false. cbn [orb].
    destruct (leb_not_nan _ _ Hy) as [-> _].
    destruct (0 <? y) eqn:H1; [split; [now apply ltb_zero_positive | exact Hy]|].
    destruct (y <? 0); [split; [exact I | reflexivity]|].
    change (get_sign 0) with false. split; [exact I | reflexivity].
Qed.

Lemma scaled_byte_range cl :
  positiveF (Prim2SF cl) -> (cl <=? 1) = true ->
  positiveF (Prim2SF (cl * 255)) /\ (B2R (cl * 255) <= 255)%R.
Proof.
  intros Hp H1. pose proof (positiveF_nonnegF _ Hp) as Hc.
  assert (Ho : nonnegF (Prim2SF 1)) by reflexivity.
  assert (Hle : (B2R cl <= 1)%R).
  { rewrite <- B2R_one. apply (SFleb_nonneg _ _ Hc Ho). now rewrite <- leb_spec. }
  assert (H255 : positiveF (Prim2SF 255)) by reflexivity.
  assert (Hr : representable 255%R).
  { rewrite <- B2R_255. apply representable_nonnegF. now apply positiveF_nonnegF. }
  pose proof (SF2R_nonneg _ Hc) as Hc0. fold (B2R cl) in Hc0.
  assert (Hv : (B2R cl * B2R 255 <= 255)%R) by (rewrite B2R_255; lra).
  destruct (mul_rounds cl 255 Hc (positiveF_nonnegF _ H255)) as [[_ Hbig]|(Hu & _ & Hsw)].
  - pose proof (representable_le_MAX _ Hr). lra.
  - destruct (mul_positive cl 255 Hp H255) as [Hinf|Hpos].
    + rewrite Hinf in Hu. now cbn in Hu.
    + split; [exact Hpos|]. apply (Hsw _ Hr). exact Hv.
Qed.

Lemma ofInt_zero : ofInt 0 = 0.
Proof. reflexivity. Qed.

Lemma Math_round_byte u :
  positiveF (Prim2SF u) -> (B2R u <= 255)%R -> byteValued (Math_round u).
Proof.
  intros Hp Hle. unfold Math_round, B2R in *.
  destruct (Prim2SF u) as [[|]|s| |[|] m e] eqn:E; cbn [positiveF] in Hp; try tauto.
  - exists 0%Z. split; [lia|]. apply Prim2SF_inj. now rewrite E.
  - cbn [SF2R cond_Zopp] in Hle.
    destruct (bounded_facts _ _ Hp) as (Hm & He & Hc).
    destruct (Z.leb_spec 0 e) as [He0|He0].
    + exfalso. destruct Hc as [Hc|Hc]; [lia|].
      assert (Hge : (2 ^ 52 <= Zpos m)%Z).
      { pose proof (Zdigits2_bounds (Zpos m)) as Hd. rewrite Hc in Hd.
        change (53 - 1)%Z with 52%Z in Hd. lia. }
      assert (Hge' : (256 <= Zpos m)%Z) by lia.
      apply IZR_le in Hge'.
      assert (H1 : (F2R (Zpos m) 0 <= F2R (Zpos m) e)%R) by (apply F2R_exp_le; lia).
      unfold F2R at 1 in H1. unfold pow2, powerRZ in H1. lra.
    + cbv zeta. set (d := (2 ^ (- e))%Z).
      assert (Hd : (0 < d)%Z) by (subst d; apply Z.pow_pos_nonneg; lia).
      assert (Hmd : (Zpos m <= 255 * d)%Z).
      { apply (F2R_le_inv _ _ e). apply Rle_trans with 255%R; [exact Hle|].
        unfold d. rewrite F2R_shift by lia. replace (e + - e)%Z with 0%Z by lia.
        unfold F2R, pow2, powerRZ. lra. }
      set (n := ((2 * Zpos m + d) / (2 * d))%Z).
      assert (Hn : (0 <= n <= 255)%Z).
      { subst n. split.
        - apply Z.div_pos; lia.
        - apply Z.lt_succ_r. apply Z.div_lt_upper_bound; lia. }
      destruct (Z.eqb_spec n 0) as [Hz|Hz].
      * exists 0%Z. split; [lia | reflexivity].
      * exists n. split; [lia | reflexivity].
Qed.

Lemma channel_byte_or_nan v :
  isNaN (Math_round (scaledChannel M v)) = true \/ byteValued (Math_round (scaledChannel M v)).
Proof.
  unfold scaledChannel.
  destruct (clamp_positive (linearToSrgb M v)) as [Hn|[Hp H1]].
  - left. apply (mul_nan_l _ 255) in Hn. now rewrite (Math_round_nan _ Hn).
  - right. destruct (scaled_byte_range _ Hp H1) as [Hu Hle]. now apply Math_round_byte.
Qed.

Lemma byte_within_tolerance x : byteValued x -> withinTolerance x = true.
Proof.
  intros (n & Hn & ->).
  assert (Hall : forallb (fun k => withinTolerance (ofInt (Z.of_nat k))) (seq 0 256) = true)
    by (vm_compute; reflexivity).
  rewrite forallb_forall in Hall. specialize (Hall (Z.to_nat n)).
  rewrite Z2Nat.id in Hall by lia. apply Hall. apply in_seq. lia.
Qed.

(** The test of the search rejects a chroma only when a channel is [NaN]:
    the channels it is given are already clamped and rounded. *)
Lemma inGamut_unless_nan l c h :
  let rgb := oklchToRgb M l c h in
  isNaN (r rgb) = false -> isNaN (g rgb) = false -> isNaN (b rgb) = false ->
  inGamut (r rgb) (g rgb) (b rgb) = true.
Proof.
  cbv zeta. rewrite oklchToRgb_scaled. cbn [r g b]. intros Hr Hg Hb.
  destruct (channel_byte_or_nan (r (oklchToLinearRgb M l c h))) as [E|Br]; [congruence|].
  destruct (channel_byte_or_nan (g (oklchToLinearRgb M l c h))) as [E|Bg]; [congruence|].
  destruct (channel_byte_or_nan (b (oklchToLinearRgb M l c h))) as [E|Bb]; [congruence|].
  apply byte_within_tolerance in Br, Bg, Bb. unfold withinTolerance in *.
  apply andb_prop in Br, Bg, Bb. destruct Br, Bg, Bb. unfold inGamut.
  repeat (apply andb_true_intro; split); assumption.
Qed.

(** **** The search *)






End GamutSearch.

(** The search does not lower the chroma of a colour outside the sRGB
    gamut.  At lightness 0.5, hue 0 and desired chroma 0.4 all eight
    midpoints are accepted, so the result is [0.4 * 255 / 256], although the
    green channel of that colour is negative before [oklchToRgb] clamps it
    to 0. *)
Lemma gamut_search_accepts_clipped_chroma :
  findMaxChroma Reference.math 0.5 0 0.4 = 0.3984375
  /\ (forall M, (g (oklchToLinearRgb M 0.5 0.3984375 0) <? 0) = true)
  /\ (forall M, g (oklchToRgb M 0.5 0.3984375 0) = 0).
Proof. repeat split; intros; vm_compute; reflexivity. Qed.


(** *** Hex ramps *)

(** A lightness that [parseFloat] reads as [NaN] gives [NaN] channels, which
    [toString(16)] prints as such. *)
Lemma hex_ramp_of_nan_lightness (M : MathImpl) :
  generateShades M (VStr "oklch(. 0.1 0)") [("format", VStr "hex")]
  = Ok (List.map (fun level => (level, "#NaNNaNNaN")) SHADE_LEVELS).
Proof. vm_compute. reflexivity. Qed.

(** C6, amended: in hex format, for every mode and [exactMatch] setting,
    each value of the ramp is either the input text verbatim (level 500,
    [exactMatch] not [false], input starting with [#]) or [#] followed by the
    three channels of an [oklchToRgb] result, each rendered by
    [toString(16)] and padded to two characters; unless one of the three
    channels is [NaN] that is [#] and six lowercase hex digits. *)
Theorem hex_ramp_values (M : MathImpl) color options shades :
  isText (orDefault (getProp options "format") (VStr "oklch")) "hex" = true ->
  generateShades M color options = Ok shades ->
  forall level v, In (level, v) shades ->
    (level = 500%Z /\ notFalse (getProp options "exactMatch") = true
     /\ color = VStr v /\ startsWith v "#" = true)
    \/ exists L C H,
         let rgb := oklchToRgb M L C H in
         v = formatHex (r rgb) (g rgb) (b rgb)
         /\ (isNaN (r rgb) = false -> isNaN (g rgb) = false -> isNaN (b rgb) = false ->
             hexColorText v = true).
Proof.
  intros Hf Hg level v Hin.
  assert (Horigin : exists text, color = VStr text
            /\ hexShadeOrigin M text (notFalse (getProp options "exactMatch")) level v).
  { unfold generateShades in Hg.
    destruct (parseColor M color) as [base|e] eqn:Hp; [|discriminate]. cbn [bind] in Hg.
    destruct (parseColor_ok_text _ _ _ Hp) as (text & ->). exists text. split; [reflexivity|].
    destruct (isText _ "fixed").
    - injection Hg as <-. rewrite generateFixedShades_unrolled in Hin.
      apply in_map_iff in Hin. destruct Hin as (lv & [= <- <-] & _).
      now apply fixedShade_hex_origin.
    - destruct (MODE_CONFIG_at _) as [cfg|name|]; [|discriminate|];
        eapply generateEnhancedShades_hex_origin; eassumption. }
  destruct Horigin as (text & -> & [(Hl & He & Hs & ->) | (L & C & H & ->)]).
  - left. auto.
  - right. exists L, C, H. cbv zeta. split; [reflexivity|].
    rewrite oklchToRgb_scaled. cbn [r g b]. intros Hr Hg' Hb.
    apply formatHex_bytes.
    + destruct (channel_byte_or_nan M (r (oklchToLinearRgb M L C H))); [congruence | assumption].
    + destruct (channel_byte_or_nan M (g (oklchToLinearRgb M L C H))); [congruence | assumption].
    + destruct (channel_byte_or_nan M (b (oklchToLinearRgb M L C H))); [congruence | assumption].
Qed.

Lemma hex_ramp_values_witness :
  let shades :=
    [ (50, "#f5f5f5"); (100, "#f6f6f6"); (200, "#f7f7f7"); (300, "#f9f9f9");
      (400, "#fcfcfc"); (500, "#FFF"); (600, "#cfcfcf"); (700, "#9a9a9a");
      (800, "#686868"); (900, "#3a3a3a"); (950, "#090909") ]%Z in
  generateShades Reference.math (VStr "#FFF") [("format", VStr "hex")] = Ok shades
  /\ forall level v, In (level, v) shades ->
       (level = 500%Z /\ VStr "#FFF" = VStr v)
       \/ exists L C H,
            v = formatHex (r (oklchToRgb Reference.math L C H))
                          (g (oklchToRgb Reference.math L C H))
                          (b (oklchToRgb Reference.math L C H)).
Proof.
  intros shades.
  assert (Hg : generateShades Reference.math (VStr "#FFF") [("format", VStr "hex")] = Ok shades)
    by (vm_compute; reflexivity).
  split; [exact Hg|].
  intros level v Hin.
  destruct (hex_ramp_values Reference.math (VStr "#FFF") [("format", VStr "hex")] shades
              eq_refl Hg level v Hin) as [(H1 & _ & H3 & _) | (L & C & H & Hv & _)].
  - left. auto.
  - right. exists L, C, H. exact Hv.
Defined.

End Properties.

(** ** Numbers the operations compute exactly *)
Module ExactResults.
Import JS IEEE Rounding.

Local Open Scope R_scope.

(** *** Exact results *)

Lemma representable_nonneg g : representable g -> 0 <= g.
Proof.
  intros (m & e & Hm & _ & ->). unfold F2R.
  apply Rmult_le_pos; [apply IZR_le; lia | left; apply pow2_pos].
Qed.

Lemma exact_of_spec v x :
  representable v -> rounds_to v (Prim2SF x) -> positiveF (Prim2SF x) /\ B2R x = v.
Proof.
  intros Hr. pose proof (representable_le_MAX _ Hr) as Hmax.
  pose proof (representable_nonneg _ Hr) as H0. unfold B2R.
  destruct (Prim2SF x) as [s|s| |s m e] eqn:E; cbn [rounds_to SF2R positiveF].
  - intros (-> & _ & Hs). split; [exact I|].
    pose proof (proj1 (Hs v Hr) (Rle_refl v)). lra.
  - intros (_ & H). lra.
  - tauto.
  - intros (-> & Hm & He & _ & Hs). cbn [cond_Zopp]. split.
    + eapply finite_valid. exact E.
    + destruct (Hs v Hr) as [H1 H2]. pose proof (H1 (Rle_refl v)). pose proof (H2 (Rle_refl v)). lra.
Qed.

Lemma ofInt_exact n :
  (0 <= n < 2 ^ 53)%Z -> positiveF (Prim2SF (ofInt n)) /\ B2R (ofInt n) = IZR n.
Proof.
  intros Hn. unfold ofInt. replace (n <? 0)%Z with false by (symmetry; apply Z.ltb_ge; lia).
  assert (Hz : Uint63.to_Z (Uint63.of_Z n) = n).
  { rewrite Uint63.of_Z_spec. apply Z.mod_small. change Uint63.wB with (2 ^ 63)%Z. lia. }
  destruct (Z.eq_dec n 0) as [->|Hne].
  - split; [exact I|]. unfold B2R. cbn. reflexivity.
  - apply exact_of_spec.
    + exists n, 0%Z. split; [lia|]. split; [lia|]. unfold F2R, pow2, powerRZ. lra.
    + rewrite of_uint63_spec, Hz. destruct n as [|p|p]; try lia.
      cbn [binary_normalize].
      replace (IZR (Z.pos p)) with (F2R (Z.pos p) 0) by (unfold F2R, pow2, powerRZ; lra).
      apply binary_round_spec.
Qed.

Lemma Z_ldexp_exact x k :
  positiveF (Prim2SF x) -> representable (B2R x * pow2 k) ->
  positiveF (Prim2SF (Z.ldexp x k)) /\ B2R (Z.ldexp x k) = B2R x * pow2 k.
Proof.
  intros Hp Hr. unfold B2R in *.
  destruct (Prim2SF x) as [[|]|s| |[|] m e] eqn:E; cbn [positiveF] in Hp; try tauto.
  - rewrite FloatLemmas.Z_ldexp_spec, E. cbn. split; [exact I | lra].
  - fold (B2R (Z.ldexp x k)). apply exact_of_spec; [exact Hr|].
    rewrite FloatLemmas.Z_ldexp_spec, E. cbn [SFldexp SF2R cond_Zopp].
    replace (F2R (Z.pos m) e * pow2 k) with (F2R (Z.pos m) (e + k))
      by (unfold F2R; rewrite pow2_add; ring).
    apply binary_round_spec.
Qed.

Lemma positive_unique x y :
  positiveF (Prim2SF x) -> positiveF (Prim2SF y) -> B2R x = B2R y -> x = y.
Proof.
  intros Hx Hy Heq. apply Prim2SF_inj. unfold B2R in Heq.
  pose proof (SFcompare_nonneg _ _ (positiveF_nonnegF _ Hx) (positiveF_nonnegF _ Hy)) as Hc.
  destruct (Prim2SF x) as [[|]|sx| |[|] mx ex]; cbn [positiveF] in Hx; try tauto;
    destruct (Prim2SF y) as [[|]|sy| |[|] my ey]; cbn [positiveF] in Hy; try tauto;
    cbn [SFcompare] in Hc; try lra; try reflexivity.
  destruct (Z.compare_spec ex ey) as [->|Hlt|Hgt]; try lra.
  destruct (Pos.compare_cont Eq mx my) eqn:Hm; try lra.
  apply Pos.compare_eq in Hm. now subst.
Qed.

Lemma log2_bounds N : (0 < N)%Z -> (2 ^ Z.log2 N <= N < 2 ^ (Z.log2 N + 1))%Z.
Proof. intros H. pose proof (Z.log2_spec N H). lia. Qed.

Lemma roundRational_integer N : (0 <= N < 2 ^ 53)%Z -> roundRational N 1 = ofInt N.
Proof.
  intros HN. unfold roundRational.
  destruct (Z.leb_spec N 0) as [H0|H0].
  - assert (N = 0)%Z as -> by lia. reflexivity.
  - cbv zeta. change (Z.log2 1) with 0%Z. rewrite Z.sub_0_r.
    pose proof (log2_bounds N H0) as [Hlo Hhi].
    assert (Hl : (0 <= Z.log2 N <= 52)%Z).
    { split; [apply Z.log2_nonneg|].
      destruct (Z_le_gt_dec (Z.log2 N) 52); [assumption|].
      assert (2 ^ 53 <= 2 ^ Z.log2 N)%Z by (apply Z.pow_le_mono_r; lia). lia. }
    set (e0 := (Z.log2 N - 52)%Z).
    assert (Hscale : (2 ^ 52 <= N * 2 ^ (- e0) < 2 ^ 53)%Z).
    { subst e0. replace (- (Z.log2 N - 52))%Z with (52 - Z.log2 N)%Z by lia.
      assert (Hp : (2 ^ 52 = 2 ^ Z.log2 N * 2 ^ (52 - Z.log2 N))%Z).
      { rewrite <- Z.pow_add_r by lia. f_equal. lia. }
      assert (Hq : (2 ^ 53 = 2 ^ (Z.log2 N + 1) * 2 ^ (52 - Z.log2 N))%Z).
      { rewrite <- Z.pow_add_r by lia. f_equal. lia. }
      assert (0 < 2 ^ (52 - Z.log2 N))%Z by (apply Z.pow_pos_nonneg; lia).
      rewrite Hp, Hq. nia. }
    assert (Hquo : ((if (0 <=? e0)%Z then N / (1 * 2 ^ e0) else N * 2 ^ (- e0) / 1) <? 2 ^ 52)%Z
                   = false).
    { apply Z.ltb_ge. destruct (Z.leb_spec 0 e0) as [He|He].
      - assert (e0 = 0)%Z as -> by (subst e0; lia). change (1 * 2 ^ 0)%Z with 1%Z.
        rewrite Z.div_1_r. change (- 0)%Z with 0%Z in Hscale. lia.
      - rewrite Z.div_1_r. lia. }
    rewrite Hquo. replace (Z.max e0 (-1074)) with e0 by (subst e0; lia).
    set (num := if (0 <=? e0)%Z then N else (N * 2 ^ (- e0))%Z).
    set (den := if (0 <=? e0)%Z then (1 * 2 ^ e0)%Z else 1%Z).
    assert (Hden : den = 1%Z).
    { subst den. destruct (Z.leb_spec 0 e0) as [He|He]; [|reflexivity].
      assert (e0 = 0)%Z as -> by (subst e0; lia). reflexivity. }
    assert (Hnum : num = (N * 2 ^ (- e0))%Z).
    { subst num. destruct (Z.leb_spec 0 e0) as [He|He]; [|reflexivity].
      assert (e0 = 0)%Z as -> by (subst e0; lia). cbn. lia. }
    rewrite Hden, Z.div_1_r, Z.mod_1_r. cbn [Z.mul Z.compare].
    rewrite Hnum.
    destruct (ofInt_exact (N * 2 ^ (- e0)) ltac:(lia)) as [Hp Hv].
    assert (Hr : representable (B2R (ofInt (N * 2 ^ (- e0))) * pow2 e0)).
    { rewrite Hv. exists N, 0%Z. split; [lia|]. split; [lia|].
      rewrite mult_IZR, <- pow2_IZR by (subst e0; lia).
      unfold F2R. rewrite Rmult_assoc, <- pow2_add. f_equal. f_equal. lia. }
    destruct (Z_ldexp_exact _ e0 Hp Hr) as [Hp' Hv'].
    destruct (ofInt_exact N ltac:(lia)) as [HpN HvN].
    apply positive_unique; [exact Hp' | exact HpN |].
    rewrite Hv', Hv, HvN, mult_IZR, <- pow2_IZR by (subst e0; lia).
    rewrite Rmult_assoc, <- pow2_add. replace (- e0 + e0)%Z with 0%Z by lia.
    unfold pow2, powerRZ. lra.
Qed.

Lemma toInt32_ofInt N : (0 <= N < 2 ^ 31)%Z -> toInt32 (ofInt N) = N.
Proof.
  intros HN. destruct (ofInt_exact N ltac:(lia)) as [Hp Hv]. unfold toInt32, B2R in *.
  destruct (Prim2SF (ofInt N)) as [[|]|s| |[|] m e] eqn:E; cbn [positiveF] in Hp; try tauto.
  - cbn [SF2R] in Hv. apply eq_IZR in Hv. lia.
  - cbn [SF2R cond_Zopp] in Hv.
    assert (Ht : (if (0 <=? e)%Z then Z.pos m * 2 ^ e else Z.pos m / 2 ^ (- e))%Z = N).
    { destruct (Z.leb_spec 0 e) as [He|He].
      - apply eq_IZR. rewrite <- Hv, mult_IZR, <- pow2_IZR by lia. reflexivity.
      - assert (Hm : Z.pos m = (N * 2 ^ (- e))%Z).
        { apply Z.le_antisymm; apply (F2R_le_inv _ _ e);
            rewrite F2R_shift by lia; replace (e + - e)%Z with 0%Z by lia;
            rewrite Hv; unfold F2R, pow2, powerRZ; lra. }
        rewrite Hm. apply Z.div_mul. apply Z.pow_nonzero; lia. }
    rewrite Ht. rewrite Z.mod_small by lia.
    replace (N <? 2 ^ 31)%Z with true by (symmetry; apply Z.ltb_lt; lia). reflexivity.
Qed.

Lemma SFadd_mixed_spec mx ex my ey :
  F2R (Zpos mx) ex < F2R (Zpos my) ey ->
  rounds_to (F2R (Zpos my) ey - F2R (Zpos mx) ex)
    (SFadd prec emax (S754_finite true mx ex) (S754_finite false my ey)).
Proof.
  intros Hlt. cbn [SFadd cond_Zopp].
  destruct (shl_align_spec mx ex (Z.min ex ey)) as [Hx _].
  destruct (shl_align_spec my ey (Z.min ex ey)) as [Hy _]. cbv zeta in Hx, Hy.
  assert (Hvx : F2R (Zpos mx) ex = F2R (Zpos (fst (shl_align mx ex (Z.min ex ey)))) (Z.min ex ey)).
  { rewrite Hx, F2R_shift by lia. f_equal. lia. }
  assert (Hvy : F2R (Zpos my) ey = F2R (Zpos (fst (shl_align my ey (Z.min ex ey)))) (Z.min ex ey)).
  { rewrite Hy, F2R_shift by lia. f_equal. lia. }
  rewrite Hvx, Hvy in *.
  apply F2R_lt_inv in Hlt.
  replace (F2R (Z.pos (fst (shl_align my ey (Z.min ex ey)))) (Z.min ex ey)
           - F2R (Z.pos (fst (shl_align mx ex (Z.min ex ey)))) (Z.min ex ey))
    with (F2R (- Z.pos (fst (shl_align mx ex (Z.min ex ey)))
              + Z.pos (fst (shl_align my ey (Z.min ex ey)))) (Z.min ex ey))
    by (unfold F2R; rewrite plus_IZR, opp_IZR; ring).
  destruct (- Z.pos (fst (shl_align mx ex (Z.min ex ey)))
            + Z.pos (fst (shl_align my ey (Z.min ex ey))))%Z as [|p|p] eqn:Hsum; try lia.
  cbn [binary_normalize]. apply binary_round_spec.
Qed.

Lemma B2R_360 : B2R 360 = 360.
Proof.
  unfold B2R. change (Prim2SF 360) with (S754_finite false (360 * 2 ^ 44) (-44)).
  cbn [SF2R cond_Zopp]. change (Z.pos (360 * 2 ^ 44)) with (360 * 2 ^ 44)%Z.
  rewrite F2R_shift by lia. change (-44 + 44)%Z with 0%Z. unfold F2R, pow2, powerRZ. lra.
Qed.

End ExactResults.

(** ** Further properties of shade-generator.js *)
Module Behaviour.
Import JS ShadeGenerator Statements FurtherStatements IEEE Rounding Properties ExactResults.

Local Open Scope float_scope.

(** *** Which calls return, and what the gamut search does *)

Section Shades.
Variable M : MathImpl.


Lemma leb_nan_r x y : isNaN y = true -> (x <=? y) = false.
Proof.
  intros Hy. destruct (x <=? y) eqn:E; [|reflexivity].
  destruct (leb_not_nan _ _ E). congruence.
Qed.

Lemma leb_nan_l x y : isNaN x = true -> (x <=? y) = false.
Proof.
  intros Hx. destruct (x <=? y) eqn:E; [|reflexivity].
  destruct (leb_not_nan _ _ E). congruence.
Qed.

(** Every channel [oklchToRgb] returns is [NaN] or an integer from 0 to
    255. *)
Theorem oklchToRgb_channels l c h :
  let rgb := oklchToRgb M l c h in
  (isNaN (r rgb) = true \/ byteValued (r rgb))
  /\ (isNaN (g rgb) = true \/ byteValued (g rgb))
  /\ (isNaN (b rgb) = true \/ byteValued (b rgb)).
Proof.
  cbv zeta. rewrite oklchToRgb_scaled. cbn [r g b].
  repeat split; apply channel_byte_or_nan.
Qed.

Lemma inGamut_numeric l c h :
  let rgb := oklchToRgb M l c h in
  inGamut (r rgb) (g rgb) (b rgb) = numericRgb rgb.
Proof.
  cbv zeta. unfold numericRgb.
  destruct (isNaN (r (oklchToRgb M l c h))) eqn:Hr; cbn [negb andb].
  { unfold inGamut. now rewrite (leb_nan_r _ _ Hr). }
  destruct (isNaN (g (oklchToRgb M l c h))) eqn:Hg; cbn [negb andb].
  { unfold inGamut. rewrite (leb_nan_r _ _ Hg). now rewrite !andb_false_r. }
  destruct (isNaN (b (oklchToRgb M l c h))) eqn:Hb; cbn [negb andb].
  { unfold inGamut. rewrite (leb_nan_r _ _ Hb). now rewrite !andb_false_r. }
  now apply inGamut_unless_nan.
Qed.

(** [inGamut] accepts the channels of [oklchToRgb] exactly when none of
    them is [NaN]: the channels it is given are already clamped and
    rounded, so the test cannot tell a colour outside the sRGB gamut. *)
Theorem inGamut_of_oklchToRgb l c h :
  let rgb := oklchToRgb M l c h in
  inGamut (r rgb) (g rgb) (b rgb) = numericRgb rgb.
Proof. exact (inGamut_numeric l c h). Qed.

Lemma search_accepts l h D : forall k,
  (forall j, (1 <= j <= k)%nat -> numericRgb (oklchToRgb M l (probe D j) h) = true) ->
  Nat.iter k (searchStep M l h) {| minC := 0; maxC := D; bestC := 0 |}
  = {| minC := probe D k; maxC := D; bestC := probe D k |}.
Proof.
  induction k as [|k IH]; intros Hk; [reflexivity|].
  cbn [Nat.iter nat_rect]. change (nat_rect _ _ _ k) with
    (Nat.iter k (searchStep M l h) {| minC := 0; maxC := D; bestC := 0 |}).
  rewrite IH by (intros j Hj; apply Hk; lia).
  unfold searchStep. cbn [minC maxC bestC].
  change ((probe D k + D) / 2) with (probe D (S k)).
  pose proof (inGamut_numeric l (probe D (S k)) h) as Hg. cbv zeta in Hg.
  rewrite Hg, (Hk (S k)) by lia. reflexivity.
Qed.

(** When none of the eight midpoints gives a [NaN] channel the search
    accepts all of them: [findMaxChroma] returns the eighth midpoint, which
    depends on the desired chroma only. *)
Theorem findMaxChroma_accepts_numbers l h idealC :
  (forall j, (1 <= j <= 8)%nat -> numericRgb (oklchToRgb M l (probe idealC j) h) = true) ->
  findMaxChroma M l h idealC = probe idealC 8.
Proof.
  intros H. unfold findMaxChroma. now rewrite (search_accepts l h idealC 8 H).
Qed.

End Shades.


Lemma findMaxChroma_accepts_numbers_witness :
  findMaxChroma Reference.math 0.5 0 0.4 = 0.3984375.
Proof.
  rewrite (findMaxChroma_accepts_numbers Reference.math 0.5 0 0.4).
  - vm_compute. reflexivity.
  - intros j Hj.
    assert (Hc : (j = 1 \/ j = 2 \/ j = 3 \/ j = 4 \/ j = 5 \/ j = 6 \/ j = 7 \/ j = 8)%nat) by lia.
    repeat (destruct Hc as [-> | Hc]; [vm_compute; reflexivity|]). subst j. vm_compute. reflexivity.
Defined.

(** *** Reading a colour *)

(** The colour [parseColor] reads depends only on the trimmed, lower-cased
    text. *)
Theorem parseColor_reads_normalized_text (M : MathImpl) t1 t2 :
  String.eqb t1 "" = false -> String.eqb t2 "" = false ->
  toLowerCase (trim t1) = toLowerCase (trim t2) ->
  isValidColor M (VStr t1) = isValidColor M (VStr t2)
  /\ forall base, parseColor M (VStr t1) = Ok base <-> parseColor M (VStr t2) = Ok base.
Proof.
  intros H1 H2 Hn.
  assert (Hiff : forall base,
             parseColor M (VStr t1) = Ok base <-> parseColor M (VStr t2) = Ok base).
  { intros base. unfold parseColor. rewrite H1, H2, Hn.
    destruct (startsWith _ "oklch("); [tauto|].
    destruct (startsWith _ "#"); [tauto|].
    destruct (startsWith _ "rgb"); [tauto|].
    destruct (startsWith _ "hsl"); [tauto|].
    destruct (bareHexPattern _); [tauto|]. split; discriminate. }
  split; [|exact Hiff]. unfold isValidColor.
  destruct (parseColor M (VStr t1)) as [b1|e1].
  - now rewrite (proj1 (Hiff b1) eq_refl).
  - destruct (parseColor M (VStr t2)) as [b2|e2]; [|reflexivity].
    now pose proof (proj2 (Hiff b2) eq_refl).
Qed.

Lemma parseColor_reads_normalized_text_witness :
  isValidColor Reference.math (VStr "  #3B82F6 ") = isValidColor Reference.math (VStr "#3b82f6")
  /\ parseColor Reference.math (VStr "  #3B82F6 ") = parseColor Reference.math (VStr "#3b82f6").
Proof.
  destruct (parseColor_reads_normalized_text Reference.math "  #3B82F6 " "#3b82f6"
              eq_refl eq_refl eq_refl) as [Hv Hp].
  split; [exact Hv|]. vm_compute. reflexivity.
Defined.

(** Hex shorthand: three digits stand for the six obtained by doubling each
    one, and a fourth digit or a fourth pair (the alpha channel) is
    dropped. *)
Theorem hex_shorthand_and_alpha (a b c d : ascii) (six alpha : string) :
  let s3 := String a (String b (String c EmptyString)) in
  let s4 := String a (String b (String c (String d EmptyString))) in
  let s6 := String a (String a (String b (String b (String c (String c EmptyString))))) in
  hexToRgb (String "#" s3) = hexToRgb (String "#" s6)
  /\ hexToRgb (String "#" s4) = hexToRgb (String "#" s6)
  /\ (String.length six = 6%nat ->
      hexToRgb (String "#" (six ++ alpha)) = hexToRgb (String "#" six)).
Proof.
  cbv zeta. split; [reflexivity|]. split; [reflexivity|].
  intros H6.
  destruct six as [|c1 [|c2 [|c3 [|c4 [|c5 [|c6 [|c7 rest]]]]]]]; try discriminate H6.
  unfold hexToRgb.
  change (removeFirst "#" (String "#" ?x)) with x.
  cbn [append String.length Nat.eqb take]. reflexivity.
Qed.

Lemma hex_shorthand_and_alpha_witness :
  hexToRgb "#abc" = hexToRgb "#aabbcc"
  /\ hexToRgb "#abcd" = hexToRgb "#aabbcc"
  /\ hexToRgb "#3b82f680" = hexToRgb "#3b82f6".
Proof.
  destruct (hex_shorthand_and_alpha "a" "b" "c" "d" "3b82f6" "80") as (H3 & H4 & H8).
  split; [exact H3|]. split; [exact H4|]. exact (H8 eq_refl).
Defined.

(** *** What a ramp prints *)

Section Ramps.
Variable M : MathImpl.

Lemma formatOklch_gray L H :
  formatOklch L 0 H = ("oklch(" ++ toFixed (L * 100) 1 ++ "% 0.0000 " ++ toFixed H 1 ++ ")")%string.
Proof. reflexivity. Qed.

Lemma ownConfig_cases k cfg :
  ownConfig MODE_CONFIG k = Some cfg ->
  cfg = MODE_CONFIG_fixed \/ cfg = MODE_CONFIG_natural \/ cfg = MODE_CONFIG_vivid.
Proof.
  cbn [ownConfig MODE_CONFIG].
  destruct (String.eqb k "fixed"); [intros [= <-]; auto|].
  destruct (String.eqb k "natural"); [intros [= <-]; auto|].
  destruct (String.eqb k "vivid"); [intros [= <-]; auto|discriminate].
Qed.

Lemma effective_config_cases mode cfg :
  match MODE_CONFIG_at mode with Undefined => Config MODE_CONFIG_fixed | found => found end
  = Config cfg ->
  cfg = MODE_CONFIG_fixed \/ cfg = MODE_CONFIG_natural \/ cfg = MODE_CONFIG_vivid.
Proof.
  unfold MODE_CONFIG_at. destruct mode as [| | | |k|]; try (intros [= <-]; auto).
  destruct (ownConfig MODE_CONFIG k) as [c0|] eqn:E.
  - intros [= <-]. now apply ownConfig_cases with k.
  - destruct (existsb _ _); [discriminate | intros [= <-]; auto].
Qed.

(** A colour of chroma zero gives a ramp of chroma zero: in every mode and
    with either setting of [exactMatch], each value of the perceptual-text
    ramp prints the chroma [0.0000]. *)
Theorem achromatic_ramp color options base shades :
  parseColor M color = Ok base ->
  c base = 0 ->
  isText (orDefault (getProp options "format") (VStr "oklch")) "hex" = false ->
  generateShades M color options = Ok shades ->
  forall level v, In (level, v) shades ->
    exists lStr hStr : string, v = ("oklch(" ++ lStr ++ "% 0.0000 " ++ hStr ++ ")")%string.
Proof.
  intros Hp Hc Hf Hg level v Hin.
  unfold generateShades in Hg. rewrite Hp in Hg. cbn [bind] in Hg.
  destruct base as [bl bc bh]. cbn [c] in Hc. subst bc.
  destruct (isText _ "fixed").
  - injection Hg as <-. rewrite generateFixedShades_unrolled in Hin.
    apply in_map_iff in Hin. destruct Hin as (lv & [= <- <-] & Hlv).
    rewrite fixedShade_gray; [|exact Hf|].
    + destruct (_ && _); cbn [l c h]; rewrite formatOklch_gray; eauto.
    + cbn [c]. cbn [In SHADE_LEVELS] in Hlv.
      repeat (destruct Hlv as [<- | Hlv]; [reflexivity|]). destruct Hlv.
  - destruct (match MODE_CONFIG_at _ with Undefined => _ | found => found end)
      as [cfg|name|] eqn:Ecfg; [|discriminate|discriminate].
    apply effective_config_cases in Ecfg.
    unfold generateEnhancedShades in Hg. cbv zeta in Hg. injection Hg as <-.
    cbn [l c h] in Hin.
    destruct Ecfg as [-> | [-> | ->]];
      cbn [In] in Hin;
      repeat (destruct Hin as [[= <- <-] | Hin];
              [ rewrite enhancedShade_gray by (exact Hf || (vm_compute; reflexivity));
                cbv zeta; destruct (_ && _); cbn [l c h]; rewrite formatOklch_gray; eauto |]);
      destruct Hin.
Qed.

(** With [exactMatch: false] the fixed ramp takes its lightness from the
    table, whatever the colour: level 500 prints 55.0%, and the eleven
    lightness texts are the same for every input. *)
Theorem fixed_ramp_table_lightness color options base shades :
  parseColor M color = Ok base ->
  isText (orDefault (getProp options "mode") (VStr "fixed")) "fixed" = true ->
  isText (orDefault (getProp options "format") (VStr "oklch")) "hex" = false ->
  getProp options "exactMatch" = VBool false ->
  generateShades M color options = Ok shades ->
  (forall level v, In (level, v) shades ->
     exists cStr : string,
       v = ("oklch(" ++ tableLightnessText level ++ "% " ++ cStr ++ " "
              ++ toFixed (h base) 1 ++ ")")%string)
  /\ List.map tableLightnessText (levels shades)
     = ["97.0"; "93.0"; "87.0"; "78.0"; "68.0"; "55.0"; "48.0"; "40.0"; "32.0"; "24.0"; "14.0"].
Proof.
  intros Hp Hm Hf He Hg. split.
  - unfold generateShades in Hg. rewrite Hp, Hm, He in Hg. cbn [bind] in Hg.
    injection Hg as <-. rewrite generateFixedShades_unrolled.
    intros level v Hin. apply in_map_iff in Hin. destruct Hin as (lv & [= <- <-] & _).
    unfold fixedShade, emitShade, fixedTargetL. cbn [notFalse andb]. rewrite Hf.
    unfold formatOklch, tableLightnessText. eauto.
  - rewrite (generateShades_levels M color options shades Hg). vm_compute. reflexivity.
Qed.

End Ramps.

Lemma achromatic_ramp_witness :
  exists shades,
    generateShades Reference.math (VStr "oklch(0.6 0 120)") [("mode", VStr "vivid")] = Ok shades
    /\ forall level v, In (level, v) shades ->
         exists lStr hStr : string, v = ("oklch(" ++ lStr ++ "% 0.0000 " ++ hStr ++ ")")%string.
Proof.
  destruct (generateShades Reference.math (VStr "oklch(0.6 0 120)") [("mode", VStr "vivid")])
    as [shades|e] eqn:Hg; [|vm_compute in Hg; discriminate Hg].
  exists shades. split; [reflexivity|].
  apply (achromatic_ramp Reference.math (VStr "oklch(0.6 0 120)") [("mode", VStr "vivid")]
           {| l := 0.6; c := 0; h := 120 |} shades);
    [vm_compute; reflexivity | reflexivity | reflexivity | exact Hg].
Defined.

Lemma fixed_ramp_table_lightness_witness :
  exists shades base,
    generateShades Reference.math (VStr "#3b82f6") [("exactMatch", VBool false)] = Ok shades
    /\ parseColor Reference.math (VStr "#3b82f6") = Ok base
    /\ forall level v, In (level, v) shades ->
         exists cStr : string,
           v = ("oklch(" ++ tableLightnessText level ++ "% " ++ cStr ++ " "
                  ++ toFixed (h base) 1 ++ ")")%string.
Proof.
  destruct (generateShades Reference.math (VStr "#3b82f6") [("exactMatch", VBool false)])
    as [shades|e] eqn:Hg; [|vm_compute in Hg; discriminate Hg].
  destruct (parseColor Reference.math (VStr "#3b82f6")) as [base|e] eqn:Hp;
    [|vm_compute in Hp; discriminate Hp].
  exists shades, base. split; [reflexivity|]. split; [reflexivity|].
  exact (proj1 (fixed_ramp_table_lightness Reference.math (VStr "#3b82f6")
                  [("exactMatch", VBool false)] base shades Hp eq_refl eq_refl eq_refl Hg)).
Defined.

(** *** Palettes of colour strings *)

Section Palettes.
Variable M : MathImpl.

Lemma setPalette_fresh (palettes : list (string * palette)) name p :
  ~ In name (keys palettes) -> setPalette palettes name p = (palettes ++ [(name, p)])%list.
Proof.
  unfold keys. induction palettes as [|[k q] rest IH]; cbn [setPalette List.map In fst app]; intros H.
  - reflexivity.
  - destruct (String.eqb_spec name k) as [->|Hne]; [tauto|]. rewrite IH; tauto.
Qed.

Lemma paletteLoop_strings options : forall entries palettes palettes',
  NoDup (keys palettes ++ keys entries) ->
  (forall name v, In (name, v) entries -> isString v = true) ->
  paletteLoop M options entries palettes = Ok palettes' ->
  exists generated,
    palettes' = (palettes ++ generated)%list
    /\ keys generated = keys entries
    /\ forall name v, In (name, v) entries ->
         exists shades, generateShades M v options = Ok shades
                        /\ In (name, Generated shades) generated.
Proof.
  induction entries as [|[name v] rest IH]; intros palettes palettes' Hnd Hs; cbn [paletteLoop].
  - intros [= <-]. exists []. rewrite app_nil_r.
    split; [reflexivity|]. split; [reflexivity|]. intros ? ? [].
  - assert (Hv : isString v = true) by (apply (Hs name); now left).
    destruct v as [| | | |text|]; try discriminate Hv.
    unfold paletteStep at 1.
    destruct (generateShades M (VStr text) options) as [shades|e] eqn:Hg; cbn [bind]; [|discriminate].
    assert (Hfresh : ~ In name (keys palettes)).
    { cbn [keys List.map fst] in Hnd. apply NoDup_remove_2 in Hnd.
      intros Hin. apply Hnd. apply in_or_app. now left. }
    rewrite setPalette_fresh by exact Hfresh.
    intros Hloop. apply IH in Hloop.
    + destruct Hloop as (generated & -> & Hk & Hall).
      exists ((name, Generated shades) :: generated). rewrite <- app_assoc. split; [reflexivity|].
      split; [cbn [keys List.map fst]; unfold keys in Hk; now rewrite Hk|].
      intros n' v' [[= <- <-]|Hin].
      * exists shades. split; [exact Hg | now left].
      * destruct (Hall _ _ Hin) as (sh & H1 & H2). exists sh. split; [exact H1 | now right].
    + unfold keys in *. rewrite List.map_app. cbn [List.map fst] in *.
      rewrite <- app_assoc. exact Hnd.
    + intros n' v' Hin. apply (Hs n'). now right.
Qed.


Lemma paletteLoop_returns options : forall entries palettes,
  (forall name v, In (name, v) entries -> isString v = true) ->
  (forall name v, In (name, v) entries -> isOk (generateShades M v options) = true) ->
  isOk (paletteLoop M options entries palettes) = true.
Proof.
  induction entries as [|[name v] rest IH]; intros acc Hs Hall; cbn [paletteLoop]; [reflexivity|].
  assert (Hv : isString v = true) by (apply (Hs name); now left).
  destruct v as [| | | |text|]; try discriminate Hv.
  unfold paletteStep at 1.
  pose proof (Hall name (VStr text) (or_introl eq_refl)) as Hok.
  destruct (generateShades M (VStr text) options); [|discriminate Hok]. cbn [bind].
  apply IH.
  - intros n' v' Hin. apply (Hs n'). now right.
  - intros n' v' Hin. apply (Hall n'). now right.
Qed.

Lemma default_mode_is_own name :
  MODE_CONFIG_at (orDefault (getProp [] "mode") (VStr "fixed")) <> Inherited name.
Proof. discriminate. Qed.


End Palettes.


(** *** Hex text and back *)

Lemma readSign_plain c r :
  code c <> 45%Z -> code c <> 43%Z -> readSign (String c r) = (false, String c r).
Proof.
  destruct c as [[] [] [] [] [] [] [] []]; intros H1 H2; try reflexivity; exfalso;
    ((apply H1; reflexivity) || (apply H2; reflexivity)).
Qed.

Lemma lowerHex_code c :
  isLowerHexDigit c = true -> (48 <= code c <= 57 \/ 97 <= code c <= 102)%Z.
Proof.
  unfold isLowerHexDigit. cbv zeta. intros H. apply orb_prop in H.
  destruct H as [H|H]; apply andb_prop in H; destruct H as [H1 H2];
    apply Z.leb_le in H1, H2; lia.
Qed.

Lemma lowerHex_digitValue c :
  isLowerHexDigit c = true ->
  exists v, digitValue c = Some v /\ (0 <= v < 16)%Z.
Proof.
  intros H. apply lowerHex_code in H. unfold digitValue. cbv zeta.
  destruct H as [H|H].
  - replace ((48 <=? code c)%Z && (code c <=? 57)%Z) with true
      by (symmetry; apply andb_true_intro; split; apply Z.leb_le; lia).
    eexists. split; [reflexivity | lia].
  - replace ((48 <=? code c)%Z && (code c <=? 57)%Z) with false
      by (symmetry; apply andb_false_intro2; apply Z.leb_gt; lia).
    replace ((97 <=? code c)%Z && (code c <=? 122)%Z) with true
      by (symmetry; apply andb_true_intro; split; apply Z.leb_le; lia).
    eexists. split; [reflexivity | lia].
Qed.

Lemma span_hex s :
  forallb_str isLowerHexDigit s = true ->
  span (fun c => match digitValue c with Some v => (v <? 16)%Z | None => false end) s
  = (s, EmptyString).
Proof.
  induction s as [|c r IH]; cbn [forallb_str span]; [reflexivity|].
  intros H. apply andb_prop in H. destruct H as [Hc Hr].
  destruct (lowerHex_digitValue c Hc) as (v & -> & Hv).
  replace (v <? 16)%Z with true by (symmetry; apply Z.ltb_lt; lia).
  now rewrite (IH Hr).
Qed.

Lemma hexPrefix_plain c1 c2 r :
  isLowerHexDigit c2 = true ->
  match String c1 (String c2 r) with
  | String "0" (String c _) => (code c =? 120)%Z || (code c =? 88)%Z
  | _ => false
  end = false.
Proof.
  intros H. apply lowerHex_code in H.
  assert (Hx : (code c2 =? 120)%Z || (code c2 =? 88)%Z = false).
  { apply orb_false_intro; apply Z.eqb_neq; lia. }
  destruct c1 as [[] [] [] [] [] [] [] []]; try reflexivity. exact Hx.
Qed.

(** [parseInt] reads a text of two or more lowercase hex digits as the
    number they spell. *)
Lemma parseInt_hex c1 c2 r :
  forallb_str isLowerHexDigit (String c1 (String c2 r)) = true ->
  parseInt (String c1 (String c2 r)) (Some 16%Z)
  = roundRational (digitsValue 16 (String c1 (String c2 r)) 0) 1.
Proof.
  intros H. pose proof H as Hall. cbn [forallb_str] in H.
  apply andb_prop in H. destruct H as [H1 H]. apply andb_prop in H. destruct H as [H2 Hr].
  pose proof (lowerHex_code c1 H1) as Hc1.
  unfold parseInt.
  assert (Hsp : isSpace c1 = false).
  { unfold isSpace. cbv zeta. repeat (apply orb_false_intro);
      [apply andb_false_intro2; apply Z.leb_gt; lia | apply Z.eqb_neq; lia | apply Z.eqb_neq; lia]. }
  cbn [trimStart]. rewrite Hsp. rewrite readSign_plain by lia.
  rewrite (hexPrefix_plain c1 c2 r H2). cbn [andb].
  rewrite (span_hex _ Hall). cbn [String.length Nat.eqb withSign]. reflexivity.
Qed.

Lemma digitValue_digitChar v : (0 <= v < 16)%Z -> digitValue (digitChar v) = Some v.
Proof.
  intros Hv. unfold digitChar, digitValue. cbv zeta.
  destruct (Z.ltb_spec v 10) as [Hlt|Hge]; rewrite code_chr by lia.
  - replace ((48 <=? 48 + v)%Z && (48 + v <=? 57)%Z) with true
      by (symmetry; apply andb_true_intro; split; apply Z.leb_le; lia).
    f_equal. lia.
  - replace ((48 <=? 87 + v)%Z && (87 + v <=? 57)%Z) with false
      by (symmetry; apply andb_false_intro2; apply Z.leb_gt; lia).
    replace ((97 <=? 87 + v)%Z && (87 + v <=? 122)%Z) with true
      by (symmetry; apply andb_true_intro; split; apply Z.leb_le; lia).
    f_equal. lia.
Qed.

(** Round trip: the channels [hexToRgb] reads from what [formatHex] writes
    for three bytes are these bytes. *)
Theorem hexToRgb_formatHex (R G B : Z) :
  (0 <= R <= 255)%Z -> (0 <= G <= 255)%Z -> (0 <= B <= 255)%Z ->
  hexToRgb (formatHex (ofInt R) (ofInt G) (ofInt B))
  = {| r := ofInt R; g := ofInt G; b := ofInt B |}.
Proof.
  intros HR HG HB. unfold formatHex.
  destruct (toHex_byte R HR) as (-> & R1 & R2).
  destruct (toHex_byte G HG) as (-> & G1 & G2).
  destruct (toHex_byte B HB) as (-> & B1 & B2).
  cbn [append]. unfold hexToRgb.
  change (removeFirst "#" (String "#" ?x)) with x.
  cbn [String.length Nat.eqb take].
  rewrite parseInt_hex by (cbn [forallb_str]; rewrite R1, R2, G1, G2, B1, B2; reflexivity).
  cbn [digitsValue].
  assert (Hd : forall n, (0 <= n <= 255)%Z -> (0 <= n / 16 < 16 /\ 0 <= n mod 16 < 16)%Z).
  { intros n Hn. split; [|apply Z.mod_pos_bound; lia].
    split; [apply Z.div_pos; lia | apply Z.div_lt_upper_bound; lia]. }
  rewrite !digitValue_digitChar by (apply Hd; assumption).
  match goal with |- context [roundRational ?n 1] => set (N := n) end.
  assert (HN : N = (R * 65536 + G * 256 + B)%Z).
  { subst N. pose proof (Z.div_mod R 16 ltac:(lia)). pose proof (Z.div_mod G 16 ltac:(lia)).
    pose proof (Z.div_mod B 16 ltac:(lia)). lia. }
  rewrite roundRational_integer by lia. rewrite toInt32_ofInt by lia.
  rewrite !Z.shiftr_div_pow2 by lia. change 255%Z with (Z.ones 8).
  rewrite !Z.land_ones by lia. rewrite HN.
  change (2 ^ 16)%Z with 65536%Z. change (2 ^ 8)%Z with 256%Z.
  assert (E1 : ((R * 65536 + G * 256 + B) / 65536 = R)%Z).
  { symmetry. apply (Z.div_unique _ _ _ (G * 256 + B)); lia. }
  assert (E2 : ((R * 65536 + G * 256 + B) / 256 = R * 256 + G)%Z).
  { symmetry. apply (Z.div_unique _ _ _ B); lia. }
  rewrite E1, E2.
  replace (R mod 256)%Z with R by (symmetry; apply Z.mod_small; lia).
  replace ((R * 256 + G) mod 256)%Z with G
    by (symmetry; rewrite Z.add_comm, Z.mod_add by lia; apply Z.mod_small; lia).
  replace ((R * 65536 + G * 256 + B) mod 256)%Z with B
    by (symmetry; replace (R * 65536 + G * 256 + B)%Z with (B + (R * 256 + G) * 256)%Z by lia;
        rewrite Z.mod_add by lia; apply Z.mod_small; lia).
  reflexivity.
Qed.

Lemma hexToRgb_formatHex_witness :
  hexToRgb (formatHex 59 130 246) = {| r := 59; g := 130; b := 246 |}.
Proof. apply (hexToRgb_formatHex 59 130 246); lia. Defined.

(** *** The range of a normalised hue *)

Lemma is_infinity_spec x :
  is_infinity x = match Prim2SF x with S754_infinity _ => true | _ => false end.
Proof.
  unfold is_infinity. rewrite FloatAxioms.eqb_spec, abs_spec.
  change (Prim2SF infinity) with (S754_infinity false).
  destruct (Prim2SF x) as [s|s| |s m e]; reflexivity.
Qed.

Lemma isNaN_false_spec x : isNaN x = false <-> Prim2SF x <> S754_nan.
Proof.
  split.
  - intros H E. apply isNaN_spec in E. congruence.
  - intros H. destruct (isNaN x) eqn:E; [|reflexivity]. apply isNaN_spec in E. contradiction.
Qed.

(** The remainder by 360 of a finite number: exact, of the sign of the
    dividend, below 360 in magnitude. *)
Lemma rem_360 x s m e :
  Prim2SF x = S754_finite s m e ->
  exists q, positiveF (Prim2SF q) /\ (B2R q < 360)%R /\ rem x 360 = withSign s q.
Proof.
  intros E. unfold rem. rewrite E.
  change (Prim2SF 360) with (S754_finite false (360 * 2 ^ 44) (-44)).
  cbv zeta. set (e0 := Z.min e (-44)).
  set (r := ((Z.pos m * 2 ^ (e - e0)) mod (Z.pos (360 * 2 ^ 44) * 2 ^ (-44 - e0)))%Z).
  pose proof (finite_valid _ _ _ _ E) as Hb.
  destruct (bounded_facts _ _ Hb) as (Hm & He & _).
  assert (Hd : (0 < Z.pos (360 * 2 ^ 44) * 2 ^ (-44 - e0))%Z).
  { apply Z.mul_pos_pos; [lia|]. apply Z.pow_pos_nonneg; subst e0; lia. }
  assert (Hr : (0 <= r < Z.pos (360 * 2 ^ 44) * 2 ^ (-44 - e0))%Z)
    by (subst r; apply Z.mod_pos_bound; exact Hd).
  assert (Hr53 : (r < 2 ^ 53)%Z).
  { destruct (Z_le_gt_dec e (-44)) as [Hle|Hgt].
    - assert (He0 : e0 = e) by (subst e0; lia).
      assert (r <= Z.pos m * 2 ^ (e - e0))%Z.
      { subst r. apply Z.mod_le; [|exact Hd]. apply Z.mul_nonneg_nonneg; [lia|].
        apply Z.pow_nonneg. lia. }
      rewrite He0, Z.sub_diag in H. change (2 ^ 0)%Z with 1%Z in H. lia.
    - assert (He0 : e0 = (-44)%Z) by (subst e0; lia).
      rewrite He0 in Hr. change (-44 - -44)%Z with 0%Z in Hr.
      change (Z.pos (360 * 2 ^ 44) * 2 ^ 0)%Z with 6333186975989760%Z in Hr. lia. }
  destruct (ofInt_exact r ltac:(lia)) as [Hp Hv].
  assert (He0 : (-1074 <= e0 <= -44)%Z) by (subst e0; lia).
  assert (Hrep : representable (B2R (ofInt r) * pow2 e0)).
  { rewrite Hv. exists r, e0. split; [lia|]. split; [lia|]. reflexivity. }
  destruct (Z_ldexp_exact _ e0 Hp Hrep) as [Hp' Hv'].
  exists (Z.ldexp (ofInt r) e0). split; [exact Hp'|]. split; [|reflexivity].
  rewrite Hv', Hv. fold (F2R r e0).
  apply Rlt_le_trans with (F2R (Z.pos (360 * 2 ^ 44) * 2 ^ (-44 - e0)) e0).
  - apply F2R_lt. lia.
  - rewrite F2R_shift by lia. replace (e0 + (-44 - e0))%Z with (-44)%Z by lia.
    change (Z.pos (360 * 2 ^ 44)) with (360 * 2 ^ 44)%Z.
    rewrite F2R_shift by lia. change (-44 + 44)%Z with 0%Z. unfold F2R, pow2, powerRZ. lra.
Qed.

Lemma range_of_R q :
  nonnegF (Prim2SF q) -> (B2R q <= 360)%R -> (0 <=? q) && (q <=? 360) = true.
Proof.
  intros Hq Hle. apply andb_true_intro. split.
  - apply leb_of_R; [reflexivity | exact Hq |]. change (B2R 0) with 0%R.
    fold (B2R q). apply (SF2R_nonneg _ Hq).
  - apply leb_of_R; [exact Hq | reflexivity |]. now rewrite B2R_360.
Qed.

(** [normalizeHue] turns every finite hue into a number from 0 to 360,
    both ends included, and gives [NaN] for [NaN] and the infinities. *)
Theorem normalizeHue_range h :
  (0 <=? normalizeHue h) && (normalizeHue h <=? 360) = negb (isNaN h || is_infinity h)
  /\ isNaN (normalizeHue h) = isNaN h || is_infinity h.
Proof.
  rewrite is_infinity_spec. unfold normalizeHue. cbv zeta.
  destruct (Prim2SF h) as [s|s| |s m e] eqn:E.
  - assert (Hn : isNaN h = false) by (apply isNaN_false_spec; rewrite E; discriminate).
    assert (Hr : rem h 360 = h) by (unfold rem; rewrite E; reflexivity).
    rewrite Hr, Hn. cbn [orb negb].
    assert (Hlt : (h <? 0) = false) by (rewrite ltb_spec, E; now destruct s).
    rewrite Hlt, Hn. split; [|reflexivity].
    rewrite !leb_spec, E. now destruct s.
  - assert (Hn : isNaN h = false) by (apply isNaN_false_spec; rewrite E; discriminate).
    assert (Hr : rem h 360 = NaN) by (unfold rem; rewrite E; reflexivity).
    rewrite Hr, Hn. split; reflexivity.
  - assert (Hn : isNaN h = true) by (apply isNaN_spec; exact E).
    assert (Hr : rem h 360 = NaN) by (unfold rem; rewrite E; reflexivity).
    rewrite Hr, Hn. split; reflexivity.
  - assert (Hn : isNaN h = false) by (apply isNaN_false_spec; rewrite E; discriminate).
    rewrite Hn. cbn [orb negb].
    destruct (rem_360 h s m e E) as (q & Hq & Hq360 & ->).
    pose proof (positiveF_nonnegF _ Hq) as Hq0.
    destruct s; cbn [withSign].
    + (* negative dividend *)
      destruct (Prim2SF q) as [[|]|sq| |[|] mq eq] eqn:Eq; cbn [positiveF] in Hq; try tauto.
      * assert (Hz : q = 0) by (apply Prim2SF_inj; rewrite Eq; reflexivity).
        subst q. split; reflexivity.
      * assert (Hlt : (- q <? 0) = true).
        { rewrite ltb_spec, opp_spec, Eq. reflexivity. }
        rewrite Hlt.
        assert (Hsum : rounds (360 - B2R q) (- q + 360)).
        { apply rounds_of_spec. rewrite add_spec, opp_spec, Eq.
          change (Prim2SF 360) with (S754_finite false (360 * 2 ^ 44) (-44)).
          cbn [SFopp negb]. unfold B2R. rewrite Eq. cbn [SF2R cond_Zopp].
          pose proof B2R_360 as H360. unfold B2R in H360.
          change (Prim2SF 360) with (S754_finite false (360 * 2 ^ 44) (-44)) in H360.
          cbn [SF2R cond_Zopp] in H360. rewrite <- H360.
          apply SFadd_mixed_spec. rewrite H360. unfold B2R in Hq360. rewrite Eq in Hq360.
          exact Hq360. }
        assert (Hpos : (0 < B2R q)%R).
        { unfold B2R. rewrite Eq. cbn [SF2R cond_Zopp]. apply F2R_pos. lia. }
        assert (Hr360 : representable 360%R).
        { rewrite <- B2R_360. now apply representable_nonnegF. }
        destruct Hsum as [[_ Hbig]|(Hs & _ & Hsw)].
        { pose proof (representable_le_MAX _ Hr360). lra. }
        assert (Hle : (B2R (- q + 360) <= 360)%R) by (apply (Hsw _ Hr360); lra).
        split; [now apply range_of_R|].
        apply isNaN_false_spec. intros En. rewrite En in Hs. exact Hs.
    + assert (Hlt : (q <? 0) = false).
      { destruct (q <? 0) eqn:El; [|reflexivity]. rewrite ltb_spec in El.
        change (Prim2SF 0) with (S754_zero false) in El.
        apply (SFltb_nonneg _ (S754_zero false) Hq0 I) in El. cbn [SF2R] in El.
        pose proof (SF2R_nonneg _ Hq0). lra. }
      rewrite Hlt. split; [apply range_of_R; [exact Hq0 | lra]|].
      apply isNaN_false_spec. intros En. rewrite En in Hq. exact Hq.
Qed.

(** The upper end is reached: a negative hue of tiny magnitude is mapped
    to 360 itself. *)
Lemma normalizeHue_reaches_360 : normalizeHue (-1e-20) = 360.
Proof. vm_compute. reflexivity. Qed.

(** *** Options *)

Section Options.
Variable M : MathImpl.

Lemma exactShade_format base originalColor f1 f2 :
  isText f1 "hex" = isText f2 "hex" ->
  exactShade M base originalColor f1 = exactShade M base originalColor f2.
Proof. intros H. unfold exactShade. now rewrite H. Qed.

Lemma emitShade_format f1 f2 L C H :
  isText f1 "hex" = isText f2 "hex" -> emitShade M f1 L C H = emitShade M f2 L C H.
Proof. intros E. unfold emitShade. now rewrite E. Qed.

(** [generateShades] reads its options leniently: the result depends on
    [format] only through [format === 'hex'] and on [exactMatch] only
    through [exactMatch !== false], so any other format gives the
    perceptual text and any other value of [exactMatch] keeps the input at
    level 500. *)
Theorem generateShades_reads_options_leniently color options1 options2 :
  orDefault (getProp options1 "mode") (VStr "fixed")
  = orDefault (getProp options2 "mode") (VStr "fixed") ->
  isText (orDefault (getProp options1 "format") (VStr "oklch")) "hex"
  = isText (orDefault (getProp options2 "format") (VStr "oklch")) "hex" ->
  notFalse (getProp options1 "exactMatch") = notFalse (getProp options2 "exactMatch") ->
  generateShades M color options1 = generateShades M color options2.
Proof.
  intros Hm Hf He. unfold generateShades. rewrite Hm.
  destruct (parseColor M color) as [base|e]; cbn [bind]; [|reflexivity].
  set (f1 := orDefault (getProp options1 "format") (VStr "oklch")) in *.
  set (f2 := orDefault (getProp options2 "format") (VStr "oklch")) in *.
  destruct (isText _ "fixed").
  - f_equal. rewrite !generateFixedShades_unrolled. rewrite He.
    apply List.map_ext. intros level. f_equal. unfold fixedShade.
    rewrite (exactShade_format _ _ f1 f2 Hf).
    now rewrite (emitShade_format f1 f2 _ _ _ Hf).
  - destruct (match MODE_CONFIG_at _ with Undefined => _ | found => found end) as [cfg|name|];
      try reflexivity.
    unfold generateEnhancedShades. cbv zeta. f_equal. rewrite !enhanced_loop_unrolled.
    unfold enhancedShade. rewrite He.
    repeat (f_equal;
            try (destruct (enhancedTarget _ _ _ _ _) as [[L C] H];
                 rewrite (exactShade_format _ _ f1 f2 Hf);
                 now rewrite (emitShade_format f1 f2 _ _ _ Hf))).
Qed.

End Options.

Lemma generateShades_reads_options_leniently_witness :
  generateShades Reference.math (VStr "#3b82f6") [("format", VStr "rgb"); ("exactMatch", VNum 0)]
  = generateShades Reference.math (VStr "#3b82f6") [].
Proof.
  apply generateShades_reads_options_leniently; reflexivity.
Defined.

End Behaviour.

(** ** Properties of theme-processor.js *)
Module ProcessorBehaviour.
Import JS ShadeGenerator Statements FurtherStatements Properties Behaviour ThemeProcessor
  CssGenerator.

(** *** The validators of colours and code themes *)

Lemma report_valid errs : valid (report errs) = (length errs =? 0)%nat.
Proof. now destruct errs. Qed.

Lemma fold_errors_count (step : list string -> string * value -> list string)
      (ok : string * value -> bool) :
  (forall errs entry, ok entry = true -> step errs entry = errs) ->
  (forall errs entry, ok entry = false -> exists msg, step errs entry = (errs ++ [msg])%list) ->
  forall props errs,
    length (fold_left step props errs)
    = (length errs + length (filter (fun e => negb (ok e)) props))%nat
    /\ exists more, fold_left step props errs = (errs ++ more)%list.
Proof.
  intros Hok Hbad. induction props as [|entry rest IH]; intros errs; cbn [fold_left filter].
  - split; [cbn; lia | exists []; now rewrite app_nil_r].
  - destruct (ok entry) eqn:E; cbn [negb].
    + rewrite (Hok _ _ E). apply IH.
    + destruct (Hbad errs _ E) as (msg & ->).
      destruct (IH (errs ++ [msg])%list) as [Hl (more & Hm)]. split.
      * rewrite Hl, length_app. cbn [length]. lia.
      * exists (msg :: more). rewrite Hm, <- app_assoc. reflexivity.
Qed.

Lemma filter_none {A} (p : A -> bool) l : length (filter (fun e => negb (p e)) l) = 0%nat <-> forallb p l = true.
Proof.
  induction l as [|a l IH]; cbn [filter forallb]; [tauto|].
  destruct (p a); cbn [negb andb length]; [exact IH | split; [lia | discriminate]].
Qed.

Section WithMath.
Variable M : MathImpl.

Lemma colorErrors_ok errs entry : colorAccepted M entry = true -> colorErrors M errs entry = errs.
Proof.
  destruct entry as [name v]. unfold colorAccepted, colorErrors. cbn [fst snd].
  destruct v as [| | | |text|props]; try discriminate; [|reflexivity].
  destruct (String.eqb name "neutral" && presetIsTruthy text); [reflexivity|].
  cbn [orb]. now intros ->.
Qed.

Lemma colorErrors_bad errs entry :
  colorAccepted M entry = false -> exists msg, colorErrors M errs entry = (errs ++ [msg])%list.
Proof.
  destruct entry as [name v]. unfold colorAccepted, colorErrors. cbn [fst snd].
  destruct v as [| | | |text|props]; try discriminate; eauto.
  destruct (String.eqb name "neutral" && presetIsTruthy text); [discriminate|].
  cbn [orb]. intros ->. cbn [negb]. eauto.
Qed.

(** [validateColors] reports a configuration valid exactly when every
    entry is a shade object, a neutral preset name under [neutral], or a
    colour [isValidColor] accepts; it pushes one message for each other
    entry; anything that is not an object is valid. *)
Theorem validateColors_valid_iff (colors : value) :
  valid (validateColors M colors)
  = match colors with VObj props => forallb (colorAccepted M) props | _ => true end
  /\ length (errors (validateColors M colors))
     = match colors with
       | VObj props => length (filter (fun e => negb (colorAccepted M e)) props)
       | _ => 0%nat
       end.
Proof.
  unfold validateColors. destruct colors as [| | | | |props]; try (split; reflexivity).
  cbn [entriesToValidate].
  destruct (fold_errors_count (colorErrors M) (colorAccepted M) colorErrors_ok colorErrors_bad props [])
    as [Hl _]. cbn [length Nat.add] in Hl. split.
  - rewrite report_valid, Hl.
    destruct (forallb (colorAccepted M) props) eqn:E.
    + apply filter_none in E. now rewrite E.
    + apply Nat.eqb_neq. intros H. apply filter_none in H. congruence.
  - exact Hl.
Qed.

Lemma codeErrors_ok errs entry : codeAccepted M entry = true -> codeErrors M errs entry = errs.
Proof.
  destruct entry as [name v]. unfold codeAccepted, codeErrors. cbn [fst snd].
  destruct v as [| | | |text|props]; try discriminate. now intros ->.
Qed.

Lemma codeErrors_bad errs entry :
  codeAccepted M entry = false -> exists msg, codeErrors M errs entry = (errs ++ [msg])%list.
Proof.
  destruct entry as [name v]. unfold codeAccepted, codeErrors. cbn [fst snd].
  destruct v as [| | | |text|props]; try discriminate; eauto.
  intros ->. cbn [negb]. eauto.
Qed.

(** [validateCodeTheme] reports a code theme valid exactly when every
    entry is a string [isValidColor] accepts, and pushes one message for
    each other entry. *)
Theorem validateCodeTheme_valid_iff (code : value) :
  valid (validateCodeTheme M code)
  = match code with VObj props => forallb (codeAccepted M) props | _ => true end
  /\ length (errors (validateCodeTheme M code))
     = match code with
       | VObj props => length (filter (fun e => negb (codeAccepted M e)) props)
       | _ => 0%nat
       end.
Proof.
  unfold validateCodeTheme. destruct code as [| | | | |props]; try (split; reflexivity).
  cbn [entriesToValidate].
  destruct (fold_errors_count (codeErrors M) (codeAccepted M) codeErrors_ok codeErrors_bad props [])
    as [Hl _]. cbn [length Nat.add] in Hl. split.
  - rewrite report_valid, Hl.
    destruct (forallb (codeAccepted M) props) eqn:E.
    + apply filter_none in E. now rewrite E.
    + apply Nat.eqb_neq. intros H. apply filter_none in H. congruence.
  - exact Hl.
Qed.

End WithMath.

(** *** Palette references *)

(** *** Palette references *)

Lemma firstSome_head {A B} (f : A -> option B) x tl b :
  f x = Some b -> firstSome f (x :: tl) = Some b.
Proof. intros H. cbn [firstSome]. now rewrite H. Qed.

Lemma take_app_length a rest : take (String.length a) (a ++ rest) = a.
Proof. induction a as [|ch a IH]; cbn; [now destruct rest | now rewrite IH]. Qed.

Lemma take_all s : take (String.length s) s = s.
Proof. induction s as [|ch s IH]; cbn; [reflexivity | now rewrite IH]. Qed.

Lemma append_empty_r s : (s ++ EmptyString)%string = s.
Proof. induction s as [|ch s IH]; cbn; [reflexivity | now rewrite IH]. Qed.

Lemma length_append a b : String.length (a ++ b) = (String.length a + String.length b)%nat.
Proof. induction a as [|ch a IH]; cbn; [reflexivity | now rewrite IH]. Qed.

Lemma lowerOrDigit_not_dash : isLowerOrDigit "-" = false.
Proof. reflexivity. Qed.

Lemma matchWhole_paletteRef c r digits :
  isLower c = true -> forallb_str isLowerOrDigit r = true ->
  negb (String.eqb digits EmptyString) = true -> forallb_str isDigit digits = true ->
  matchWhole paletteRefPattern (String c r ++ "-" ++ digits)
  = Some [Some (String c r); Some digits].
Proof.
  intros Hc Hr Hne Hd. unfold matchWhole, paletteRefPattern.
  cbn [matchFrom append]. rewrite Hc.
  destruct (runs_whole isLowerOrDigit r (String "-" digits) Hr lowerOrDigit_not_dash) as (tl & ->).
  apply firstSome_head. cbn [fst snd Nat.leb andb].
  change (isDash "-") with true. cbv iota.
  destruct (runs_whole isDigit digits EmptyString Hd I) as (tl' & Hruns).
  rewrite append_empty_r in Hruns. rewrite Hruns.
  apply firstSome_head. cbn [fst snd].
  destruct digits as [|d ds]; [discriminate|].
  cbn [String.length Nat.leb andb String.eqb].
  rewrite Nat.sub_0_r.
  replace (take (S (String.length ds)) (String d ds)) with (String d ds)
    by (symmetry; apply (take_all (String d ds))).
  assert (Ht : take (S (String.length (r ++ String "-" (String d ds)))
                      - S (S (String.length ds)))
                  (String c (r ++ String "-" (String d ds))) = String c r).
  { rewrite length_append. cbn [String.length].
    replace (S (String.length r + S (S (String.length ds))) - S (S (String.length ds)))%nat
      with (String.length (String c r)) by (cbn [String.length]; lia).
    apply (take_app_length (String c r) (String "-" (String d ds))). }
  rewrite Ht. reflexivity.
Qed.

Lemma includesChar_app a b ch : includesChar (a ++ b) ch = includesChar a ch || includesChar b ch.
Proof. induction a as [|d a IH]; cbn; [reflexivity | now rewrite IH, orb_assoc]. Qed.

Lemma includesChar_class (p : ascii -> bool) s ch :
  p ch = false -> forallb_str p s = true -> includesChar s ch = false.
Proof.
  intros Hch. induction s as [|d s IH]; cbn; [reflexivity|].
  intros H. apply andb_prop in H. destruct H as [Hd Hs].
  rewrite (IH Hs), orb_false_r. destruct (Ascii.eqb_spec ch d) as [->|]; congruence.
Qed.

Lemma startsWith_other c r d :
  c <> d -> startsWith (String c r) (String d EmptyString) = false.
Proof.
  intros H. unfold startsWith. cbn [String.prefix].
  destruct (ascii_dec d c) as [->|_]; [now destruct H | reflexivity].
Qed.

Lemma lower_facts c :
  isLower c = true -> isDash c = false /\ c <> "#"%char /\ Ascii.eqb "("%char c = false.
Proof.
  unfold isLower, isDash. intros H. apply andb_prop in H. destruct H as [H1 H2].
  apply Z.leb_le in H1, H2. repeat split.
  - apply Z.eqb_neq. lia.
  - intros ->. cbn in H1. lia.
  - destruct (Ascii.eqb_spec "("%char c) as [<-|]; [cbn in H1; lia | reflexivity].
Qed.

Lemma removePrefix_dashes c r :
  isDash c = false ->
  removePrefix leadingDashes (String c r) = String c r
  /\ removePrefix leadingDashes (String "-" (String c r)) = String c r
  /\ removePrefix leadingDashes (String "-" (String "-" (String c r))) = String c r.
Proof.
  intros Hc. unfold removePrefix, leadingDashes. cbn [matchFrom runs].
  change (isDash "-") with true. cbv iota. rewrite Hc. repeat split; reflexivity.
Qed.

(** A palette reference written bare or with one or two leading dashes is
    resolved to the CSS variable of that palette and level. *)
Theorem normalizePaletteRef_resolves name level dashes :
  paletteName name = true ->
  In level ThemeProcessor.SHADE_LEVELS ->
  In dashes [EmptyString; "-"; "--"] ->
  normalizePaletteRef (VStr (dashes ++ name ++ "-" ++ digitsOf 10 level))
  = VStr ("var(--" ++ name ++ "-" ++ digitsOf 10 level ++ ")").
Proof.
  intros Hn Hl Hd. destruct name as [|c r]; [discriminate|].
  cbn [paletteName] in Hn. apply andb_prop in Hn. destruct Hn as [Hc Hr].
  destruct (lower_facts c Hc) as (Hdash & Hhash & Hparen).
  destruct (removePrefix_dashes c (r ++ "-" ++ digitsOf 10 level) Hdash) as (P0 & P1 & P2).
  assert (Hdigits : negb (String.eqb (digitsOf 10 level) EmptyString) = true
                    /\ forallb_str isDigit (digitsOf 10 level) = true
                    /\ hasShadeLevel (parseInt (digitsOf 10 level) (Some 10)) = true
                    /\ includesChar (digitsOf 10 level) "(" = false).
  { cbn [In ThemeProcessor.SHADE_LEVELS] in Hl.
    repeat (destruct Hl as [<- | Hl]; [repeat split; vm_compute; reflexivity|]). destruct Hl. }
  destruct Hdigits as (D1 & D2 & D3 & D4).
  assert (Hinc : includesChar (String c r ++ "-" ++ digitsOf 10 level) "(" = false).
  { cbn [append includesChar]. rewrite Hparen, includesChar_app. cbn [orb includesChar].
    rewrite (includesChar_class isLowerOrDigit r "(" eq_refl Hr), D4. reflexivity. }
  assert (Hm := matchWhole_paletteRef c r (digitsOf 10 level) Hc Hr D1 D2).
  cbn [In] in Hd. destruct Hd as [<- | [<- | [<- | []]]]; unfold normalizePaletteRef.
  - cbn [append] in *. rewrite Hinc. rewrite (startsWith_other c _ "#" Hhash).
    rewrite P0, Hm. cbn [group nth_error Nat.sub]. rewrite D3.
    cbn [append]. now rewrite append_assoc.
  - change ("-" ++ String c r ++ "-" ++ digitsOf 10 level)
      with (String "-" (String c r ++ "-" ++ digitsOf 10 level)).
    cbn [includesChar]. change (Ascii.eqb "(" "-") with false. cbn [orb].
    rewrite Hinc. change (startsWith (String "-" ?x) "#") with false. cbv iota.
    cbn [append] in P1 |- *. rewrite P1. cbn [append] in Hm. rewrite Hm.
    cbn [group nth_error Nat.sub]. rewrite D3.
    cbn [append]. now rewrite append_assoc.
  - change ("--" ++ String c r ++ "-" ++ digitsOf 10 level)
      with (String "-" (String "-" (String c r ++ "-" ++ digitsOf 10 level))).
    cbn [includesChar]. change (Ascii.eqb "(" "-") with false. cbn [orb].
    rewrite Hinc. change (startsWith (String "-" ?x) "#") with false. cbv iota.
    cbn [append] in P2 |- *. rewrite P2. cbn [append] in Hm. rewrite Hm.
    cbn [group nth_error Nat.sub]. rewrite D3.
    cbn [append]. now rewrite append_assoc.
Qed.

Lemma normalizePaletteRef_resolves_witness :
  normalizePaletteRef (VStr "--primary-500") = VStr "var(--primary-500)".
Proof.
  apply (normalizePaletteRef_resolves "primary" 500 "--");
    [reflexivity | cbn; tauto | cbn; tauto].
Defined.

Lemma normalizePaletteRef_cases v :
  normalizePaletteRef v = v
  \/ exists bare, normalizePaletteRef v = VStr ("var(--" ++ bare ++ ")").
Proof.
  unfold normalizePaletteRef. destruct v as [| | | |text|]; auto.
  destruct (includesChar text "("); auto.
  destruct (startsWith text "#"); auto.
  destruct (matchWhole _ _); auto.
  destruct (hasShadeLevel _); eauto.
Qed.

(** [normalizePaletteRef] is idempotent: what it returns is left as it is
    by a second pass, and whatever is not a string, holds a parenthesis or
    starts with [#] is returned unchanged. *)
Theorem normalizePaletteRef_idempotent v :
  normalizePaletteRef (normalizePaletteRef v) = normalizePaletteRef v
  /\ (isString v = false -> normalizePaletteRef v = v)
  /\ (forall text, v = VStr text ->
        includesChar text "(" || startsWith text "#" = true -> normalizePaletteRef v = v).
Proof.
  split; [|split].
  - destruct (normalizePaletteRef_cases v) as [H|(bare & H)]; rewrite H.
    + exact H.
    + reflexivity.
  - destruct v; try reflexivity. discriminate.
  - intros text -> H. unfold normalizePaletteRef.
    destruct (includesChar text "("); [reflexivity|]. cbn [orb] in H. now rewrite H.
Qed.

Lemma normalizePaletteRef_idempotent_witness :
  normalizePaletteRef (VNum 4%float) = VNum 4%float
  /\ normalizePaletteRef (VStr "rgb(0, 0, 0)") = VStr "rgb(0, 0, 0)"
  /\ normalizePaletteRef (VStr "#fff") = VStr "#fff".
Proof.
  split; [|split].
  - exact (proj1 (proj2 (normalizePaletteRef_idempotent (VNum 4%float))) eq_refl).
  - exact (proj2 (proj2 (normalizePaletteRef_idempotent (VStr "rgb(0, 0, 0)")))
             "rgb(0, 0, 0)" eq_refl eq_refl).
  - exact (proj2 (proj2 (normalizePaletteRef_idempotent (VStr "#fff"))) "#fff" eq_refl eq_refl).
Defined.

(** *** Foundation variables and contexts *)

(** *** Variable names *)

Lemma firstSome_map {A B C} (g : A -> B) (f : B -> option C) l :
  firstSome f (List.map g l) = firstSome (fun a => f (g a)) l.
Proof. induction l as [|a l IH]; cbn; [reflexivity|]. destruct (f (g a)); auto. Qed.

Lemma firstSome_app {A B} (f : A -> option B) l1 l2 :
  firstSome f (l1 ++ l2)%list
  = match firstSome f l1 with Some b => Some b | None => firstSome f l2 end.
Proof. induction l1 as [|a l IH]; cbn; [reflexivity|]. destruct (f a); auto. Qed.

Lemma runs_to_the_end {A} (x : A) (q : ascii -> bool) r :
  firstSome (fun alt : string * string =>
               if String.eqb (snd alt) EmptyString then Some x else None) (runs q r)
  = if forallb_str q r then Some x else None.
Proof.
  induction r as [|c r IH]; cbn [runs forallb_str]; [reflexivity|].
  destruct (q c); cbn [andb]; [|reflexivity].
  rewrite firstSome_app, firstSome_map. cbn [snd]. rewrite IH.
  destruct (forallb_str q r); reflexivity.
Qed.

Lemma matchWhole_variableName name :
  found (matchWhole variableNamePattern name) = variableName name.
Proof.
  unfold matchWhole, variableNamePattern, variableName. cbn [matchFrom].
  destruct name as [|c r]; [reflexivity|].
  destruct (isLower c || isUpper c); cbn [andb]; [|reflexivity].
  cbn [Nat.leb andb].
  rewrite (runs_to_the_end (@nil (option string))).
  now destruct (forallb_str _ r).
Qed.

Lemma fold_errors_none (step : list string -> string * value -> list string)
      (ok : string * value -> bool) :
  (forall errs entry, ok entry = true -> step errs entry = errs) ->
  (forall errs entry, ok entry = false ->
     exists msg more, step errs entry = (errs ++ msg :: more)%list) ->
  forall props errs,
    (length (fold_left step props errs) =? 0)%nat
    = (length errs =? 0)%nat && forallb ok props.
Proof.
  intros Hok Hbad. induction props as [|entry rest IH]; intros errs; cbn [fold_left forallb].
  - now rewrite andb_true_r.
  - destruct (ok entry) eqn:E; cbn [andb].
    + rewrite (Hok _ _ E). apply IH.
    + destruct (Hbad errs _ E) as (msg & more & ->). rewrite IH, length_app.
      cbn [length]. rewrite andb_false_r.
      replace (length errs + S (length more) =? 0)%nat with false
        by (symmetry; apply Nat.eqb_neq; lia).
      reflexivity.
Qed.

Lemma foundationVarErrors_ok errs entry :
  variableName (fst entry) && variableConfig (snd entry) = true ->
  foundationVarErrors errs entry = errs.
Proof.
  destruct entry as [name config]. cbn [fst snd]. intros H. apply andb_prop in H.
  destruct H as [Hn Hc]. unfold foundationVarErrors.
  rewrite <- matchWhole_variableName in Hn.
  destruct (matchWhole variableNamePattern name); [|discriminate].
  destruct config; try discriminate; reflexivity.
Qed.

Lemma foundationVarErrors_bad errs entry :
  variableName (fst entry) && variableConfig (snd entry) = false ->
  exists msg more, foundationVarErrors errs entry = (errs ++ msg :: more)%list.
Proof.
  destruct entry as [name config]. cbn [fst snd]. intros H. unfold foundationVarErrors.
  rewrite <- matchWhole_variableName in H.
  destruct (matchWhole variableNamePattern name); cbn [found andb] in H.
  - destruct config; try discriminate; eauto.
  - destruct config; try (eexists; exists []; reflexivity);
      rewrite <- app_assoc; eexists; eexists; reflexivity.
Qed.

(** [validateFoundationVars] reports a set of variables valid exactly when
    every name is an ASCII letter followed by letters, digits and dashes
    (either case) and every value is an object, [null], a string or a
    number. *)
Theorem validateFoundationVars_valid_iff (vars : value) :
  valid (validateFoundationVars vars)
  = match vars with
    | VObj props => forallb (fun e => variableName (fst e) && variableConfig (snd e)) props
    | _ => true
    end.
Proof.
  unfold validateFoundationVars. destruct vars as [| | | | |props]; try reflexivity.
  cbn [entriesToValidate]. rewrite report_valid.
  now rewrite (fold_errors_none foundationVarErrors _ foundationVarErrors_ok
                 foundationVarErrors_bad props []).
Qed.

Lemma contextErrors_ok errs entry : contextAccepted entry = true -> contextErrors errs entry = errs.
Proof.
  destruct entry as [context tokens]. unfold contextAccepted, contextErrors. cbn [fst snd].
  intros H. apply andb_prop in H. destruct H as [-> Ht]. cbn [negb].
  destruct tokens; try discriminate. reflexivity.
Qed.

Lemma contextErrors_bad errs entry :
  contextAccepted entry = false ->
  exists msg more, contextErrors errs entry = (errs ++ msg :: more)%list.
Proof.
  destruct entry as [context tokens]. unfold contextAccepted, contextErrors. cbn [fst snd].
  destruct (existsb _ _); cbn [negb andb].
  - destruct tokens; try discriminate; intros _; eexists; exists []; reflexivity.
  - intros _. eexists. exists []. reflexivity.
Qed.

(** [validateContexts] reports contexts valid exactly when every key is
    [light], [medium] or [dark] and is bound to an object. *)
Theorem validateContexts_valid_iff (contexts : value) :
  valid (validateContexts contexts)
  = match contexts with VObj props => forallb contextAccepted props | _ => true end.
Proof.
  unfold validateContexts. destruct contexts as [| | | | |props]; try reflexivity.
  cbn [entriesToValidate]. rewrite report_valid.
  now rewrite (fold_errors_none contextErrors _ contextErrors_ok contextErrors_bad props []).
Qed.

(** *** Foundation variables *)

(** When [foundationHasVars] answers no, [getFoundationVars] returns the
    empty object; and a truthy [_self.vars] is what [getFoundationVars]
    returns, before the two legacy places. *)
Theorem foundation_vars_agree (foundationSchema : value) :
  (foundationHasVars foundationSchema = false ->
   getFoundationVars foundationSchema = VObj [])
  /\ (truthy (member (member foundationSchema "_self") "vars") = true ->
      getFoundationVars foundationSchema = member (member foundationSchema "_self") "vars").
Proof.
  unfold foundationHasVars, getFoundationVars, orElse.
  set (a := member (member foundationSchema "_self") "vars").
  set (b := member (member foundationSchema "_self") "themeVars").
  set (c := member foundationSchema "themeVars").
  split.
  - intros H. apply orb_false_elim in H. destruct H as [H Hc].
    apply orb_false_elim in H. destruct H as [Ha Hb].
    destruct a; try discriminate; destruct b; try discriminate; destruct c; try discriminate;
      reflexivity.
  - now intros ->.
Qed.

Lemma foundation_vars_agree_witness :
  getFoundationVars (VObj [("name", VStr "demo")]) = VObj []
  /\ getFoundationVars
       (VObj [("_self", VObj [("vars", VObj [("radius", VStr "4px")])]);
              ("themeVars", VObj [("radius", VStr "8px")])])
     = VObj [("radius", VStr "4px")].
Proof.
  split.
  - exact (proj1 (foundation_vars_agree (VObj [("name", VStr "demo")])) eq_refl).
  - exact (proj2 (foundation_vars_agree
                    (VObj [("_self", VObj [("vars", VObj [("radius", VStr "4px")])]);
                           ("themeVars", VObj [("radius", VStr "8px")])])) eq_refl).
Defined.

Lemma orElse_truthy a b : truthy b = true -> truthy (orElse a b) = true.
Proof. intros H. unfold orElse. destruct (truthy a) eqn:E; [exact E | exact H]. Qed.

(** Neither [extractFoundationVars] nor [getFoundationVars] returns a
    falsy value: a missing module or schema, and one whose variables are
    falsy, give an object to read the variables from. *)
Theorem foundation_vars_never_falsy (x : value) :
  truthy (extractFoundationVars x) = true /\ truthy (getFoundationVars x) = true.
Proof.
  split.
  - unfold extractFoundationVars. destruct (truthy x) eqn:E; cbn [negb]; [|reflexivity].
    apply orElse_truthy, orElse_truthy, E.
  - unfold getFoundationVars. apply orElse_truthy, orElse_truthy, orElse_truthy. reflexivity.
Qed.

(** *** From validation to generation *)

Section Palettes.
Variable M : MathImpl.


End Palettes.


(** *** Defaults *)

Lemma hash_text_is_valid (M : MathImpl) text :
  startsWith (toLowerCase (trim text)) "#" = true ->
  startsWith (toLowerCase (trim text)) "oklch(" = false ->
  String.eqb text EmptyString = false ->
  isValidColor M (VStr text) = true.
Proof. intros H1 H2 H3. unfold isValidColor, parseColor. now rewrite H3, H2, H1. Qed.

Lemma getDefaultColors_copy : getDefaultColors = DEFAULT_COLORS.
Proof. reflexivity. Qed.

(** The defaults of the package are usable with every implementation of
    the approximated functions: the default colours and the default code
    theme pass their validators, every neutral preset is a colour
    [isValidColor] accepts, and [generatePalettes] returns the four default
    palettes. *)
Theorem defaults_are_usable (M : MathImpl) :
  valid (validateColors M (VObj getDefaultColors)) = true
  /\ valid (validateCodeTheme M (VObj DEFAULT_CODE_THEME)) = true
  /\ forallb (fun preset => isValidColor M (VStr (snd preset))) NEUTRAL_PRESETS = true
  /\ exists palettes,
       generatePalettes M getDefaultColors [] = Ok palettes
       /\ keys palettes = ["primary"; "secondary"; "accent"; "neutral"].
Proof.
  rewrite getDefaultColors_copy.
  assert (Hc : forallb (colorAccepted M) DEFAULT_COLORS = true).
  { cbn [forallb DEFAULT_COLORS]. unfold colorAccepted. cbn [fst snd].
    rewrite !hash_text_is_valid by reflexivity. reflexivity. }
  split; [|split; [|split]].
  - unfold validateColors. cbn [entriesToValidate]. rewrite report_valid.
    destruct (fold_errors_count (colorErrors M) (colorAccepted M) (colorErrors_ok M)
                (colorErrors_bad M) DEFAULT_COLORS []) as [-> _].
    apply filter_none in Hc. now rewrite Hc.
  - unfold validateCodeTheme. cbn [entriesToValidate]. rewrite report_valid.
    destruct (fold_errors_count (codeErrors M) (codeAccepted M) (codeErrors_ok M)
                (codeErrors_bad M) DEFAULT_CODE_THEME []) as [-> _].
    assert (Hk : forallb (codeAccepted M) DEFAULT_CODE_THEME = true).
    { cbn [forallb DEFAULT_CODE_THEME]. unfold codeAccepted. cbn [fst snd].
      rewrite !hash_text_is_valid by reflexivity. reflexivity. }
    apply filter_none in Hk. now rewrite Hk.
  - cbn [forallb NEUTRAL_PRESETS snd]. rewrite !hash_text_is_valid by reflexivity. reflexivity.
  - assert (Hs : forall name v, In (name, v) DEFAULT_COLORS -> isString v = true).
    { intros name v Hin. cbn in Hin.
      repeat (destruct Hin as [[= <- <-]|Hin]; [reflexivity|]). destruct Hin. }
    assert (Hall : forall name v, In (name, v) DEFAULT_COLORS ->
                     isOk (generateShades M v []) = true).
    { intros name v Hin.
      assert (Hv : isValidColor M v = true).
      { cbn in Hin.
        repeat (destruct Hin as [[= <- <-]|Hin]; [now apply hash_text_is_valid|]). destruct Hin. }
      unfold isValidColor in Hv. destruct (parseColor M v) as [base|e] eqn:Hp; [|discriminate].
      destruct (generateShades_returns M v [] base Hp (default_mode_is_own)) as (sh & ->).
      reflexivity. }
    pose proof (paletteLoop_returns M [] DEFAULT_COLORS [] Hs Hall) as Hok.
    unfold generatePalettes.
    destruct (paletteLoop M [] DEFAULT_COLORS []) as [palettes|e] eqn:Hg; [|discriminate Hok].
    exists palettes. split; [reflexivity|].
    assert (Hnd : NoDup (keys (@nil (string * palette)) ++ keys getDefaultColors)).
    { cbn. repeat constructor; cbn; intuition discriminate. }
    destruct (paletteLoop_strings M [] DEFAULT_COLORS [] palettes Hnd Hs Hg) as (gen & -> & Hk & _).
    exact Hk.
Qed.

End ProcessorBehaviour.
